(** * fast-plist: a shallow embedding of [src/main.ts] and its properties

    The parser of [src/main.ts] is one function, [parse], whose local
    variables ([pos], [line], [char], [state], [cur], the two stacks and
    [curKey]) are shared by a family of nested helper functions.  The
    embedding below keeps that shape: the closure variables become the
    fields of a record [pstate], every helper becomes a computation in a
    state-and-exception monad over [pstate], and the [while] loop of
    [parse] becomes a fuelled iteration of its body (the fuel is shown to
    be sufficient for every input).  JavaScript objects and arrays are
    mutable and aliased by [cur], [objStack] and their parents, so they
    live in an explicit heap. *)

From Stdlib Require Import SpecFloat.
From stdpp Require Import base numbers list gmap strings.

Set Default Proof Using "Type".
Open Scope N_scope.
Open Scope nat_scope.

(** ** JavaScript strings

    A JavaScript string is a sequence of UTF-16 code units. *)

Abbreviation chcode := N (only parsing).
Abbreviation jsstring := (list N) (only parsing).

(** An ASCII literal as a JavaScript string. *)
Definition str (s : string) : jsstring :=
  map (fun a => Ascii.N_of_ascii a) (String.list_ascii_of_string s).

Module ChCode.
Definition BOM : chcode := 65279%N.
Definition SPACE : chcode := 32%N.
Definition TAB : chcode := 9%N.
Definition CARRIAGE_RETURN : chcode := 13%N.
Definition LINE_FEED : chcode := 10%N.
Definition SLASH : chcode := 47%N.
Definition LESS_THAN : chcode := 60%N.
Definition QUESTION_MARK : chcode := 63%N.
Definition EXCLAMATION_MARK : chcode := 33%N.
(* characters that only occur inside string and regular-expression
   literals of the source *)
Definition AMPERSAND : chcode := 38%N.
Definition HASH : chcode := 35%N.
Definition SEMICOLON : chcode := 59%N.
Definition GREATER_THAN : chcode := 62%N.
Definition LOWER_X : chcode := 120%N.
End ChCode.
Import ChCode.

(** [s.charCodeAt(i)]; [None] stands for the [NaN] of an index out of range. *)
Definition charCodeAt (s : jsstring) (i : nat) : option N := s !! i.

(** [s.substr(start, n)] and [s.substr(start)], for [start >= 0]. *)
Definition substr (s : jsstring) (start n : nat) : jsstring := take n (drop start s).
Definition substr_from (s : jsstring) (start : nat) : jsstring := drop start s.

(** [s.substring(a, b)]: the arguments are swapped when [a > b]. *)
Definition substring (s : jsstring) (a b : nat) : jsstring :=
  take (Nat.max a b - Nat.min a b) (drop (Nat.min a b) s).

(** [s] begins with [p]. *)
Fixpoint starts_with (p s : jsstring) : bool :=
  match p, s with
  | [], _ => true
  | _ :: _, [] => false
  | c :: p', d :: s' => (c =? d)%N && starts_with p' s'
  end.

(** [s.indexOf(p, from)]: the least index [i >= from] at which [p] occurs,
    [None] standing for [-1].  [from] is clamped to the length of [s]. *)
Fixpoint indexOf_aux (p s : jsstring) (i : nat) : option nat :=
  if starts_with p s then Some i
  else match s with
       | [] => None
       | _ :: s' => indexOf_aux p s' (S i)
       end.

Definition indexOf (s p : jsstring) (from : nat) : option nat :=
  indexOf_aux p (drop from s) (Nat.min from (length s)).

(** [StrWhiteSpaceChar] of ECMAScript (WhiteSpace and LineTerminator): the
    characters removed by [String.prototype.trim] and skipped by
    [parseInt] and [parseFloat]. *)
Definition isStrWhiteSpace (c : chcode) : bool :=
  ((9 <=? c) && (c <=? 13) || (c =? 32) || (c =? 160) || (c =? 5760)
   || (8192 <=? c) && (c <=? 8202) || (c =? 8232) || (c =? 8233)
   || (c =? 8239) || (c =? 8287) || (c =? 12288) || (c =? 65279))%N.

Fixpoint trimStart (s : jsstring) : jsstring :=
  match s with
  | c :: s' => if isStrWhiteSpace c then trimStart s' else s
  | [] => []
  end.

Definition trimEnd (s : jsstring) : jsstring := reverse (trimStart (reverse s)).

(** [s.trim()] *)
Definition trim (s : jsstring) : jsstring := trimEnd (trimStart s).

(** ** Numbers

    A JavaScript Number is an IEEE 754 double: [NaN], an infinity, or a
    finite value [m * 2^e] with a sign.  A finite value is kept in the one
    form in which [m] is odd, or [m] and [e] are both zero (the two
    zeros), so that two numbers are equal exactly when they are the same
    Number. *)
Inductive double :=
| Infinity (neg : bool)
| Finite (neg : bool) (m : N) (e : Z).

Inductive number :=
| NaN
| Num (d : double).

Definition isNaN (n : number) : bool :=
  match n with NaN => true | _ => false end.

(** [p = m * 2^t] with [m] odd. *)
Fixpoint oddPart (p : positive) : positive * Z :=
  match p with
  | xO p' => let '(m, t) := oddPart p' in (m, Z.succ t)
  | _ => (p, 0%Z)
  end.

(** The finite double [n * 2^e], for [0 <= n]. *)
Definition dyadic (neg : bool) (n e : Z) : double :=
  match n with
  | Zpos p => let '(m, t) := oddPart p in Finite neg (Npos m) (e + t)
  | _ => Finite neg 0 0
  end.

(** Whether [num / den < 2^k]. *)
Definition belowPower (num den k : Z) : bool :=
  if (0 <=? k)%Z then (num <? den * 2 ^ k)%Z else (num * 2 ^ (- k) <? den)%Z.

(** The Number value for the rational [num / den] (with [0 <= num] and
    [0 < den]) with sign [neg]: the double nearest to it, the one with
    the even significand when two are equally near, and an infinity from
    [2^1024] on.  [k] is the binary order of magnitude of the rational,
    [e] the exponent of the last place of a double of that magnitude
    (53 significant bits, and no exponent below -1074), and [n] the
    rational in units of [2^e], rounded. *)
Definition toNumber (neg : bool) (num den : Z) : double :=
  if (num =? 0)%Z then Finite neg 0 0
  else
    let k0 := (Z.log2 num - Z.log2 den)%Z in
    let k := if belowPower num den k0 then (k0 - 1)%Z else k0 in
    let e := Z.max (k - 52) (-1074) in
    let a := if (0 <=? e)%Z then num else (num * 2 ^ (- e))%Z in
    let b := if (0 <=? e)%Z then (den * 2 ^ e)%Z else den in
    let q := (a / b)%Z in
    let r := (a mod b)%Z in
    let n := if (2 * r <? b)%Z || ((2 * r =? b)%Z && Z.even q) then q
             else (q + 1)%Z in
    if (971 <=? e)%Z && (2 ^ 53 <=? n * 2 ^ (e - 971))%Z then Infinity neg
    else dyadic neg n e.

(** The integer that a Number is, if it is one. *)
Definition integerOf (d : double) : option Z :=
  match d with
  | Finite neg m e =>
    if (0 <=? e)%Z then
      Some (if neg then - (Z.of_N m * 2 ^ e) else Z.of_N m * 2 ^ e)%Z
    else if (Z.of_N m mod 2 ^ (- e) =? 0)%Z then
      Some (if neg then - (Z.of_N m / 2 ^ (- e)) else Z.of_N m / 2 ^ (- e))%Z
    else None
  | Infinity _ => None
  end.

Definition isDigit (c : chcode) : bool := ((48 <=? c) && (c <=? 57))%N.

(** The value of [c] as a digit in [radix] (at most 36), if it is one. *)
Definition digitValue (radix : N) (c : chcode) : option N :=
  let v := if ((48 <=? c) && (c <=? 57))%N then Some (c - 48)%N
           else if ((97 <=? c) && (c <=? 122))%N then Some (c - 97 + 10)%N
           else if ((65 <=? c) && (c <=? 90))%N then Some (c - 65 + 10)%N
           else None in
  match v with
  | Some d => if (d <? radix)%N then Some d else None
  | None => None
  end.

(** Reads the longest prefix of digits of [s], accumulating its value;
    returns the value, the number of digits read and the rest. *)
Fixpoint readDigits (radix : N) (acc : N) (s : jsstring) : N * nat * jsstring :=
  match s with
  | c :: s' =>
    match digitValue radix c with
    | Some d =>
      let '(v, n, r) := readDigits radix (acc * radix + d)%N s' in (v, S n, r)
    | None => (acc, 0, s)
    end
  | [] => (acc, 0, [])
  end.

(** An optional sign at the head of [s]: whether it is [-], and the rest. *)
Definition readSign (s : jsstring) : bool * jsstring :=
  match s with
  | c :: s' =>
    if (c =? 45)%N then (true, s')
    else if (c =? 43)%N then (false, s')
    else (false, s)
  | [] => (false, [])
  end.

(** [parseInt(s, radix)] for [radix] 10 or 16: leading white space is
    skipped, a sign is read, for radix 16 a prefix [0x] or [0X] is
    stripped, then the longest prefix of digits is read and everything
    after it is ignored; [NaN] when there is no digit, and otherwise the
    Number value for the integer that the digits denote. *)
Definition parseInt (s : jsstring) (radix : N) : number :=
  let '(neg, s1) := readSign (trimStart s) in
  let s2 := if (radix =? 16)%N
                   && (starts_with [48; 120]%N s1 || starts_with [48; 88]%N s1)
            then drop 2 s1 else s1 in
  let '(v, n, _) := readDigits radix 0 s2 in
  match n with
  | O => NaN
  | S _ => Num (toNumber neg (Z.of_N v) 1)
  end.

(** The longest prefix of [s] whose characters satisfy [p], and what
    follows it. *)
Fixpoint takeWhile (p : chcode → bool) (s : jsstring) : jsstring :=
  match s with
  | c :: s' => if p c then c :: takeWhile p s' else []
  | [] => []
  end.

Fixpoint dropWhile (p : chcode → bool) (s : jsstring) : jsstring :=
  match s with
  | c :: s' => if p c then dropWhile p s' else s
  | [] => []
  end.

Definition takeDigits (s : jsstring) : jsstring * jsstring :=
  (takeWhile isDigit s, dropWhile isDigit s).

(** The natural number that a sequence of decimal digits denotes. *)
Definition decimalValue (digits : jsstring) : N :=
  fold_left (fun acc c => acc * 10 + (c - 48))%N digits 0%N.

(** The value of the exponent part of a decimal literal at the head of
    [s]: [e] or [E], an optional sign and at least one digit; zero when
    there is none. *)
Definition readExponent (s : jsstring) : Z :=
  match s with
  | e :: s1 =>
    if ((e =? 101) || (e =? 69))%N then
      let '(neg, s2) := readSign s1 in
      match takeWhile isDigit s2 with
      | [] => 0%Z
      | ds => if neg then (- Z.of_N (decimalValue ds))%Z else Z.of_N (decimalValue ds)
      end
    else 0%Z
  | [] => 0%Z
  end.

(** The Number value for [mant * 10^p]. *)
Definition decimal (neg : bool) (mant : N) (p : Z) : double :=
  if (0 <=? p)%Z then toNumber neg (Z.of_N mant * 10 ^ p) 1
  else toNumber neg (Z.of_N mant) (10 ^ (- p)).

(** [parseFloat(s)]: leading white space is skipped and the longest prefix
    that is a [StrDecimalLiteral] is read ([Infinity], or digits with an
    optional fraction and exponent, with an optional sign); [NaN] when no
    prefix is one, and otherwise the Number value for the literal. *)
Definition parseFloat (s : jsstring) : number :=
  let '(neg, s2) := readSign (trimStart s) in
  if starts_with (str "Infinity") s2 then Num (Infinity neg)
  else
    let '(ip, s3) := takeDigits s2 in
    let '(fp, s4) :=
      match s3 with
      | c :: s3' => if (c =? 46)%N then takeDigits s3' else ([], s3)
      | [] => ([], s3)
      end in
    match ip, fp with
    | [], [] => NaN
    | _, _ =>
      Num (decimal neg (decimalValue (ip ++ fp)) (readExponent s4 - Z.of_nat (length fp)))
    end.

(** ** Outcomes

    [fail] of the source throws an [Error] whose message is built from the
    offset, a reason and an excerpt of the input; [String.fromCodePoint]
    throws a [RangeError]; a method call or an assignment on a value that
    is no object throws a [TypeError].  [Unmodelled] is the outcome of the
    few operations whose JavaScript behaviour the model does not describe
    (a named property stored on an array or a date, [null] made a
    prototype); they are shown unreachable from the initial state. *)
Inductive error :=
| ParseError (offset : nat) (msg : jsstring) (excerpt : jsstring)
| RangeError
| TypeError
| Unmodelled.

Inductive result (A : Type) :=
| Ok (a : A)
| Throw (e : error).
Arguments Ok {A} a.
Arguments Throw {A} e.

#[global] Instance result_ret : MRet result := fun A a => Ok a.
#[global] Instance result_bind : MBind result := fun A B f m =>
  match m with
  | Ok a => f a
  | Throw e => Throw e
  end.
#[global] Instance result_fmap : FMap result := fun A B f m =>
  match m with
  | Ok a => Ok (f a)
  | Throw e => Throw e
  end.

(** ** Unescaping *)

(** [String.fromCodePoint(n)]: the UTF-16 encoding of the code point [n];
    a [RangeError] unless [n] is an integer between 0 and 0x10FFFF. *)
Definition fromCodePoint (n : number) : result jsstring :=
  match n with
  | Num d =>
    match integerOf d with
    | Some z =>
      if bool_decide (0 ≤ z ≤ 1114111)%Z then
        let c := Z.to_N z in
        if (c <=? 65535)%N then Ok [c]
        else Ok [55296 + N.shiftr (c - 65536) 10; 56320 + N.land (c - 65536) 1023]%N
      else Throw RangeError
    | None => Throw RangeError
    end
  | NaN => Throw RangeError
  end.

(** [s.replace(re, fn)] for a global regular expression [re]: the input is
    scanned from left to right; where [re] matches, the match is replaced
    by the result of [fn] and scanning resumes after the match; elsewhere
    the character is kept.  [matcher s] tells whether [re] matches at the
    head of [s], and returns the text handed to [fn] and the length of the
    match.  [skip] counts the characters of the current match that are
    still to be passed over. *)
Section Replace.
Context (matcher : jsstring → option (jsstring * nat)).
Context (fn : jsstring → result jsstring).

Fixpoint replace_from (skip : nat) (s : jsstring) : result jsstring :=
  match s with
  | [] => Ok []
  | c :: s' =>
    match skip with
    | S k => replace_from k s'
    | O =>
      match matcher s with
      | Some (m, n) =>
        r ← fn m; t ← replace_from (n - 1) s'; Ok (r ++ t)
      | None => t ← replace_from 0 s'; Ok (c :: t)
      end
    end
  end.

Definition replace (s : jsstring) : result jsstring := replace_from 0 s.
End Replace.

Definition isLowerHexDigit (c : chcode) : bool :=
  ((48 <=? c) && (c <=? 57) || (97 <=? c) && (c <=? 102))%N.

(** A match of [prefix cls+ ;] at the head of [s], where [cls] is a
    character class that does not contain [;]: the greedy [+] takes every
    character of the class, and no shorter run can be followed by [;]. *)
Definition matchReference (prefix : jsstring) (cls : chcode → bool) (s : jsstring)
  : option (jsstring * nat) :=
  if starts_with prefix s then
    let body := drop (length prefix) s in
    let m0 := takeWhile cls body in
    match m0, dropWhile cls body with
    | _ :: _, c :: _ =>
      if (c =? SEMICOLON)%N then Some (m0, length prefix + length m0 + 1) else None
    | _, _ => None
    end
  else None.

(** [/&#([0-9]+);/] *)
Definition matchDecimal : jsstring → option (jsstring * nat) :=
  matchReference [AMPERSAND; HASH] isDigit.

(** [/&#x([0-9a-f]+);/] *)
Definition matchHex : jsstring → option (jsstring * nat) :=
  matchReference [AMPERSAND; HASH; LOWER_X] isLowerHexDigit.

Definition amp_entity : jsstring := Eval cbv in str "&amp;".
Definition lt_entity : jsstring := Eval cbv in str "&lt;".
Definition gt_entity : jsstring := Eval cbv in str "&gt;".
Definition quot_entity : jsstring := Eval cbv in str "&quot;".
Definition apos_entity : jsstring := Eval cbv in str "&apos;".

(** [/&amp;|&lt;|&gt;|&quot;|&apos;/] *)
Definition matchNamed (s : jsstring) : option (jsstring * nat) :=
  if starts_with amp_entity s then Some (amp_entity, 5)
  else if starts_with lt_entity s then Some (lt_entity, 4)
  else if starts_with gt_entity s then Some (gt_entity, 4)
  else if starts_with quot_entity s then Some (quot_entity, 6)
  else if starts_with apos_entity s then Some (apos_entity, 6)
  else None.

(** The [switch] of the third replacement function. *)
Definition namedReplacement (m : jsstring) : jsstring :=
  if decide (m = amp_entity) then [38%N]
  else if decide (m = lt_entity) then [60%N]
  else if decide (m = gt_entity) then [62%N]
  else if decide (m = quot_entity) then [34%N]
  else if decide (m = apos_entity) then [39%N]
  else m.

Definition escapeVal (s : jsstring) : result jsstring :=
  s1 ← replace matchDecimal (fun m0 => fromCodePoint (parseInt m0 10)) s;
  s2 ← replace matchHex (fun m0 => fromCodePoint (parseInt m0 16)) s1;
  replace matchNamed (fun m => Ok (namedReplacement m)) s2.

(** ** Values and the heap

    The values built by the parser.  Dictionaries ([{}]) and arrays ([[]])
    are mutable objects shared between [cur], [objStack] and the
    container that holds them, so a value refers to them by their
    location in the heap.  Dates are never mutated or compared by the
    parser and are represented by the text they were constructed from. *)
Inductive value :=
| VNull
| VUndefined
| VString (s : jsstring)
| VNumber (n : number)
| VBool (b : bool)
| VDate (text : jsstring)
| VRef (l : nat).

(** An object created by [{}] is represented by its own properties and
    by its prototype: [proto] is [None] as long as the prototype is
    [Object.prototype], and the object that an assignment to [__proto__]
    has made the prototype afterwards.  An array is represented by its
    elements.  The order of the keys is not represented: the parser never
    enumerates them. *)
Inductive object :=
| ODict (proto : option value) (props : gmap (list N) value)
| OArray (elems : list value).

Definition proto_key : jsstring := Eval cbv in str "__proto__".

(** [o[key] = val] on an object created by [{}], whose prototype chain
    ends in [Object.prototype].  The key [__proto__] is the accessor
    inherited from [Object.prototype]: assigning to it never creates an
    own property.  Its setter makes an object (here a container or a
    date) the prototype of [o], and ignores a string, a number or a
    boolean. *)
Definition propAssign (key : jsstring) (val : value)
    (props : gmap (list N) value) : gmap (list N) value :=
  if decide (key = proto_key) then props else <[key := val]> props.

Definition protoAssign (key : jsstring) (val : value)
    (proto : option value) : option value :=
  if decide (key = proto_key) then
    match val with
    | VRef _ | VDate _ => Some val
    | _ => proto
    end
  else proto.

(** Whether the object at [l] is on the prototype chain that starts with
    the object at [from].  The chain of an array or a date, and of a
    dictionary whose prototype is [Object.prototype], ends there.  A
    chain has no cycle, so it is no longer than the heap. *)
Fixpoint onChain (h : list object) (fuel : nat) (from l : nat) : bool :=
  bool_decide (from = l)
  || match fuel with
     | O => false
     | S fuel' =>
       match h !! from with
       | Some (ODict (Some (VRef p)) _) => onChain h fuel' p l
       | _ => false
       end
     end.

(** What makes the setter of [__proto__] throw when [val] is assigned to
    it on the object at [l]: a [TypeError] for a prototype whose own
    chain goes through that object.  The parser never assigns [null],
    and the object without a prototype that it would give is not
    modelled. *)
Definition protoRefused (h : list object) (l : nat) (key : jsstring) (val : value)
  : option error :=
  if decide (key = proto_key) then
    match val with
    | VRef l' => if onChain h (length h) l' l then Some TypeError else None
    | VNull => Some Unmodelled
    | _ => None
    end
  else None.

(** [const enum State], and the [undefined] that [stateStack.pop()] returns
    on an empty stack (every test on [state] in the source treats it like
    [ROOT_STATE], in its final [else]). *)
Inductive State :=
| ROOT_STATE
| DICT_STATE
| ARR_STATE
| UNDEFINED_STATE.

#[global] Instance double_eq_dec : EqDecision double.
Proof. solve_decision. Defined.
#[global] Instance number_eq_dec : EqDecision number.
Proof. solve_decision. Defined.
#[global] Instance value_eq_dec : EqDecision value.
Proof. solve_decision. Defined.
#[global] Instance State_eq_dec : EqDecision State.
Proof. solve_decision. Defined.

(** The local variables of [parse].  The stacks have their top at the
    head of the list. *)
Record pstate := mkState {
  pos : nat;
  line : nat;
  char : nat;
  state : State;
  cur : value;
  stateStack : list State;
  objStack : list value;
  curKey : option jsstring;
  heap : list object
}.

Definition with_location (p l c : nat) (st : pstate) : pstate :=
  mkState p l c (state st) (cur st) (stateStack st) (objStack st) (curKey st) (heap st).
Definition with_pos (p : nat) (st : pstate) : pstate :=
  with_location p (line st) (char st) st.
Definition with_cur (v : value) (st : pstate) : pstate :=
  mkState (pos st) (line st) (char st) (state st) v (stateStack st) (objStack st)
          (curKey st) (heap st).
Definition with_curKey (k : option jsstring) (st : pstate) : pstate :=
  mkState (pos st) (line st) (char st) (state st) (cur st) (stateStack st)
          (objStack st) k (heap st).
Definition with_heap (h : list object) (st : pstate) : pstate :=
  mkState (pos st) (line st) (char st) (state st) (cur st) (stateStack st)
          (objStack st) (curKey st) h.
Definition with_frame (s : State) (v : value) (ss : list State) (os : list value)
    (st : pstate) : pstate :=
  mkState (pos st) (line st) (char st) s v ss os (curKey st) (heap st).

(** ** The monad of the helpers: state and exceptions *)
Definition M (A : Type) : Type := pstate → result (A * pstate).

#[global] Instance M_ret : MRet M := fun A a st => Ok (a, st).
#[global] Instance M_bind : MBind M := fun A B f m st =>
  match m st with
  | Ok (a, st') => f a st'
  | Throw e => Throw e
  end.

(** Reading one of the variables. *)
Definition gets {A} (f : pstate → A) : M A := fun st => Ok (f st, st).
Definition modify (f : pstate → pstate) : M unit := fun st => Ok (tt, f st).
Definition throw {A} (e : error) : M A := fun _ => Throw e.
Definition lift {A} (r : result A) : M A := fun st =>
  match r with
  | Ok a => Ok (a, st)
  | Throw e => Throw e
  end.
(** [if (c) { m }] *)
Definition when (c : bool) (m : M unit) : M unit := if c then m else mret tt.

(** [{}] and [[]]: a fresh object. *)
Definition newObject (o : object) : M value := fun st =>
  Ok (VRef (length (heap st)), with_heap (heap st ++ [o]) st).

(** [target[key] = val], in strict mode. *)
Definition setProperty (target : value) (key : jsstring) (val : value) : M unit :=
  fun st =>
  match target with
  | VRef l =>
    match heap st !! l with
    | Some (ODict proto props) =>
      match protoRefused (heap st) l key val with
      | Some e => Throw e
      | None =>
        Ok (tt, with_heap (<[l := ODict (protoAssign key val proto)
                                        (propAssign key val props)]> (heap st)) st)
      end
    | _ => Throw Unmodelled
    end
  | VDate _ => Throw Unmodelled
  | _ => Throw TypeError
  end.

(** [target.push(val)] *)
Definition arrayPush (target : value) (val : value) : M unit := fun st =>
  match target with
  | VRef l =>
    match heap st !! l with
    | Some (OArray elems) =>
      Ok (tt, with_heap (<[l := OArray (elems ++ [val])]> (heap st)) st)
    | Some (ODict _ _) => Throw TypeError
    | None => Throw Unmodelled
    end
  | _ => Throw TypeError
  end.

Record IParsedTag := mkTag { name : jsstring; isClosed : bool }.

(** How an iteration of the [while] loop ends. *)
Inductive control := Break | Continue.

(** ** The parser *)
Section Parser.
Context (content : jsstring).
(** [null] is [None]. *)
Context (locationKeyName : option jsstring).

Let len : nat := length content.

(** One iteration of the loop of [advancePosBy]. *)
Definition advancePosBy_step (st : pstate) : pstate :=
  if decide (charCodeAt content (pos st) = Some LINE_FEED)
  then with_location (S (pos st)) (S (line st)) 0 st
  else with_location (S (pos st)) (line st) (S (char st)) st.

Fixpoint advancePosBy_loop (n : nat) (st : pstate) : pstate :=
  match n with
  | O => st
  | S n' => advancePosBy_loop n' (advancePosBy_step st)
  end.

Definition advancePosBy (n : nat) : M unit :=
  match locationKeyName with
  | None => modify (fun st => with_pos (pos st + n) st)
  | Some _ => modify (advancePosBy_loop n)
  end.

(** [to - pos] is not positive when [to <= pos]: the loop of
    [advancePosBy] then does nothing, as with [to - pos = 0] here. *)
Definition advancePosTo (to : nat) : M unit :=
  match locationKeyName with
  | None => modify (with_pos to)
  | Some _ => p ← gets pos; advancePosBy (to - p)
  end.

Definition isBlank (chCode : chcode) : bool :=
  bool_decide (chCode = SPACE) || bool_decide (chCode = TAB)
  || bool_decide (chCode = CARRIAGE_RETURN) || bool_decide (chCode = LINE_FEED).

Fixpoint skipWhitespace_loop (fuel : nat) : M unit :=
  match fuel with
  | O => mret tt
  | S fuel' =>
    p ← gets pos;
    if bool_decide (p < len) then
      match charCodeAt content p with
      | Some chCode =>
        if isBlank chCode then advancePosBy 1 ;; skipWhitespace_loop fuel'
        else mret tt
      | None => mret tt
      end
    else mret tt
  end.

(** Every iteration moves [pos] forward by one and stops at [len], so
    [len] iterations are enough (lemma [skipWhitespace_rel]). *)
Definition skipWhitespace : M unit := skipWhitespace_loop len.

Definition advanceIfStartsWith (s : jsstring) : M bool :=
  p ← gets pos;
  if bool_decide (substr content p (length s) = s) then
    advancePosBy (length s) ;; mret true
  else mret false.

Definition advanceUntil (s : jsstring) : M unit :=
  p ← gets pos;
  match indexOf content s p with
  | Some nextOccurence => advancePosTo (nextOccurence + length s)
  | None => advancePosTo len
  end.

Definition captureUntil (s : jsstring) : M jsstring :=
  p ← gets pos;
  match indexOf content s p with
  | Some nextOccurence =>
    let r := substring content p nextOccurence in
    advancePosTo (nextOccurence + length s) ;; mret r
  | None =>
    let r := substr_from content p in
    advancePosTo len ;; mret r
  end.

Definition pushState (newState : State) (newCur : value) : M unit :=
  modify (fun st =>
    with_frame newState newCur (state st :: stateStack st) (cur st :: objStack st) st).

Definition popState : M unit :=
  modify (fun st =>
    with_frame (hd UNDEFINED_STATE (stateStack st)) (hd VUndefined (objStack st))
               (tl (stateStack st)) (tl (objStack st)) st).

(** The message of the [Error] is made of the offset [pos], [msg] and
    the excerpt [content.substr(pos, 50)]. *)
Definition fail {A} (msg : jsstring) : M A := fun st =>
  Throw (ParseError (pos st) msg (substr content (pos st) 50)).

Definition dictState_enterDict : M unit :=
  k ← gets curKey;
  match k with
  | None => fail (str "missing <key>")
  | Some key =>
    newDict ← newObject (ODict None ∅);
    c ← gets cur;
    setProperty c key newDict ;;
    modify (with_curKey None) ;;
    pushState DICT_STATE newDict
  end.

Definition dictState_enterArray : M unit :=
  k ← gets curKey;
  match k with
  | None => fail (str "missing <key>")
  | Some key =>
    newArr ← newObject (OArray []);
    c ← gets cur;
    setProperty c key newArr ;;
    modify (with_curKey None) ;;
    pushState ARR_STATE newArr
  end.

Definition arrState_enterDict : M unit :=
  newDict ← newObject (ODict None ∅);
  c ← gets cur;
  arrayPush c newDict ;;
  pushState DICT_STATE newDict.

Definition arrState_enterArray : M unit :=
  newArr ← newObject (OArray []);
  c ← gets cur;
  arrayPush c newArr ;;
  pushState ARR_STATE newArr.

Definition enterDict : M unit :=
  s ← gets state;
  match s with
  | DICT_STATE => dictState_enterDict
  | ARR_STATE => arrState_enterDict
  | _ =>
    newDict ← newObject (ODict None ∅);
    modify (with_cur newDict) ;;
    pushState DICT_STATE newDict
  end.

Definition leaveDict : M unit :=
  s ← gets state;
  match s with
  | DICT_STATE => popState
  | ARR_STATE => fail (str "unexpected </dict>")
  | _ => fail (str "unexpected </dict>")
  end.

Definition enterArray : M unit :=
  s ← gets state;
  match s with
  | DICT_STATE => dictState_enterArray
  | ARR_STATE => arrState_enterArray
  | _ =>
    newArr ← newObject (OArray []);
    modify (with_cur newArr) ;;
    pushState ARR_STATE newArr
  end.

Definition leaveArray : M unit :=
  s ← gets state;
  match s with
  | DICT_STATE => fail (str "unexpected </array>")
  | ARR_STATE => popState
  | _ => fail (str "unexpected </array>")
  end.

Definition acceptKey (val : jsstring) : M unit :=
  s ← gets state;
  match s with
  | DICT_STATE =>
    k ← gets curKey;
    when (bool_decide (k ≠ None)) (fail (str "too many <key>")) ;;
    modify (with_curKey (Some val))
  | ARR_STATE => fail (str "unexpected <key>")
  | _ => fail (str "unexpected <key>")
  end.

Definition acceptString (val : jsstring) : M unit :=
  s ← gets state;
  match s with
  | DICT_STATE =>
    k ← gets curKey;
    match k with
    | None => fail (str "missing <key>")
    | Some key =>
      c ← gets cur; setProperty c key (VString val) ;; modify (with_curKey None)
    end
  | ARR_STATE => c ← gets cur; arrayPush c (VString val)
  | _ => modify (with_cur (VString val))
  end.

Definition acceptReal (val : number) : M unit :=
  when (isNaN val) (fail (str "cannot parse float")) ;;
  s ← gets state;
  match s with
  | DICT_STATE =>
    k ← gets curKey;
    match k with
    | None => fail (str "missing <key>")
    | Some key =>
      c ← gets cur; setProperty c key (VNumber val) ;; modify (with_curKey None)
    end
  | ARR_STATE => c ← gets cur; arrayPush c (VNumber val)
  | _ => modify (with_cur (VNumber val))
  end.

Definition acceptInteger (val : number) : M unit :=
  when (isNaN val) (fail (str "cannot parse integer")) ;;
  s ← gets state;
  match s with
  | DICT_STATE =>
    k ← gets curKey;
    match k with
    | None => fail (str "missing <key>")
    | Some key =>
      c ← gets cur; setProperty c key (VNumber val) ;; modify (with_curKey None)
    end
  | ARR_STATE => c ← gets cur; arrayPush c (VNumber val)
  | _ => modify (with_cur (VNumber val))
  end.

(** [val] is the text the [Date] was constructed from. *)
Definition acceptDate (val : jsstring) : M unit :=
  s ← gets state;
  match s with
  | DICT_STATE =>
    k ← gets curKey;
    match k with
    | None => fail (str "missing <key>")
    | Some key =>
      c ← gets cur; setProperty c key (VDate val) ;; modify (with_curKey None)
    end
  | ARR_STATE => c ← gets cur; arrayPush c (VDate val)
  | _ => modify (with_cur (VDate val))
  end.

Definition acceptData (val : jsstring) : M unit :=
  s ← gets state;
  match s with
  | DICT_STATE =>
    k ← gets curKey;
    match k with
    | None => fail (str "missing <key>")
    | Some key =>
      c ← gets cur; setProperty c key (VString val) ;; modify (with_curKey None)
    end
  | ARR_STATE => c ← gets cur; arrayPush c (VString val)
  | _ => modify (with_cur (VString val))
  end.

Definition acceptBool (val : bool) : M unit :=
  s ← gets state;
  match s with
  | DICT_STATE =>
    k ← gets curKey;
    match k with
    | None => fail (str "missing <key>")
    | Some key =>
      c ← gets cur; setProperty c key (VBool val) ;; modify (with_curKey None)
    end
  | ARR_STATE => c ← gets cur; arrayPush c (VBool val)
  | _ => modify (with_cur (VBool val))
  end.

Definition parseOpenTag : M IParsedTag :=
  r ← captureUntil [GREATER_THAN];
  if bool_decide (last r = Some SLASH)
  then mret (mkTag (trim (substring r 0 (length r - 1))) true)
  else mret (mkTag (trim r) false).

Definition parseTagValue (tag : IParsedTag) : M jsstring :=
  if isClosed tag then mret []
  else
    val ← captureUntil (str "</");
    advanceUntil [GREATER_THAN] ;;
    lift (escapeVal val).

(** The [switch] on [tag.name] and what follows it. *)
Definition dispatchTag (tag : IParsedTag) : M control :=
  if decide (name tag = str "dict") then
    enterDict ;; when (isClosed tag) leaveDict ;; mret Continue
  else if decide (name tag = str "array") then
    enterArray ;; when (isClosed tag) leaveArray ;; mret Continue
  else if decide (name tag = str "key") then
    val ← parseTagValue tag; acceptKey val ;; mret Continue
  else if decide (name tag = str "string") then
    val ← parseTagValue tag; acceptString val ;; mret Continue
  else if decide (name tag = str "real") then
    val ← parseTagValue tag; acceptReal (parseFloat val) ;; mret Continue
  else if decide (name tag = str "integer") then
    val ← parseTagValue tag; acceptInteger (parseInt val 10) ;; mret Continue
  else if decide (name tag = str "date") then
    val ← parseTagValue tag; acceptDate val ;; mret Continue
  else if decide (name tag = str "data") then
    val ← parseTagValue tag; acceptData val ;; mret Continue
  else if decide (name tag = str "true") then
    parseTagValue tag ;; acceptBool true ;; mret Continue
  else if decide (name tag = str "false") then
    parseTagValue tag ;; acceptBool false ;; mret Continue
  else if starts_with (str "plist") (name tag) then mret Continue
  else fail (str "unexpected opened tag " ++ name tag).

(** The branch of a closing tag. *)
Definition closingTag : M control :=
  advancePosBy 1 ;;
  skipWhitespace ;;
  isPlist ← advanceIfStartsWith (str "plist");
  if (isPlist : bool) then advanceUntil [GREATER_THAN] ;; mret Continue
  else
    isDict ← advanceIfStartsWith (str "dict");
    if (isDict : bool) then advanceUntil [GREATER_THAN] ;; leaveDict ;; mret Continue
    else
      isArray ← advanceIfStartsWith (str "array");
      if (isArray : bool) then advanceUntil [GREATER_THAN] ;; leaveArray ;; mret Continue
      else fail (str "unexpected closed tag").

(** The body of [while (pos < len)]. *)
Definition loopBody : M control :=
  skipWhitespace ;;
  p ← gets pos;
  if bool_decide (len ≤ p) then mret Break
  else
    let chCode := charCodeAt content p in
    advancePosBy 1 ;;
    when (bool_decide (chCode ≠ Some LESS_THAN)) (fail (str "expected <")) ;;
    p ← gets pos;
    when (bool_decide (len ≤ p)) (fail (str "unexpected end of input")) ;;
    let peekChCode := charCodeAt content p in
    if decide (peekChCode = Some QUESTION_MARK) then
      advancePosBy 1 ;; advanceUntil (str "?>") ;; mret Continue
    else if decide (peekChCode = Some EXCLAMATION_MARK) then
      advancePosBy 1 ;;
      isComment ← advanceIfStartsWith (str "--");
      if (isComment : bool) then advanceUntil (str "-->") ;; mret Continue
      else advanceUntil [GREATER_THAN] ;; mret Continue
    else if decide (peekChCode = Some SLASH) then closingTag
    else tag ← parseOpenTag; dispatchTag tag.

(** [while (pos < len) { ... }]; [None] when the fuel runs out. *)
Fixpoint loop (fuel : nat) (st : pstate) : option (result pstate) :=
  match fuel with
  | O => None
  | S fuel' =>
    if bool_decide (pos st < len) then
      match loopBody st with
      | Ok (Continue, st') => loop fuel' st'
      | Ok (Break, st') => Some (Ok st')
      | Throw e => Some (Throw e)
      end
    else Some (Ok st)
  end.

Definition initialState : pstate :=
  mkState (if bool_decide (0 < len ∧ charCodeAt content 0 = Some BOM) then 1 else 0)
          1 0 ROOT_STATE VNull [] [] None [].

(** [parse(content, locationKeyName)]: the returned value [cur] together
    with the heap its references point into.  Every iteration that
    continues has moved [pos] forward, so [S len] iterations are enough
    (lemma [parse_terminates]). *)
Definition parse : option (result (value * list object)) :=
  (fun r : result pstate => (fun st => (cur st, heap st)) <$> r)
    <$> loop (S len) initialState.
End Parser.

(** * Properties *)

(** ** Numbers *)

Lemma oddPart_spec p :
  let '(m, t) := oddPart p in
  (Z.pos p = Z.pos m * 2 ^ t ∧ 0 ≤ t)%Z.
Proof.
  induction p as [p IH|p IH|]; simpl; [lia| |lia].
  destruct (oddPart p) as [m t]. destruct IH as [IH Ht].
  split; [|lia]. rewrite Pos2Z.inj_xO, IH, Z.pow_succ_r by done. lia.
Qed.

(** [toNumber] gives a finite double in the form in which it is kept. *)
Definition canonical (d : double) : Prop :=
  match d with
  | Finite _ m e => (m = 0%N ∧ e = 0%Z) ∨ N.odd m = true
  | Infinity _ => True
  end.

Lemma oddPart_odd p : N.odd (N.pos (oddPart p).1) = true.
Proof.
  induction p as [p IH|p IH|]; simpl; [done| |done].
  by destruct (oddPart p).
Qed.

Lemma dyadic_canonical neg n e : canonical (dyadic neg n e).
Proof.
  destruct n as [|p|p]; simpl; [by left| |by left].
  pose proof (oddPart_odd p) as Hp. destruct (oddPart p) as [m t]. by right.
Qed.

Lemma toNumber_canonical neg num den : canonical (toNumber neg num den).
Proof.
  unfold toNumber. destruct (num =? 0)%Z; [by left|]. cbv zeta.
  match goal with |- context [if ?c then Infinity neg else _] => destruct c end;
    [done|apply dyadic_canonical].
Qed.

Lemma oddPart_double p : oddPart (p~0) = ((oddPart p).1, Z.succ (oddPart p).2).
Proof. simpl. by destruct (oddPart p). Qed.

Lemma dyadic_double neg n e : dyadic neg (2 * n) (e - 1) = dyadic neg n e.
Proof.
  destruct n as [|p|p]; [done| |done].
  change (2 * Z.pos p)%Z with (Z.pos p~0). unfold dyadic.
  rewrite oddPart_double. destruct (oddPart p) as [m t]. simpl. f_equal. lia.
Qed.

(** A factor [2^s] of [n] can be moved into the exponent. *)
Lemma dyadic_shift neg n e s :
  (0 ≤ s)%Z → dyadic neg (n * 2 ^ s) (e - s) = dyadic neg n e.
Proof.
  intros Hs. revert e. pattern s. apply natlike_ind; [| |done].
  - intros e. by rewrite Z.mul_1_r, Z.sub_0_r.
  - intros x Hx IH e. rewrite Z.pow_succ_r by done.
    replace (n * (2 * 2 ^ x))%Z with (2 * (n * 2 ^ x))%Z by lia.
    replace (e - Z.succ x)%Z with ((e - x) - 1)%Z by lia.
    by rewrite dyadic_double.
Qed.

(** The integer [n * 2^e]. *)
Lemma integerOf_dyadic neg n e :
  (0 ≤ n)%Z → (0 ≤ e)%Z →
  integerOf (dyadic neg n e) = Some (if neg then - (n * 2 ^ e) else n * 2 ^ e)%Z.
Proof.
  intros Hn He. destruct n as [|p|p]; [|clear Hn|lia].
  - simpl. by destruct neg.
  - unfold dyadic. pose proof (oddPart_spec p) as Hp. destruct (oddPart p) as [m t].
    destruct Hp as [Hp Ht]. simpl.
    rewrite (proj2 (Z.leb_le _ _)) by lia.
    rewrite Hp, Z.pow_add_r by lia. f_equal. destruct neg; lia.
Qed.

(** An integer below [2^53] has a Number of its own. *)
Lemma toNumber_small neg z :
  (0 ≤ z < 2 ^ 53)%Z → toNumber neg z 1 = dyadic neg z 0.
Proof.
  intros [Hz Hlt]. unfold toNumber.
  destruct (Z.eqb_spec z 0) as [->|Hne]; [done|].
  assert (0 < z)%Z as Hpos by lia.
  pose proof (Z.log2_spec z Hpos) as [Hlo Hhi].
  assert (0 ≤ Z.log2 z)%Z as Hk by apply Z.log2_nonneg.
  assert (Z.log2 z < 53)%Z as Hk53 by (apply Z.log2_lt_pow2; lia).
  change (Z.log2 1) with 0%Z. rewrite Z.sub_0_r.
  unfold belowPower. rewrite (proj2 (Z.leb_le 0 (Z.log2 z))) by done.
  rewrite (proj2 (Z.ltb_ge _ _)) by lia.
  rewrite Z.max_l by lia.
  destruct (Z.leb_spec 0 (Z.log2 z - 52)) as [He|He].
  - assert (Z.log2 z - 52 = 0)%Z as -> by lia. simpl (2 ^ 0)%Z.
    rewrite Z.mul_1_r. change (1 * 1)%Z with 1%Z.
    rewrite Z.div_1_r, Z.mod_1_r. simpl.
    change (971 <=? 0)%Z with false. done.
  - rewrite Z.div_1_r, Z.mod_1_r. simpl ((2 * 0 <? 1)%Z || _).
    cbv iota. rewrite (proj2 (Z.leb_gt _ _)) by lia. simpl.
    rewrite <- (dyadic_shift neg z 0 (- (Z.log2 z - 52))) by lia.
    f_equal. lia.
Qed.

(** From [2^53] on, the Number of an integer is an infinity or an integer
    that is no less than [2^53]. *)
Lemma toNumber_large neg z :
  (2 ^ 53 ≤ z)%Z →
  toNumber neg z 1 = Infinity neg
  ∨ ∃ n e, (0 ≤ e ∧ 2 ^ 53 ≤ n * 2 ^ e)%Z ∧ toNumber neg z 1 = dyadic neg n e.
Proof.
  intros Hz. unfold toNumber.
  destruct (Z.eqb_spec z 0) as [->|Hne]; [lia|].
  assert (0 < z)%Z as Hpos by lia.
  pose proof (Z.log2_spec z Hpos) as [Hlo Hhi].
  assert (53 ≤ Z.log2 z)%Z as Hk by (apply Z.log2_le_pow2; lia).
  change (Z.log2 1) with 0%Z. rewrite Z.sub_0_r.
  unfold belowPower. rewrite (proj2 (Z.leb_le 0 (Z.log2 z))) by lia.
  rewrite (proj2 (Z.ltb_ge _ _)) by lia.
  rewrite Z.max_l by lia.
  set (e := (Z.log2 z - 52)%Z). assert (1 ≤ e)%Z as He by (unfold e; lia).
  rewrite (proj2 (Z.leb_le 0 e)) by lia. rewrite Z.mul_1_l.
  assert (0 < 2 ^ e)%Z as Hpow by (apply Z.pow_pos_nonneg; lia).
  assert (2 ^ 52 ≤ z / 2 ^ e)%Z as Hq.
  { apply Z.div_le_lower_bound; [done|].
    rewrite Z.mul_comm, <- Z.pow_add_r by lia.
    replace (52 + e)%Z with (Z.log2 z) by (unfold e; lia). done. }
  match goal with
  | |- context [if ?c then (z / 2 ^ e)%Z else (z / 2 ^ e + 1)%Z] =>
    set (n := if c then (z / 2 ^ e)%Z else (z / 2 ^ e + 1)%Z)
  end.
  assert (2 ^ 52 ≤ n)%Z as Hn by (unfold n; destruct (_ || _); lia).
  match goal with |- context [if ?c then Infinity neg else _] => destruct c end;
    [by left|]. right. exists n, e. split; [|done]. split; [lia|].
  replace e with (Z.succ (e - 1)) by lia. rewrite Z.pow_succ_r by lia.
  assert (0 < 2 ^ (e - 1))%Z by (apply Z.pow_pos_nonneg; lia).
  nia.
Qed.

(** No integer beyond the last code point is the Number of a code
    point. *)
Lemma fromCodePoint_large z :
  (1114111 < z)%Z → fromCodePoint (Num (toNumber false z 1)) = Throw RangeError.
Proof.
  intros Hz. unfold fromCodePoint.
  destruct (decide (z < 2 ^ 53)%Z) as [Hlt|Hge].
  - rewrite toNumber_small, integerOf_dyadic by lia.
    by rewrite bool_decide_eq_false_2 by lia.
  - destruct (toNumber_large false z ltac:(lia)) as [->|(n & e & [He Hn] & ->)]; [done|].
    assert (0 < 2 ^ e)%Z by (apply Z.pow_pos_nonneg; lia).
    rewrite integerOf_dyadic by nia.
    by rewrite bool_decide_eq_false_2 by lia.
Qed.

(** [toNumber] against the specification of IEEE 754 of the Standard
    Library, whose division rounds the quotient of two numbers that are
    given exactly: the two agree on halves and thirds, on the integers
    around [2^53] and [2^54], where one integer in two and in four is a
    double, on both sides of the greatest double and of the least one,
    and on decimal fractions. *)
Definition ofSpecFloat (f : spec_float) : option double :=
  match f with
  | S754_zero s => Some (Finite s 0 0)
  | S754_infinity s => Some (Infinity s)
  | S754_nan => None
  | S754_finite s m e => Some (dyadic s (Z.pos m) e)
  end.

Definition rounded (num den : positive) : option double :=
  ofSpecFloat (SFdiv 53 1024 (S754_finite false num 0) (S754_finite false den 0)).

Lemma toNumber_rounded :
  Forall (λ q : positive * positive,
            Some (toNumber false (Z.pos q.1) (Z.pos q.2)) = rounded q.1 q.2)
    [(1, 2); (1, 3); (2, 3); (1, 10); (3, 10); (435, 100); (1, 10 ^ 7);
     (2 ^ 53 - 1, 1); (2 ^ 53, 1); (2 ^ 53 + 1, 1); (2 ^ 53 + 2, 1); (2 ^ 53 + 3, 1);
     (2 ^ 54 + 1, 1); (2 ^ 54 + 2, 1); (2 ^ 54 + 3, 1); (2 ^ 54 + 6, 1);
     (10 ^ 22, 1); (10 ^ 23, 1); (10 ^ 308, 1); (10 ^ 309, 1);
     (2 ^ 1024 - 2 ^ 970 - 1, 1); (2 ^ 1024 - 2 ^ 970, 1); (2 ^ 1024, 1);
     (1, 2 ^ 1074); (1, 2 ^ 1075); (3, 2 ^ 1075); (1, 2 ^ 1076); (1, 10 ^ 400);
     (49, 10 ^ 325); (22250738585072011, 10 ^ 324); (22250738585072014, 10 ^ 324)]%positive.
Proof. repeat (apply Forall_cons_2; [vm_compute; reflexivity|]). apply Forall_nil_2. Qed.

(** ** Strings *)

Lemma starts_with_take (p s : jsstring) :
  starts_with p s = true ↔ take (length p) s = p.
Proof.
  revert s. induction p as [|c p IH]; intros [|d s]; simpl; try done.
  rewrite andb_true_iff, N.eqb_eq, IH. split.
  - by intros [-> ->].
  - by intros [= <- Hp].
Qed.

Lemma starts_with_app (p r : jsstring) : starts_with p (p ++ r) = true.
Proof. apply starts_with_take. by rewrite take_app_length. Qed.

(** [p] occurs in [s] at index [i]. *)
Definition occurs_at (p s : jsstring) (i : nat) : Prop :=
  i ≤ length s ∧ substr s i (length p) = p.

Lemma occurs_at_starts_with (p s : jsstring) (i : nat) :
  occurs_at p s i ↔ i ≤ length s ∧ starts_with p (drop i s) = true.
Proof. unfold occurs_at, substr. by rewrite starts_with_take. Qed.

Lemma occurs_at_bound (p s : jsstring) (i : nat) :
  occurs_at p s i → i + length p ≤ length s.
Proof.
  intros [Hi Hp]. apply (f_equal length) in Hp. unfold substr in Hp.
  rewrite length_take, length_drop in Hp. lia.
Qed.

Lemma indexOf_aux_Some (p s : jsstring) (i j : nat) :
  indexOf_aux p s i = Some j →
  i ≤ j ∧ j - i ≤ length s ∧ starts_with p (drop (j - i) s) = true
  ∧ ∀ k, k < j - i → starts_with p (drop k s) = false.
Proof.
  revert i. induction s as [|c s IH]; intros i; simpl.
  - destruct (starts_with p []) eqn:Hp; [|done]. intros [= <-].
    rewrite Nat.sub_diag. repeat split; try done; lia.
  - destruct (starts_with p (c :: s)) eqn:Hp.
    + intros [= <-]. rewrite Nat.sub_diag. repeat split; try done; lia.
    + intros H. apply IH in H as (Hle & Hlen & Hocc & Hmin).
      replace (j - i) with (S (j - S i)) by lia. repeat split; try lia; [done|].
      intros [|k] Hk; [done|]. apply Hmin. lia.
Qed.

Lemma indexOf_aux_None (p s : jsstring) (i k : nat) :
  indexOf_aux p s i = None → starts_with p (drop k s) = false.
Proof.
  revert i k. induction s as [|c s IH]; intros i k; simpl.
  - destruct (starts_with p []) eqn:Hp; [done|]. by rewrite drop_nil.
  - destruct (starts_with p (c :: s)) eqn:Hp; [done|].
    intros H. destruct k as [|k]; [done|]. by apply (IH (S i)).
Qed.

Lemma indexOf_Some (s p : jsstring) (from i : nat) :
  from ≤ length s →
  indexOf s p from = Some i →
  from ≤ i ∧ occurs_at p s i ∧ ∀ j, from ≤ j < i → ¬ occurs_at p s j.
Proof.
  unfold indexOf. intros Hfrom H. rewrite Nat.min_l in H by done.
  apply indexOf_aux_Some in H as (Hle & Hlen & Hocc & Hmin).
  rewrite length_drop in Hlen. rewrite drop_drop in Hocc.
  replace (from + (i - from)) with i in Hocc by lia.
  split; [done|]. split.
  - apply occurs_at_starts_with. split; [lia|done].
  - intros j Hj [_ Hoc]%occurs_at_starts_with.
    specialize (Hmin (j - from)). rewrite drop_drop in Hmin.
    replace (from + (j - from)) with j in Hmin by lia.
    rewrite Hmin in Hoc; [done|lia].
Qed.

Lemma indexOf_None (s p : jsstring) (from j : nat) :
  indexOf s p from = None → from ≤ j → ¬ occurs_at p s j.
Proof.
  unfold indexOf. intros H Hj [_ Hoc]%occurs_at_starts_with.
  apply (indexOf_aux_None _ _ _ (j - from)) in H. rewrite drop_drop in H.
  replace (from + (j - from)) with j in H by lia. by rewrite H in Hoc.
Qed.

(** ** A relational program logic for the helpers

    Two states agree when they differ at most in [line] and [char], the
    two variables that exist for location tracking only. *)
Definition builder (st : pstate) :=
  (state st, cur st, stateStack st, objStack st, curKey st, heap st).

Definition agree (st1 st2 : pstate) : Prop :=
  pos st1 = pos st2 ∧ builder st1 = builder st2.

Lemma agree_refl st : agree st st.
Proof. done. Qed.

Lemma agree_sym st1 st2 : agree st1 st2 → agree st2 st1.
Proof. by intros [? ?]. Qed.

Lemma agree_trans st1 st2 st3 : agree st1 st2 → agree st2 st3 → agree st1 st3.
Proof. intros [? ?] [? ?]. split; congruence. Qed.

(** [rel st1 st2 m1 m2 Q E]: run from [st1] and [st2], [m1] and [m2] either
    both return, the same value in states that agree, the first of which
    satisfies [Q], or both throw the same error, which satisfies [E]. *)
Definition rel {A} (st1 st2 : pstate) (m1 m2 : M A)
    (Q : A → pstate → Prop) (E : error → Prop) : Prop :=
  match m1 st1, m2 st2 with
  | Ok (a1, st1'), Ok (a2, st2') => a1 = a2 ∧ agree st1' st2' ∧ Q a1 st1'
  | Throw e1, Throw e2 => e1 = e2 ∧ E e1
  | _, _ => False
  end.

Lemma rel_bind {A B} st1 st2 (m1 m2 : M A) (f1 f2 : A → M B) Q R E :
  rel st1 st2 m1 m2 Q E →
  (∀ a st1' st2', agree st1' st2' → Q a st1' → rel st1' st2' (f1 a) (f2 a) R E) →
  rel st1 st2 (m1 ≫= f1) (m2 ≫= f2) R E.
Proof.
  unfold rel, mbind, M_bind.
  destruct (m1 st1) as [[a1 s1]|e1], (m2 st2) as [[a2 s2]|e2]; try done.
  intros (-> & Hag & HQ) Hf. by apply Hf.
Qed.

Lemma rel_mono {A} st1 st2 (m1 m2 : M A) (Q Q' : A → pstate → Prop) (E E' : error → Prop) :
  rel st1 st2 m1 m2 Q E →
  (∀ a st', Q a st' → Q' a st') → (∀ e, E e → E' e) →
  rel st1 st2 m1 m2 Q' E'.
Proof.
  unfold rel.
  destruct (m1 st1) as [[a1 s1]|e1], (m2 st2) as [[a2 s2]|e2]; try done.
  - intros (-> & Hag & HQ) HQ' _. auto.
  - intros (-> & HE) _ HE'. auto.
Qed.

Lemma rel_ret {A} st1 st2 (a : A) (Q : A → pstate → Prop) E :
  agree st1 st2 → Q a st1 → rel st1 st2 (mret a) (mret a) Q E.
Proof. by unfold rel, mret, M_ret. Qed.

Lemma rel_gets {A} st1 st2 (f : pstate → A) (Q : A → pstate → Prop) E :
  agree st1 st2 → f st1 = f st2 → Q (f st1) st1 → rel st1 st2 (gets f) (gets f) Q E.
Proof. by unfold rel, gets. Qed.

Lemma rel_modify st1 st2 (f g : pstate → pstate) (Q : unit → pstate → Prop) E :
  agree (f st1) (g st2) → Q tt (f st1) → rel st1 st2 (modify f) (modify g) Q E.
Proof. by unfold rel, modify. Qed.

Lemma rel_lift {A} st1 st2 (r : result A) (Q : A → pstate → Prop) (E : error → Prop) :
  agree st1 st2 →
  (∀ a, r = Ok a → Q a st1) → (∀ e, r = Throw e → E e) →
  rel st1 st2 (lift r) (lift r) Q E.
Proof. unfold rel, lift. destruct r; auto. Qed.

Lemma rel_when st1 st2 (c : bool) (m1 m2 : M unit) (Q : unit → pstate → Prop) E :
  agree st1 st2 →
  (c = true → rel st1 st2 m1 m2 Q E) → (c = false → Q tt st1) →
  rel st1 st2 (when c m1) (when c m2) Q E.
Proof. intros Hag Ht Hf. destruct c; simpl; [auto|]. apply rel_ret; auto. Qed.

(** With one program and one state, [rel] is a Hoare triple. *)
Lemma rel_unary {A} st (m : M A) Q E :
  rel st st m m Q E ↔
  match m st with
  | Ok (a, st') => Q a st'
  | Throw e => E e
  end.
Proof.
  unfold rel. destruct (m st) as [[a st']|e].
  - split; [by intros (_ & _ & ?)|by intros].
  - split; [by intros [_ ?]|by intros].
Qed.


(** ** The scanner *)
Section Scanner.
Context (content : jsstring).
Abbreviation len := (length content).

Lemma advancePosBy_loop_spec n st :
  pos (advancePosBy_loop content n st) = pos st + n
  ∧ builder (advancePosBy_loop content n st) = builder st.
Proof.
  revert st. induction n as [|n IH]; intros st; simpl; [by rewrite Nat.add_0_r|].
  destruct (IH (advancePosBy_step content st)) as [-> ->].
  unfold advancePosBy_step. case_decide; simpl; split; done || lia.
Qed.

(** In both modes [advancePosBy(n)] adds [n] to [pos] and touches
    nothing but the location. *)
Lemma advancePosBy_run k n st :
  ∃ st', advancePosBy content k n st = Ok (tt, st')
         ∧ pos st' = pos st + n ∧ builder st' = builder st.
Proof.
  unfold advancePosBy, modify. destruct k; eexists; (split; [done|]).
  - apply advancePosBy_loop_spec.
  - done.
Qed.

(** In both modes [advancePosTo(to)] moves [pos] to [to], provided [to]
    is not behind [pos]. *)
Lemma advancePosTo_run k to st :
  pos st ≤ to →
  ∃ st', advancePosTo content k to st = Ok (tt, st')
         ∧ pos st' = to ∧ builder st' = builder st.
Proof.
  intros Hle. unfold advancePosTo. destruct k as [k|].
  - unfold mbind, M_bind, gets.
    destruct (advancePosBy_run (Some k) (to - pos st) st) as (st' & -> & Hp & Hb).
    exists st'. repeat split; [lia|done].
  - unfold modify. eexists. by repeat split.
Qed.

Lemma rel_of_runs {A} st1 st2 (m1 m2 : M A) (a : A) st1' st2' (Q : A → pstate → Prop) E :
  m1 st1 = Ok (a, st1') → m2 st2 = Ok (a, st2') →
  agree st1' st2' → Q a st1' → rel st1 st2 m1 m2 Q E.
Proof. unfold rel. by intros -> ->. Qed.

Lemma advancePosBy_rel k1 k2 n st1 st2 E :
  agree st1 st2 →
  rel st1 st2 (advancePosBy content k1 n) (advancePosBy content k2 n)
      (fun _ st' => pos st' = pos st1 + n ∧ builder st' = builder st1) E.
Proof.
  intros [Hp Hb].
  destruct (advancePosBy_run k1 n st1) as (st1' & H1 & Hp1 & Hb1).
  destruct (advancePosBy_run k2 n st2) as (st2' & H2 & Hp2 & Hb2).
  eapply rel_of_runs; [done..| |done]. split; congruence.
Qed.

Lemma advancePosTo_rel k1 k2 to st1 st2 E :
  agree st1 st2 → pos st1 ≤ to →
  rel st1 st2 (advancePosTo content k1 to) (advancePosTo content k2 to)
      (fun _ st' => pos st' = to ∧ builder st' = builder st1) E.
Proof.
  intros [Hp Hb] Hle.
  destruct (advancePosTo_run k1 to st1) as (st1' & H1 & Hp1 & Hb1); [done|].
  destruct (advancePosTo_run k2 to st2) as (st2' & H2 & Hp2 & Hb2); [lia|].
  eapply rel_of_runs; [done..| |done]. split; congruence.
Qed.

(** The characters of [content] from index [i] up to [j] are blanks. *)
Definition blanks_between (i j : nat) : Prop :=
  ∀ n, i ≤ n < j → ∃ c, content !! n = Some c ∧ isBlank c = true.

(** [pos] is at the end of the input or at a character that is no blank. *)
Definition at_non_blank (p : nat) : Prop :=
  p < len → ∃ c, content !! p = Some c ∧ isBlank c = false.

Lemma skipWhitespace_loop_rel k1 k2 fuel st1 st2 E :
  agree st1 st2 → pos st1 ≤ len →
  rel st1 st2 (skipWhitespace_loop content k1 fuel) (skipWhitespace_loop content k2 fuel)
      (fun _ st' => pos st1 ≤ pos st' ≤ len ∧ builder st' = builder st1
                    ∧ blanks_between (pos st1) (pos st')
                    ∧ (len - pos st1 ≤ fuel → at_non_blank (pos st'))) E.
Proof.
  revert st1 st2. induction fuel as [|fuel IH]; intros st1 st2 Hag Hle; simpl.
  - apply rel_ret; [done|]. repeat split; try done.
    + intros n ?. lia.
    + intros ? ?. lia.
  - eapply rel_bind; [apply rel_gets; [done|apply Hag|]|].
    { instantiate (1 := fun p st' => p = pos st1 ∧ st' = st1). done. }
    intros p st1' st2' Hag' [-> ->]; simpl.
    case_bool_decide as Hlt.
    2:{ apply rel_ret; [done|]. repeat split; try done.
        - intros n ?. lia.
        - intros ? ?. lia. }
    unfold charCodeAt. destruct (content !! pos st1) as [c|] eqn:Hc.
    2:{ apply lookup_ge_None in Hc. lia. }
    destruct (isBlank c) eqn:Hblank.
    2:{ apply rel_ret; [done|]. repeat split; try done.
        - intros n ?. lia.
        - intros _ _. eauto. }
    eapply rel_bind; [by apply advancePosBy_rel|].
    intros [] st1'' st2'' Hag'' [Hp Hb]; simpl.
    eapply rel_mono; [apply IH; [done|lia]| |done].
    intros _ st' (Hpos & Hb' & Hbl & Hstop); simpl in *.
    repeat split; try lia; try congruence.
    + intros n Hn. destruct (decide (n = pos st1)) as [->|]; [eauto|].
      apply Hbl. lia.
    + intros Hfuel. apply Hstop. lia.
Qed.

Lemma skipWhitespace_rel k1 k2 st1 st2 E :
  agree st1 st2 → pos st1 ≤ len →
  rel st1 st2 (skipWhitespace content k1) (skipWhitespace content k2)
      (fun _ st' => pos st1 ≤ pos st' ≤ len ∧ builder st' = builder st1
                    ∧ blanks_between (pos st1) (pos st')
                    ∧ at_non_blank (pos st')) E.
Proof.
  intros Hag Hle. unfold skipWhitespace.
  eapply rel_mono; [by apply skipWhitespace_loop_rel| |done].
  intros _ st' (? & ? & ? & Hstop). split_and!; try (done || lia). apply Hstop. lia.
Qed.

Lemma advanceIfStartsWith_rel k1 k2 s st1 st2 E :
  agree st1 st2 → pos st1 ≤ len →
  rel st1 st2 (advanceIfStartsWith content k1 s) (advanceIfStartsWith content k2 s)
      (fun b st' => builder st' = builder st1 ∧ pos st' ≤ len
                    ∧ pos st' = (if b then pos st1 + length s else pos st1)
                    ∧ (b = true ↔ occurs_at s content (pos st1))) E.
Proof.
  intros Hag Hle. unfold advanceIfStartsWith.
  eapply rel_bind; [apply rel_gets; [done|apply Hag|]|].
  { instantiate (1 := fun p st' => p = pos st1 ∧ st' = st1). done. }
  intros p st1' st2' Hag' [-> ->]; simpl.
  case_bool_decide as Hs.
  - assert (occurs_at s content (pos st1)) as Hocc by done.
    eapply rel_bind; [by apply advancePosBy_rel|].
    intros [] st1'' st2'' Hag'' [Hp Hb]; simpl.
    apply rel_ret; [done|]. apply occurs_at_bound in Hocc as Hbound.
    repeat split; try done; lia.
  - apply rel_ret; [done|]. repeat split; try done. by intros [_ ?].
Qed.

(** Where [indexOf] finds the delimiter, or the end of the input. *)
Definition delimiterEnd (s : jsstring) (p : nat) : nat :=
  match indexOf content s p with
  | Some i => i + length s
  | None => len
  end.

Lemma delimiterEnd_bounds s p : p ≤ len → p ≤ delimiterEnd s p ≤ len.
Proof.
  intros Hp. unfold delimiterEnd. destruct (indexOf content s p) as [i|] eqn:Hi; [|lia].
  apply indexOf_Some in Hi as (? & Hocc%occurs_at_bound & _); [lia|done].
Qed.

Lemma advanceUntil_rel k1 k2 s st1 st2 E :
  agree st1 st2 → pos st1 ≤ len →
  rel st1 st2 (advanceUntil content k1 s) (advanceUntil content k2 s)
      (fun _ st' => builder st' = builder st1
                    ∧ pos st' = delimiterEnd s (pos st1)) E.
Proof.
  intros Hag Hle. unfold advanceUntil.
  eapply rel_bind; [apply rel_gets; [done|apply Hag|]|].
  { instantiate (1 := fun p st' => p = pos st1 ∧ st' = st1). done. }
  intros p st1' st2' Hag' [-> ->]; simpl.
  pose proof (delimiterEnd_bounds s (pos st1) Hle) as Hb. unfold delimiterEnd in *.
  destruct (indexOf content s (pos st1)) as [i|].
  - eapply rel_mono; [apply advancePosTo_rel; [done|lia]| |done]. by intros _ st' [? ?].
  - eapply rel_mono; [apply advancePosTo_rel; [done|lia]| |done]. by intros _ st' [? ?].
Qed.

(** The text that [captureUntil] returns. *)
Definition capturedText (s : jsstring) (p : nat) : jsstring :=
  match indexOf content s p with
  | Some i => substring content p i
  | None => substr_from content p
  end.

Lemma captureUntil_rel k1 k2 s st1 st2 E :
  agree st1 st2 → pos st1 ≤ len →
  rel st1 st2 (captureUntil content k1 s) (captureUntil content k2 s)
      (fun r st' => builder st' = builder st1
                    ∧ pos st' = delimiterEnd s (pos st1)
                    ∧ r = capturedText s (pos st1)) E.
Proof.
  intros Hag Hle. unfold captureUntil.
  eapply rel_bind; [apply rel_gets; [done|apply Hag|]|].
  { instantiate (1 := fun p st' => p = pos st1 ∧ st' = st1). done. }
  intros p st1' st2' Hag' [-> ->]; simpl.
  pose proof (delimiterEnd_bounds s (pos st1) Hle) as Hb.
  unfold delimiterEnd, capturedText in *.
  destruct (indexOf content s (pos st1)) as [i|].
  - eapply rel_bind; [apply advancePosTo_rel; [done|lia]|].
    intros [] st1'' st2'' Hag'' [Hp Hbd]; simpl. by apply rel_ret.
  - eapply rel_bind; [apply advancePosTo_rel; [done|lia]|].
    intros [] st1'' st2'' Hag'' [Hp Hbd]; simpl. by apply rel_ret.
Qed.
End Scanner.

(** ** The tree builder: consistency of the state and the stacks *)

(** [v] is a container of the kind that state [s] works on. *)
Definition frame_ok (h : list object) (s : State) (v : value) : Prop :=
  match s with
  | ROOT_STATE => True
  | DICT_STATE => ∃ l proto props, v = VRef l ∧ h !! l = Some (ODict proto props)
  | ARR_STATE => ∃ l elems, v = VRef l ∧ h !! l = Some (OArray elems)
  | UNDEFINED_STATE => False
  end.

(** [ROOT_STATE] is the state exactly when no container is open, and it is
    the bottom entry of the stack otherwise. *)
Definition nesting_ok (s : State) (ss : list State) : Prop :=
  match s with
  | ROOT_STATE => ss = []
  | _ => ∃ ss', ss = ss' ++ [ROOT_STATE] ∧ Forall (fun x => x ≠ ROOT_STATE) ss'
  end.

(** The value set in [ROOT_STATE]: [cur] itself when no container is open;
    otherwise the bottom entry of [objStack], which [pushState] saved when
    the first container was opened. *)
Definition rootValue (st : pstate) : value :=
  match state st with
  | ROOT_STATE => cur st
  | _ => List.last (objStack st) (cur st)
  end.

(** While containers are open, [cur] and the entries of [objStack] are the
    open containers from the innermost to the outermost, and the
    outermost one is there twice: it was both [cur] and the new container
    when it was pushed. *)
Definition chain_ok (st : pstate) : Prop :=
  state st ≠ ROOT_STATE → ∃ rest r, cur st :: objStack st = rest ++ [r; r].

Record consistent (st : pstate) : Prop := mkConsistent {
  cons_cur : frame_ok (heap st) (state st) (cur st);
  cons_stack : Forall2 (frame_ok (heap st)) (stateStack st) (objStack st);
  cons_nesting : nesting_ok (state st) (stateStack st);
  cons_chain : chain_ok st
}.

(** Two heaps with the same kind of object at every location of the first. *)
Definition same_kinds (h h' : list object) : Prop :=
  ∀ l, match h !! l with
       | Some (ODict _ _) => ∃ proto props, h' !! l = Some (ODict proto props)
       | Some (OArray _) => ∃ elems, h' !! l = Some (OArray elems)
       | None => True
       end.

Lemma same_kinds_refl h : same_kinds h h.
Proof. intros l. destruct (h !! l) as [[]|]; eauto. Qed.

Lemma same_kinds_trans h1 h2 h3 : same_kinds h1 h2 → same_kinds h2 h3 → same_kinds h1 h3.
Proof.
  intros H12 H23 l. specialize (H12 l). specialize (H23 l).
  destruct (h1 !! l) as [[]|]; [| |done].
  - destruct H12 as (? & ? & H12). by rewrite H12 in H23.
  - destruct H12 as [? H12]. by rewrite H12 in H23.
Qed.

Lemma same_kinds_alloc h o : same_kinds h (h ++ [o]).
Proof.
  intros l. destruct (h !! l) as [[]|] eqn:Hl; [| |done];
    rewrite (lookup_app_l_Some _ _ _ _ Hl); eauto.
Qed.

Lemma same_kinds_dict h l proto props proto' props' :
  h !! l = Some (ODict proto props) → same_kinds h (<[l := ODict proto' props']> h).
Proof.
  intros Hl l'. destruct (decide (l = l')) as [<-|Hne].
  - rewrite Hl, list_lookup_insert_eq; [eauto|]. by eapply lookup_lt_Some.
  - rewrite list_lookup_insert_ne by done. destruct (h !! l') as [[]|]; eauto.
Qed.

Lemma same_kinds_array h l elems elems' :
  h !! l = Some (OArray elems) → same_kinds h (<[l := OArray elems']> h).
Proof.
  intros Hl l'. destruct (decide (l = l')) as [<-|Hne].
  - rewrite Hl, list_lookup_insert_eq; [eauto|]. by eapply lookup_lt_Some.
  - rewrite list_lookup_insert_ne by done. destruct (h !! l') as [[]|]; eauto.
Qed.

Lemma frame_ok_same_kinds h h' s v : same_kinds h h' → frame_ok h s v → frame_ok h' s v.
Proof.
  intros Hk. destruct s; simpl; try done.
  - intros (l & proto & props & -> & Hl). specialize (Hk l). rewrite Hl in Hk.
    destruct Hk as (proto' & props' & ?). eauto.
  - intros (l & elems & -> & Hl). specialize (Hk l). rewrite Hl in Hk.
    destruct Hk as [elems' ?]. eauto.
Qed.

Lemma consistent_with_heap st h :
  same_kinds (heap st) h → consistent st → consistent (with_heap h st).
Proof.
  intros Hk [Hc Hs Hn Hch]. split; simpl; try done.
  - by eapply frame_ok_same_kinds.
  - eapply Forall2_impl; [done|]. intros ? ?. by apply frame_ok_same_kinds.
Qed.

Lemma consistent_with_curKey st k : consistent st → consistent (with_curKey k st).
Proof. by intros [? ? ? ?]. Qed.

Lemma consistent_with_location st p l c : consistent st → consistent (with_location p l c st).
Proof. by intros [? ? ? ?]. Qed.

Lemma consistent_builder st st' : builder st' = builder st → consistent st → consistent st'.
Proof.
  destruct st, st'. unfold builder; simpl. intros [= -> -> -> -> -> ->].
  by intros [? ? ? ?].
Qed.

Lemma consistent_root_cur st v :
  state st = ROOT_STATE → consistent st → consistent (with_cur v st).
Proof.
  intros Hs [Hc Hst Hn Hch]. split; simpl; try done.
  - by rewrite Hs.
  - intros ?. simpl in *. congruence.
Qed.

(** [pushState] keeps the state consistent when the new [cur] is a
    container of the new kind. *)
Lemma consistent_push st s v :
  s = DICT_STATE ∨ s = ARR_STATE →
  frame_ok (heap st) s v →
  (state st = ROOT_STATE → cur st = v) →
  consistent st →
  consistent (with_frame s v (state st :: stateStack st) (cur st :: objStack st) st).
Proof.
  intros Hs Hv Hroot [Hc Hst Hn Hch]. split; simpl.
  - done.
  - by constructor.
  - assert (∃ ss', state st :: stateStack st = ss' ++ [ROOT_STATE]
                   ∧ Forall (fun x => x ≠ ROOT_STATE) ss') as Hex.
    { unfold nesting_ok in Hn. destruct (state st) eqn:Hstate.
      - rewrite Hn. by exists [].
      - destruct Hn as (ss' & -> & Hall). exists (DICT_STATE :: ss'). by split; [|constructor].
      - destruct Hn as (ss' & -> & Hall). exists (ARR_STATE :: ss'). by split; [|constructor].
      - destruct Hc. }
    by destruct Hs as [-> | ->].
  - intros _. unfold chain_ok in Hch. destruct (decide (state st = ROOT_STATE)) as [Hr|Hr].
    + rewrite Hr in Hn. simpl in Hn. rewrite Hn in Hst. inversion Hst; subst.
      rewrite <- (Hroot Hr). by exists [], (cur st).
    + destruct (Hch Hr) as (rest & r & Heq). exists (v :: rest), r. simpl. by rewrite Heq.
Qed.

(** [popState] keeps the state consistent while a container is open. *)
Lemma consistent_pop st :
  state st = DICT_STATE ∨ state st = ARR_STATE →
  consistent st →
  consistent (with_frame (hd UNDEFINED_STATE (stateStack st)) (hd VUndefined (objStack st))
                         (tl (stateStack st)) (tl (objStack st)) st).
Proof.
  intros Hs [Hc Hst Hn Hch].
  assert (state st ≠ ROOT_STATE) as Hnr by (destruct Hs as [-> | ->]; done).
  assert (∃ ss', stateStack st = ss' ++ [ROOT_STATE]
                 ∧ Forall (fun x => x ≠ ROOT_STATE) ss') as (ss' & Hss & Hall).
  { unfold nesting_ok in Hn. destruct Hs as [Hs|Hs]; by rewrite Hs in Hn. }
  destruct (Hch Hnr) as (rest & r & Hrest).
  destruct (stateStack st) as [|s ss] eqn:Hstack; [by destruct ss'|].
  destruct (objStack st) as [|v os] eqn:Hobj; [inversion Hst|].
  apply Forall2_cons in Hst as [Hsv Hst]. simpl.
  split; simpl; try done.
  - unfold nesting_ok. destruct ss' as [|s' ss'']; simplify_eq/=; [done|].
    apply Forall_cons in Hall as [Hs' Hall]. destruct s'; try done; eauto.
  - intros Hnr'. simpl in *. destruct rest as [|c rest]; simplify_eq/=; [|eauto].
    apply Forall2_nil_inv_r in Hst as ->. by destruct ss' as [|? [|? ?]]; simplify_eq/=.
Qed.

(** With exactly one container open, [cur] is the value set in
    [ROOT_STATE]. *)
Lemma rootValue_one_open st :
  consistent st → length (stateStack st) ≤ 1 → rootValue st = cur st.
Proof.
  intros [_ Hst _ Hch] Hlen. unfold rootValue.
  destruct (decide (state st = ROOT_STATE)) as [->|Hnr]; [done|].
  destruct (Hch Hnr) as (rest & r & Heq).
  apply Forall2_length in Hst. rewrite Hst in Hlen.
  destruct (objStack st) as [|o [|? ?]]; simpl in Hlen; try lia.
  - by destruct rest as [|? [|? ?]].
  - destruct rest as [|? [|? ?]]; simplify_eq/=; [by destruct (state st)|].
    by destruct l.
Qed.

(** ** The handlers of the tree builder *)

(** The errors that [parse] reports for an input it rejects. *)
Definition benign (e : error) : Prop :=
  match e with
  | ParseError _ _ _ | RangeError => True
  | TypeError | Unmodelled => False
  end.

(** A handler runs alike from states that agree, and leaves [pos] alone. *)
Definition handler_agrees {A} (h : M A) : Prop :=
  ∀ st1 st2, agree st1 st2 →
    rel st1 st2 h h (fun _ st' => pos st' = pos st1) (fun _ => True).

Ltac run_handler :=
  unfold rel, pushState, popState, mbind, M_bind, gets, modify, when, fail,
    newObject, setProperty, arrayPush, mret, M_ret,
    with_frame, with_cur, with_curKey, with_heap; simpl;
  repeat (case_match; simpl in *; simplify_eq; try done).

Ltac handler_agrees :=
  intros [p1 l1 c1 s v ss os k h] [p2 l2 c2 s2 v2 ss2 os2 k2 h2] [Hp Hb];
  unfold builder in Hb; simpl in *; simplify_eq;
  run_handler.

Section Handlers.
Context (content : jsstring).

Lemma enterDict_agrees : handler_agrees (enterDict content).
Proof. unfold enterDict, dictState_enterDict, arrState_enterDict. handler_agrees. Qed.
Lemma enterArray_agrees : handler_agrees (enterArray content).
Proof. unfold enterArray, dictState_enterArray, arrState_enterArray. handler_agrees. Qed.
Lemma leaveDict_agrees : handler_agrees (leaveDict content).
Proof. unfold leaveDict. handler_agrees. Qed.
Lemma leaveArray_agrees : handler_agrees (leaveArray content).
Proof. unfold leaveArray. handler_agrees. Qed.
Lemma acceptKey_agrees val : handler_agrees (acceptKey content val).
Proof. unfold acceptKey. handler_agrees. Qed.
Lemma acceptString_agrees val : handler_agrees (acceptString content val).
Proof. unfold acceptString. handler_agrees. Qed.
Lemma acceptReal_agrees val : handler_agrees (acceptReal content val).
Proof. unfold acceptReal. handler_agrees. Qed.
Lemma acceptInteger_agrees val : handler_agrees (acceptInteger content val).
Proof. unfold acceptInteger. handler_agrees. Qed.
Lemma acceptDate_agrees val : handler_agrees (acceptDate content val).
Proof. unfold acceptDate. handler_agrees. Qed.
Lemma acceptData_agrees val : handler_agrees (acceptData content val).
Proof. unfold acceptData. handler_agrees. Qed.
Lemma acceptBool_agrees val : handler_agrees (acceptBool content val).
Proof. unfold acceptBool. handler_agrees. Qed.

(** *** The two shapes that the handlers share

    The six [accept...] functions for leaf values have the same body up
    to the value, and so have [enterDict] and [enterArray] up to the
    container: [assignValue] and [enterContainer] are those bodies. *)
Definition assignValue (val : value) : M unit :=
  s ← gets state;
  match s with
  | DICT_STATE =>
    k ← gets curKey;
    match k with
    | None => fail content (str "missing <key>")
    | Some key =>
      c ← gets cur; setProperty c key val ;; modify (with_curKey None)
    end
  | ARR_STATE => c ← gets cur; arrayPush c val
  | _ => modify (with_cur val)
  end.

Definition enterContainer (newState : State) (o : object) : M unit :=
  s ← gets state;
  match s with
  | DICT_STATE =>
    k ← gets curKey;
    match k with
    | None => fail content (str "missing <key>")
    | Some key =>
      new ← newObject o;
      c ← gets cur;
      setProperty c key new ;;
      modify (with_curKey None) ;;
      pushState newState new
    end
  | ARR_STATE =>
    new ← newObject o;
    c ← gets cur;
    arrayPush c new ;;
    pushState newState new
  | _ =>
    new ← newObject o;
    modify (with_cur new) ;;
    pushState newState new
  end.

Lemma acceptString_shape val : acceptString content val = assignValue (VString val).
Proof. reflexivity. Qed.
Lemma acceptData_shape val : acceptData content val = assignValue (VString val).
Proof. reflexivity. Qed.
Lemma acceptDate_shape val : acceptDate content val = assignValue (VDate val).
Proof. reflexivity. Qed.
Lemma acceptBool_shape val : acceptBool content val = assignValue (VBool val).
Proof. reflexivity. Qed.
Lemma acceptReal_shape val :
  acceptReal content val
  = (when (isNaN val) (fail content (str "cannot parse float")) ;;
     assignValue (VNumber val)).
Proof. reflexivity. Qed.
Lemma acceptInteger_shape val :
  acceptInteger content val
  = (when (isNaN val) (fail content (str "cannot parse integer")) ;;
     assignValue (VNumber val)).
Proof. reflexivity. Qed.
Lemma enterDict_shape : enterDict content = enterContainer DICT_STATE (ODict None ∅).
Proof. reflexivity. Qed.
Lemma enterArray_shape : enterArray content = enterContainer ARR_STATE (OArray []).
Proof. reflexivity. Qed.

(** The state that [pushState] and [popState] produce. *)
Definition pushed (newState : State) (newCur : value) (st : pstate) : pstate :=
  with_frame newState newCur (state st :: stateStack st) (cur st :: objStack st) st.
Definition popped (st : pstate) : pstate :=
  with_frame (hd UNDEFINED_STATE (stateStack st)) (hd VUndefined (objStack st))
             (tl (stateStack st)) (tl (objStack st)) st.

(** The error thrown by [fail(msg)] in state [st]. *)
Definition failure (msg : string) (st : pstate) : error :=
  ParseError (pos st) (str msg) (substr content (pos st) 50).

(** *** Assignments to [__proto__] *)

(** An object as it is created: its prototype is the initial one. *)
Definition created (o : object) : Prop :=
  match o with
  | ODict (Some _) _ => False
  | _ => True
  end.

(** The value of a leaf: a string, a number, a boolean or a date. *)
Definition leaf (v : value) : Prop :=
  match v with
  | VString _ | VNumber _ | VBool _ | VDate _ => True
  | _ => False
  end.

(** The setter of [__proto__] throws neither for the value of a leaf (it
    takes a date and ignores the others) nor for an object that has
    just been created. *)
Lemma protoRefused_leaf h l key val : leaf val → protoRefused h l key val = None.
Proof. unfold protoRefused. case_decide; [|done]. by destruct val. Qed.

Lemma protoRefused_error h l key val e :
  protoRefused h l key val = Some e → e = TypeError ∨ e = Unmodelled.
Proof.
  unfold protoRefused. repeat case_match; try done; intros [= <-]; auto.
Qed.

Lemma protoRefused_created h o l key :
  l < length h → created o → protoRefused (h ++ [o]) l key (VRef (length h)) = None.
Proof.
  intros Hl Ho. unfold protoRefused. case_decide; [|done].
  rewrite length_app, Nat.add_1_r. simpl.
  rewrite bool_decide_eq_false_2 by lia. simpl.
  rewrite lookup_app_r, Nat.sub_diag by done. simpl.
  by destruct o as [[[]|]|].
Qed.

(** *** What the shared bodies do, state by state *)
Lemma assignValue_dict_missing val st :
  state st = DICT_STATE → curKey st = None →
  assignValue val st = Throw (failure "missing <key>" st).
Proof. intros Hs Hk. unfold assignValue, mbind, M_bind, gets. by rewrite Hs, Hk. Qed.

Lemma assignValue_dict val st key l proto props :
  state st = DICT_STATE → curKey st = Some key →
  cur st = VRef l → heap st !! l = Some (ODict proto props) →
  protoRefused (heap st) l key val = None →
  assignValue val st
  = Ok (tt, with_curKey None
              (with_heap (<[l := ODict (protoAssign key val proto)
                                       (propAssign key val props)]> (heap st)) st)).
Proof.
  intros Hs Hk Hc Hl Hr.
  unfold assignValue, mbind, M_bind, gets, setProperty. by rewrite Hs, Hk, Hc, Hl, Hr.
Qed.

Lemma assignValue_dict_refused val st key l proto props e :
  state st = DICT_STATE → curKey st = Some key →
  cur st = VRef l → heap st !! l = Some (ODict proto props) →
  protoRefused (heap st) l key val = Some e →
  assignValue val st = Throw e.
Proof.
  intros Hs Hk Hc Hl Hr.
  unfold assignValue, mbind, M_bind, gets, setProperty. by rewrite Hs, Hk, Hc, Hl, Hr.
Qed.

Lemma assignValue_array val st l elems :
  state st = ARR_STATE → cur st = VRef l → heap st !! l = Some (OArray elems) →
  assignValue val st = Ok (tt, with_heap (<[l := OArray (elems ++ [val])]> (heap st)) st).
Proof.
  intros Hs Hc Hl. unfold assignValue, mbind, M_bind, gets, arrayPush.
  by rewrite Hs, Hc, Hl.
Qed.

Lemma assignValue_root val st :
  state st = ROOT_STATE → assignValue val st = Ok (tt, with_cur val st).
Proof. intros Hs. unfold assignValue, mbind, M_bind, gets. by rewrite Hs. Qed.

Lemma enterContainer_dict_missing s o st :
  state st = DICT_STATE → curKey st = None →
  enterContainer s o st = Throw (failure "missing <key>" st).
Proof. intros Hs Hk. unfold enterContainer, mbind, M_bind, gets. by rewrite Hs, Hk. Qed.

Lemma enterContainer_dict s o st key l proto props :
  state st = DICT_STATE → curKey st = Some key →
  cur st = VRef l → heap st !! l = Some (ODict proto props) →
  created o →
  enterContainer s o st
  = Ok (tt, pushed s (VRef (length (heap st)))
              (with_curKey None
                 (with_heap (<[l := ODict (protoAssign key (VRef (length (heap st))) proto)
                                          (propAssign key (VRef (length (heap st))) props)]>
                               (heap st ++ [o])) st))).
Proof.
  intros Hs Hk Hc Hl Ho.
  unfold enterContainer, mbind, M_bind, gets, newObject, setProperty. rewrite Hs, Hk.
  simpl. rewrite Hc. rewrite (lookup_app_l_Some _ _ _ _ Hl).
  by rewrite protoRefused_created by (done || by eapply lookup_lt_Some).
Qed.

Lemma enterContainer_array s o st l elems :
  state st = ARR_STATE → cur st = VRef l → heap st !! l = Some (OArray elems) →
  enterContainer s o st
  = Ok (tt, pushed s (VRef (length (heap st)))
              (with_heap (<[l := OArray (elems ++ [VRef (length (heap st))])]>
                            (heap st ++ [o])) st)).
Proof.
  intros Hs Hc Hl.
  unfold enterContainer, mbind, M_bind, gets, newObject, arrayPush. rewrite Hs.
  simpl. rewrite Hc. by rewrite (lookup_app_l_Some _ _ _ _ Hl).
Qed.

Lemma enterContainer_root s o st :
  state st = ROOT_STATE →
  enterContainer s o st
  = Ok (tt, pushed s (VRef (length (heap st)))
              (with_cur (VRef (length (heap st))) (with_heap (heap st ++ [o]) st))).
Proof. intros Hs. unfold enterContainer, mbind, M_bind, gets. by rewrite Hs. Qed.

Lemma leaveDict_run st :
  leaveDict content st
  = if decide (state st = DICT_STATE) then Ok (tt, popped st)
    else Throw (failure "unexpected </dict>" st).
Proof. unfold leaveDict, mbind, M_bind, gets. by destruct (state st). Qed.

Lemma leaveArray_run st :
  leaveArray content st
  = if decide (state st = ARR_STATE) then Ok (tt, popped st)
    else Throw (failure "unexpected </array>" st).
Proof. unfold leaveArray, mbind, M_bind, gets. by destruct (state st). Qed.

Lemma acceptKey_run val st :
  acceptKey content val st
  = if decide (state st = DICT_STATE) then
      match curKey st with
      | None => Ok (tt, with_curKey (Some val) st)
      | Some _ => Throw (failure "too many <key>" st)
      end
    else Throw (failure "unexpected <key>" st).
Proof.
  unfold acceptKey, mbind, M_bind, gets. destruct (state st); try done.
  simpl. by destruct (curKey st).
Qed.

(** *** The handlers keep the state consistent *)

(** From a consistent state a handler returns a consistent state or
    rejects the input. *)
Definition handler_consistent {A} (h : M A) : Prop :=
  ∀ st, consistent st →
    match h st with
    | Ok (_, st') => consistent st'
    | Throw e => benign e
    end.

Lemma assignValue_consistent val : leaf val → handler_consistent (assignValue val).
Proof.
  intros Hval st Hc. pose proof (cons_cur _ Hc) as Hcur.
  destruct (state st) eqn:Hs; simpl in Hcur; [| | |done].
  - rewrite assignValue_root by done. by apply consistent_root_cur.
  - destruct Hcur as (l & proto & props & Hcur & Hl). destruct (curKey st) as [key|] eqn:Hk.
    + erewrite assignValue_dict by (done || by apply protoRefused_leaf).
      apply consistent_with_curKey, consistent_with_heap; [|done].
      by eapply same_kinds_dict.
    + by rewrite assignValue_dict_missing.
  - destruct Hcur as (l & elems & Hcur & Hl).
    erewrite assignValue_array by done.
    apply consistent_with_heap; [|done]. by eapply same_kinds_array.
Qed.

(** [o] is a container of the kind that state [s] works on. *)
Definition container_of (s : State) (o : object) : Prop :=
  match s, o with
  | DICT_STATE, ODict None _ | ARR_STATE, OArray _ => True
  | _, _ => False
  end.

Lemma container_of_created s o : container_of s o → created o.
Proof. by destruct s, o as [[]|]. Qed.

Lemma frame_ok_new h s o : container_of s o → frame_ok (h ++ [o]) s (VRef (length h)).
Proof.
  assert ((h ++ [o]) !! length h = Some o) as Hl by apply list_lookup_middle, eq_refl.
  destruct s, o as [[]|]; simpl; try done; eauto.
Qed.

Lemma enterContainer_consistent s o :
  container_of s o → handler_consistent (enterContainer s o).
Proof.
  intros Hso st Hc. pose proof (cons_cur _ Hc) as Hcur.
  assert (s = DICT_STATE ∨ s = ARR_STATE) as Hs' by (destruct s, o as [[]|]; auto; done).
  pose proof (container_of_created _ _ Hso) as Ho.
  destruct (state st) eqn:Hs; simpl in Hcur; [| | |done].
  - rewrite enterContainer_root by done.
    apply consistent_push; simpl; try done.
    + by apply frame_ok_new.
    + apply consistent_root_cur; [done|].
      apply consistent_with_heap; [apply same_kinds_alloc|done].
  - destruct Hcur as (l & proto & props & Hcur & Hl). destruct (curKey st) as [key|] eqn:Hk.
    2:{ by rewrite enterContainer_dict_missing. }
    erewrite enterContainer_dict by done.
    pose proof (lookup_app_l_Some _ [o] _ _ Hl) as Hl'.
    apply consistent_push; simpl; try done.
    + eapply frame_ok_same_kinds; [by eapply same_kinds_dict|]. by apply frame_ok_new.
    + by rewrite Hs.
    + apply consistent_with_curKey, consistent_with_heap; [|done].
      eapply same_kinds_trans; [apply same_kinds_alloc|]. by eapply same_kinds_dict.
  - destruct Hcur as (l & elems & Hcur & Hl).
    erewrite enterContainer_array by done.
    pose proof (lookup_app_l_Some _ [o] _ _ Hl) as Hl'.
    apply consistent_push; simpl; try done.
    + eapply frame_ok_same_kinds; [by eapply same_kinds_array|]. by apply frame_ok_new.
    + by rewrite Hs.
    + apply consistent_with_heap; [|done].
      eapply same_kinds_trans; [apply same_kinds_alloc|]. by eapply same_kinds_array.
Qed.

Lemma leaveDict_consistent : handler_consistent (leaveDict content).
Proof.
  intros st Hc. rewrite leaveDict_run. case_decide; [|done].
  apply consistent_pop; auto.
Qed.

Lemma leaveArray_consistent : handler_consistent (leaveArray content).
Proof.
  intros st Hc. rewrite leaveArray_run. case_decide; [|done].
  apply consistent_pop; auto.
Qed.

Lemma acceptKey_consistent val : handler_consistent (acceptKey content val).
Proof.
  intros st Hc. rewrite acceptKey_run. case_decide; [|done].
  destruct (curKey st); [done|]. by apply consistent_with_curKey.
Qed.

Lemma when_fail_consistent (c : bool) msg (h : M unit) :
  handler_consistent h →
  handler_consistent (when c (fail content msg) ;; h).
Proof.
  intros Hh st Hc. unfold mbind, M_bind, when. destruct c; simpl; [done|].
  by apply Hh.
Qed.

(** A handler, in full: it runs alike from states that agree, leaves
    [pos] alone, keeps the state consistent, and from a consistent
    state it throws nothing but a rejection of the input. *)
Definition handler_spec {A} (h : M A) : Prop :=
  ∀ st1 st2, agree st1 st2 →
    rel st1 st2 h h
        (fun _ st' => pos st' = pos st1 ∧ (consistent st1 → consistent st'))
        (fun e => consistent st1 → benign e).

Lemma handler_spec_intro {A} (h : M A) :
  handler_agrees h → handler_consistent h → handler_spec h.
Proof.
  intros Hag Hcons st1 st2 Hst. specialize (Hag st1 st2 Hst).
  specialize (Hcons st1). unfold rel in *.
  destruct (h st1) as [[a st1']|e1], (h st2) as [[a2 st2']|e2]; try done.
  - destruct Hag as (-> & ? & ?). split; [done|split; [done|split; done]].
  - destruct Hag as (-> & _). by split.
Qed.

Lemma enterDict_spec : handler_spec (enterDict content).
Proof.
  apply handler_spec_intro; [apply enterDict_agrees|].
  rewrite enterDict_shape. by apply enterContainer_consistent.
Qed.
Lemma enterArray_spec : handler_spec (enterArray content).
Proof.
  apply handler_spec_intro; [apply enterArray_agrees|].
  rewrite enterArray_shape. by apply enterContainer_consistent.
Qed.
Lemma leaveDict_spec : handler_spec (leaveDict content).
Proof. apply handler_spec_intro; [apply leaveDict_agrees|apply leaveDict_consistent]. Qed.
Lemma leaveArray_spec : handler_spec (leaveArray content).
Proof. apply handler_spec_intro; [apply leaveArray_agrees|apply leaveArray_consistent]. Qed.
Lemma acceptKey_spec val : handler_spec (acceptKey content val).
Proof. apply handler_spec_intro; [apply acceptKey_agrees|apply acceptKey_consistent]. Qed.
Lemma acceptString_spec val : handler_spec (acceptString content val).
Proof.
  apply handler_spec_intro; [apply acceptString_agrees|].
  rewrite acceptString_shape. by apply assignValue_consistent.
Qed.
Lemma acceptData_spec val : handler_spec (acceptData content val).
Proof.
  apply handler_spec_intro; [apply acceptData_agrees|].
  rewrite acceptData_shape. by apply assignValue_consistent.
Qed.
Lemma acceptDate_spec val : handler_spec (acceptDate content val).
Proof.
  apply handler_spec_intro; [apply acceptDate_agrees|].
  rewrite acceptDate_shape. by apply assignValue_consistent.
Qed.
Lemma acceptBool_spec val : handler_spec (acceptBool content val).
Proof.
  apply handler_spec_intro; [apply acceptBool_agrees|].
  rewrite acceptBool_shape. by apply assignValue_consistent.
Qed.
Lemma acceptReal_spec val : handler_spec (acceptReal content val).
Proof.
  apply handler_spec_intro; [apply acceptReal_agrees|].
  rewrite acceptReal_shape. by apply when_fail_consistent, assignValue_consistent.
Qed.
Lemma acceptInteger_spec val : handler_spec (acceptInteger content val).
Proof.
  apply handler_spec_intro; [apply acceptInteger_agrees|].
  rewrite acceptInteger_shape. by apply when_fail_consistent, assignValue_consistent.
Qed.
End Handlers.

(** ** One iteration of the loop *)

Lemma rel_bind_gets {A B} st1 st2 (f : pstate → A) (g1 g2 : A → M B) R E :
  f st1 = f st2 →
  rel st1 st2 (g1 (f st1)) (g2 (f st1)) R E →
  rel st1 st2 (gets f ≫= g1) (gets f ≫= g2) R E.
Proof. intros Hf. unfold rel, mbind, M_bind, gets. by rewrite <- Hf. Qed.

Lemma rel_fail {A} content st1 st2 msg (Q : A → pstate → Prop) (E : error → Prop) :
  agree st1 st2 →
  E (ParseError (pos st1) msg (substr content (pos st1) 50)) →
  rel st1 st2 (fail content msg) (fail content msg) Q E.
Proof. intros [Hp _] HE. unfold rel, fail. by rewrite <- Hp. Qed.

Lemma agree_state st1 st2 : agree st1 st2 → state st1 = state st2.
Proof. intros [_ Hb]. unfold builder in Hb. congruence. Qed.

(** The replacement functions of [escapeVal] throw nothing but the
    [RangeError] of [String.fromCodePoint]. *)
Lemma replace_from_error matcher fn skip s e :
  (∀ m e', fn m = Throw e' → e' = RangeError) →
  replace_from matcher fn skip s = Throw e → e = RangeError.
Proof.
  intros Hfn. revert skip. induction s as [|c s IH]; intros skip; simpl; [done|].
  destruct skip as [|k]; [|apply IH].
  destruct (matcher (c :: s)) as [[m n]|].
  - destruct (fn m) as [r|e'] eqn:Hm; simpl.
    + destruct (replace_from matcher fn (n - 1) s) as [t|e'] eqn:Ht; simpl; [done|].
      intros [= <-]. by eapply IH.
    + intros [= <-]. by eapply Hfn.
  - destruct (replace_from matcher fn 0 s) as [t|e'] eqn:Ht; simpl; [done|].
    intros [= <-]. by eapply IH.
Qed.

Lemma fromCodePoint_error n e : fromCodePoint n = Throw e → e = RangeError.
Proof.
  unfold fromCodePoint. destruct n; try by intros [= <-].
  repeat case_match; by intros [= <-] || done.
Qed.

Lemma escapeVal_error s e : escapeVal s = Throw e → e = RangeError.
Proof.
  unfold escapeVal, replace.
  destruct (replace_from matchDecimal _ 0 s) as [s1|e1] eqn:H1; simpl.
  2:{ intros [= <-]. eapply replace_from_error; [|done].
      intros ? ?. apply fromCodePoint_error. }
  destruct (replace_from matchHex _ 0 s1) as [s2|e2] eqn:H2; simpl.
  2:{ intros [= <-]. eapply replace_from_error; [|done].
      intros ? ?. apply fromCodePoint_error. }
  intros H3. eapply replace_from_error; [|done]. done.
Qed.

Section Iteration.
Context (content : jsstring).
Abbreviation len := (length content).

(** What a scanning helper does to the state: it moves [pos] forward,
    not beyond the end of the input, and touches nothing else but the
    location. *)
Definition scanned (st st' : pstate) : Prop :=
  builder st' = builder st ∧ pos st ≤ pos st' ≤ len.

Lemma scanned_consistent st st' : scanned st st' → consistent st → consistent st'.
Proof. intros [Hb _]. by apply consistent_builder. Qed.

Lemma parseOpenTag_rel k1 k2 st1 st2 E :
  agree st1 st2 → pos st1 ≤ len →
  rel st1 st2 (parseOpenTag content k1) (parseOpenTag content k2)
      (fun _ st' => scanned st1 st') E.
Proof.
  intros Hag Hle. unfold parseOpenTag.
  eapply rel_bind; [by apply captureUntil_rel|].
  intros r st1' st2' Hag' (Hb & Hp & _); simpl.
  pose proof (delimiterEnd_bounds content [GREATER_THAN] _ Hle).
  case_bool_decide; (apply rel_ret; [done|]); split; try done; lia.
Qed.

Lemma parseTagValue_rel k1 k2 tag st1 st2 :
  agree st1 st2 → pos st1 ≤ len →
  rel st1 st2 (parseTagValue content k1 tag) (parseTagValue content k2 tag)
      (fun _ st' => scanned st1 st') (fun e => e = RangeError).
Proof.
  intros Hag Hle. unfold parseTagValue. destruct (isClosed tag).
  { apply rel_ret; [done|]. split; [done|lia]. }
  eapply rel_bind; [by apply captureUntil_rel|].
  intros val st1' st2' Hag' (Hb & Hp & _); simpl.
  pose proof (delimiterEnd_bounds content (str "</") _ Hle).
  eapply rel_bind; [apply advanceUntil_rel; [done|lia]|].
  intros [] st1'' st2'' Hag'' (Hb' & Hp'); simpl.
  assert (pos st1' ≤ len) as Hle' by lia.
  pose proof (delimiterEnd_bounds content [GREATER_THAN] _ Hle').
  apply rel_lift; [done| |].
  - intros _ _. split; [congruence|lia].
  - intros e. apply escapeVal_error.
Qed.

(** What the handling of a tag does to the state. *)
Definition handled (st st' : pstate) : Prop :=
  pos st ≤ pos st' ≤ len ∧ (consistent st → consistent st').

Definition rejection (st : pstate) (e : error) : Prop :=
  consistent st → benign e.

Lemma leaf_rel k1 k2 tag (h : jsstring → M unit) st1 st2 :
  (∀ val, handler_spec (h val)) →
  agree st1 st2 → pos st1 ≤ len →
  rel st1 st2
      (val ← parseTagValue content k1 tag; h val ;; mret Continue)
      (val ← parseTagValue content k2 tag; h val ;; mret Continue)
      (fun c st' => c = Continue ∧ handled st1 st') (rejection st1).
Proof.
  intros Hh Hag Hle.
  eapply rel_bind.
  { eapply rel_mono; [by apply parseTagValue_rel|done|].
    intros e -> _. done. }
  intros val st1' st2' Hag' Hsc; simpl.
  eapply rel_bind.
  { eapply rel_mono; [by apply Hh|done|].
    intros e He Hc. apply He. exact (scanned_consistent _ _ Hsc Hc). }
  intros [] st1'' st2'' Hag'' (Hp & Hc); simpl.
  apply rel_ret; [done|]. destruct Hsc as [Hb Hpos].
  split; [done|]. split; [lia|]. intros ?. apply Hc. by apply (consistent_builder st1).
Qed.

Lemma container_rel (tag : IParsedTag) (enter leave : M unit) st1 st2 :
  handler_spec enter → handler_spec leave →
  agree st1 st2 → pos st1 ≤ len →
  rel st1 st2
      (enter ;; when (isClosed tag) leave ;; mret Continue)
      (enter ;; when (isClosed tag) leave ;; mret Continue)
      (fun c st' => c = Continue ∧ handled st1 st') (rejection st1).
Proof.
  intros Henter Hleave Hag Hle.
  eapply rel_bind; [by apply Henter|].
  intros [] st1' st2' Hag' (Hp & Hc); simpl.
  eapply rel_bind.
  { apply rel_when with (Q := fun _ st' => pos st' = pos st1 ∧ (consistent st1 → consistent st'));
      [done| |done].
    intros _. eapply rel_mono; [by apply Hleave| |].
    - intros _ st' [Hp' Hc']. split; [congruence|auto].
    - intros e He Hc1. auto. }
  intros [] st1'' st2'' Hag'' (Hp'' & Hc''); simpl.
  apply rel_ret; [done|]. split; [done|]. split; [lia|done].
Qed.

Lemma dispatchTag_rel k1 k2 tag st1 st2 :
  agree st1 st2 → pos st1 ≤ len →
  rel st1 st2 (dispatchTag content k1 tag) (dispatchTag content k2 tag)
      (fun c st' => c = Continue ∧ handled st1 st') (rejection st1).
Proof.
  intros Hag Hle. unfold dispatchTag.
  repeat case_decide.
  - apply container_rel; auto using enterDict_spec, leaveDict_spec.
  - apply container_rel; auto using enterArray_spec, leaveArray_spec.
  - apply (leaf_rel k1 k2 tag (acceptKey content)); auto using acceptKey_spec.
  - apply (leaf_rel k1 k2 tag (acceptString content)); auto using acceptString_spec.
  - apply (leaf_rel k1 k2 tag (fun val => acceptReal content (parseFloat val)));
      auto using acceptReal_spec.
  - apply (leaf_rel k1 k2 tag (fun val => acceptInteger content (parseInt val 10)));
      auto using acceptInteger_spec.
  - apply (leaf_rel k1 k2 tag (acceptDate content)); auto using acceptDate_spec.
  - apply (leaf_rel k1 k2 tag (acceptData content)); auto using acceptData_spec.
  - apply (leaf_rel k1 k2 tag (fun _ => acceptBool content true));
      auto using acceptBool_spec.
  - apply (leaf_rel k1 k2 tag (fun _ => acceptBool content false));
      auto using acceptBool_spec.
  - destruct (starts_with (str "plist") (name tag)).
    + apply rel_ret; [done|]. split; [done|]. split; [lia|done].
    + by apply rel_fail.
Qed.

(** [advanceUntil('>')] followed by a handler, at the end of a closing tag. *)
Lemma closing_rel k1 k2 (h : M unit) st0 st1 st2 :
  handler_spec h →
  agree st1 st2 → scanned st0 st1 →
  rel st1 st2
      (advanceUntil content k1 [GREATER_THAN] ;; h ;; mret Continue)
      (advanceUntil content k2 [GREATER_THAN] ;; h ;; mret Continue)
      (fun c st' => c = Continue ∧ handled st0 st') (rejection st0).
Proof.
  intros Hh Hag [Hb0 Hp0].
  eapply rel_bind; [apply advanceUntil_rel; [done|lia]|].
  intros [] st1' st2' Hag' (Hb & Hp); simpl.
  assert (pos st1 ≤ len) as Hle by lia.
  pose proof (delimiterEnd_bounds content [GREATER_THAN] _ Hle).
  eapply rel_bind.
  { eapply rel_mono; [by apply Hh|done|].
    intros e He Hc. apply He.
    apply (consistent_builder st1); [done|]. by apply (consistent_builder st0). }
  intros [] st1'' st2'' Hag'' (Hp' & Hc); simpl.
  apply rel_ret; [done|]. split; [done|]. split; [lia|].
  intros ?. apply Hc.
  apply (consistent_builder st1); [done|]. by apply (consistent_builder st0).
Qed.

Lemma closingTag_rel k1 k2 st1 st2 :
  agree st1 st2 → pos st1 < len →
  rel st1 st2 (closingTag content k1) (closingTag content k2)
      (fun c st' => c = Continue ∧ pos st1 < pos st' ∧ handled st1 st') (rejection st1).
Proof.
  intros Hag Hlt. unfold closingTag.
  eapply rel_bind; [by apply advancePosBy_rel|].
  intros [] sta sta2 Haga (Hpa & Hba); simpl.
  eapply rel_bind; [apply skipWhitespace_rel; [done|lia]|].
  intros [] stb stb2 Hagb (Hpb & Hbb & _); simpl.
  assert (∀ st, scanned stb st → scanned st1 st ∧ pos st1 < pos st) as Hsc.
  { intros st [? ?]. split; [split|]; try lia. congruence. }
  assert (∀ st0 c st, scanned st1 st0 → pos st1 < pos st0 →
            c = Continue ∧ handled st0 st →
            c = Continue ∧ pos st1 < pos st ∧ handled st1 st) as Hpost.
  { intros st0 c st [Hb0 Hp0] Hlt0 (-> & Hp' & Hc'). split; [done|].
    split; [lia|]. split; [lia|]. intros ?. by apply Hc', (consistent_builder st1). }
  assert (∀ st0 e, scanned st1 st0 → rejection st0 e → rejection st1 e) as Herr.
  { intros st0 e [Hb0 _] He ?. by apply He, (consistent_builder st1). }
  eapply rel_bind; [apply advanceIfStartsWith_rel; [done|lia]|].
  intros isPlist stc stc2 Hagc (Hbc & Hlc & Hpc & _); simpl.
  destruct isPlist.
  { eapply rel_bind; [by apply advanceUntil_rel|].
    intros [] std std2 Hagd (Hbd & Hpd); simpl.
    pose proof (delimiterEnd_bounds content [GREATER_THAN] _ Hlc).
    apply rel_ret; [done|]. split; [done|]. split; [lia|]. split; [lia|].
    intros ?. apply (consistent_builder st1); [congruence|done]. }
  simpl in Hpc.
  eapply rel_bind; [apply advanceIfStartsWith_rel; [done|lia]|].
  intros isDict std std2 Hagd (Hbd & Hld & Hpd & _); simpl.
  destruct (Hsc std) as [Hsd1 Hltd]; [split; [congruence|destruct isDict; lia]|].
  destruct isDict; simpl in Hpd.
  { eapply rel_mono;
      [apply (closing_rel k1 k2 (leaveDict content) std);
         [apply leaveDict_spec|done|split; [done|lia]]| |].
    - intros c st'. by apply Hpost.
    - intros e. by apply Herr. }
  eapply rel_bind; [apply advanceIfStartsWith_rel; [done|lia]|].
  intros isArray ste ste2 Hage (Hbe & Hle & Hpe & _); simpl.
  destruct (Hsc ste) as [Hse1 Hlte]; [split; [congruence|destruct isArray; lia]|].
  destruct isArray; simpl in Hpe.
  { eapply rel_mono;
      [apply (closing_rel k1 k2 (leaveArray content) ste);
         [apply leaveArray_spec|done|split; [done|lia]]| |].
    - intros c st'. by apply Hpost.
    - intros e. by apply Herr. }
  by apply rel_fail.
Qed.

(** What an iteration of the loop does to the state: it ends the loop at
    the end of the input, having skipped blanks only, or it continues,
    with [pos] moved forward, not beyond the end of the input. *)
Definition iterated (st : pstate) (c : control) (st' : pstate) : Prop :=
  pos st' ≤ len ∧ (consistent st → consistent st')
  ∧ match c with
    | Continue => pos st < pos st'
    | Break => len ≤ pos st' ∧ builder st' = builder st
    end.

Lemma loopBody_rel k1 k2 st1 st2 :
  agree st1 st2 → pos st1 ≤ len →
  rel st1 st2 (loopBody content k1) (loopBody content k2)
      (iterated st1) (rejection st1).
Proof.
  intros Hag Hle. unfold loopBody.
  eapply rel_bind; [by apply skipWhitespace_rel|].
  intros [] sta sta2 Haga (Hpa & Hba & _); simpl.
  assert (∀ st0 e, builder st0 = builder st1 → rejection st0 e → rejection st1 e) as Herr.
  { intros st0 e Hb0 He ?. by apply He, (consistent_builder st1). }
  apply rel_bind_gets; [apply Haga|].
  case_bool_decide as Hend.
  { apply rel_ret; [done|]. split; [lia|]. split; [|done].
    by apply consistent_builder. }
  eapply rel_bind; [by apply advancePosBy_rel|].
  intros [] stb stb2 Hagb (Hpb & Hbb); simpl.
  eapply rel_bind.
  { apply rel_when with (Q := fun _ st' => st' = stb); [done| |done].
    intros _. by apply rel_fail. }
  intros [] stb' stb2' Hagb' ->; simpl.
  apply rel_bind_gets; [apply Hagb'|].
  eapply rel_bind.
  { apply rel_when with (Q := fun _ st' => st' = stb ∧ pos stb < len); [done| |].
    - intros _. by apply rel_fail.
    - intros Hf. apply bool_decide_eq_false in Hf. split; [done|lia]. }
  intros [] stb'' stb2'' Hagb'' [-> Hltb]; simpl.
  assert (builder stb = builder st1) as Hbb1 by congruence.
  assert (∀ c st, c = Continue ∧ pos stb < pos st ∧ handled stb st → iterated st1 c st) as Hpost.
  { intros c st (-> & Hlt & [Hp Hc]). split; [lia|]. split; [|simpl; lia].
    intros ?. by apply Hc, (consistent_builder st1). }
  repeat case_decide.
  - eapply rel_bind; [by apply advancePosBy_rel|].
    intros [] stc stc2 Hagc (Hpc & Hbc); simpl.
    eapply rel_bind; [apply advanceUntil_rel; [done|lia]|].
    intros [] std std2 Hagd (Hbd & Hpd); simpl.
    assert (pos stc ≤ len) as Hlc by lia.
    pose proof (delimiterEnd_bounds content (str "?>") _ Hlc).
    apply rel_ret; [done|]. split; [lia|]. split; [|simpl; lia].
    apply consistent_builder. congruence.
  - eapply rel_bind; [by apply advancePosBy_rel|].
    intros [] stc stc2 Hagc (Hpc & Hbc); simpl.
    eapply rel_bind; [apply advanceIfStartsWith_rel; [done|lia]|].
    intros isComment std std2 Hagd (Hbd & Hld & Hpd & _); simpl.
    assert (pos stb < pos std) as Hltd by (destruct isComment; lia).
    destruct isComment.
    + eapply rel_bind; [by apply advanceUntil_rel|].
      intros [] ste ste2 Hage (Hbe & Hpe); simpl.
      pose proof (delimiterEnd_bounds content (str "-->") _ Hld).
      apply rel_ret; [done|]. split; [lia|]. split; [|simpl; lia].
      apply consistent_builder. congruence.
    + eapply rel_bind; [by apply advanceUntil_rel|].
      intros [] ste ste2 Hage (Hbe & Hpe); simpl.
      pose proof (delimiterEnd_bounds content [GREATER_THAN] _ Hld).
      apply rel_ret; [done|]. split; [lia|]. split; [|simpl; lia].
      apply consistent_builder. congruence.
  - eapply rel_mono; [by apply closingTag_rel| |].
    + intros c st'. apply Hpost.
    + intros e. by apply Herr.
  - eapply rel_bind; [apply parseOpenTag_rel; [done|lia]|].
    intros tag stc stc2 Hagc [Hbc Hpc]; simpl.
    eapply rel_mono; [apply dispatchTag_rel; [done|lia]| |].
    + intros c st' (-> & [Hp Hc]). split; [lia|]. split; [|simpl; lia].
      intros ?. apply Hc, (consistent_builder st1); [congruence|done].
    + intros e. apply Herr. congruence.
Qed.
End Iteration.

(** ** The loop *)
Section Loop.
Context (content : jsstring).
Abbreviation len := (length content).

Lemma loopBody_unary k st :
  pos st ≤ len →
  match loopBody content k st with
  | Ok (c, st') => iterated content st c st'
  | Throw e => rejection st e
  end.
Proof. intros Hle. apply rel_unary. by apply loopBody_rel. Qed.

(** The fuel given by [parse] is enough. *)
Lemma loop_terminates k fuel st :
  pos st ≤ len → len - pos st < fuel → is_Some (loop content k fuel st).
Proof.
  revert st. induction fuel as [|fuel IH]; intros st Hle Hfuel; [lia|]. simpl.
  case_bool_decide as Hlt; [|done].
  pose proof (loopBody_unary k st Hle) as Hbody.
  destruct (loopBody content k st) as [[[] st']|e]; [done| |done].
  destruct Hbody as (Hle' & _ & Hlt'). apply IH; [done|lia].
Qed.

Lemma loop_fuel k fuel fuel' st r :
  loop content k fuel st = Some r → fuel ≤ fuel' → loop content k fuel' st = Some r.
Proof.
  revert fuel' st. induction fuel as [|fuel IH]; intros fuel' st; [done|].
  intros Hr Hfuel. destruct fuel' as [|fuel']; [lia|]. simpl in *.
  case_bool_decide; [|done].
  destruct (loopBody content k st) as [[[] st']|e]; [done| |done].
  apply IH; [done|lia].
Qed.

(** What the loop returns: a consistent state at the end of the input,
    or a rejection of the input. *)
Lemma loop_result k fuel st r :
  pos st ≤ len → consistent st → loop content k fuel st = Some r →
  match r with
  | Ok st' => len ≤ pos st' ∧ consistent st'
  | Throw e => benign e
  end.
Proof.
  revert st. induction fuel as [|fuel IH]; intros st Hle Hc; [done|]. simpl.
  case_bool_decide as Hlt.
  2:{ intros [= <-]. split; [lia|done]. }
  pose proof (loopBody_unary k st Hle) as Hbody.
  destruct (loopBody content k st) as [[[] st']|e].
  - destruct Hbody as (_ & Hc' & Hend & _). intros [= <-]. auto.
  - destruct Hbody as (Hle' & Hc' & _). apply IH; auto.
  - intros [= <-]. by apply Hbody.
Qed.

(** Location tracking makes no difference to the loop. *)
Lemma loop_rel k1 k2 fuel st1 st2 :
  agree st1 st2 → pos st1 ≤ len →
  match loop content k1 fuel st1, loop content k2 fuel st2 with
  | Some (Ok st1'), Some (Ok st2') => agree st1' st2'
  | Some (Throw e1), Some (Throw e2) => e1 = e2
  | None, None => True
  | _, _ => False
  end.
Proof.
  revert st1 st2. induction fuel as [|fuel IH]; intros st1 st2 Hag Hle; [done|].
  simpl. destruct Hag as [Hp Hb] eqn:Hag'. rewrite <- Hp.
  case_bool_decide as Hlt; [|done].
  pose proof (loopBody_rel content k1 k2 st1 st2 Hag Hle) as Hbody. unfold rel in Hbody.
  destruct (loopBody content k1 st1) as [[c1 st1']|e1],
           (loopBody content k2 st2) as [[c2 st2']|e2]; try done.
  - destruct Hbody as (<- & Hag1 & Hle1 & _). destruct c1; [done|]. by apply IH.
  - by destruct Hbody.
Qed.

(** The states that the loop goes through: [runs_to st st'] when
    iterating the body from [st] leads to [st']. *)
Inductive runs_to (k : option jsstring) : pstate → pstate → Prop :=
| runs_here st : runs_to k st st
| runs_on st c st' st'' :
    pos st < len → loopBody content k st = Ok (c, st') →
    runs_to k st' st'' → runs_to k st st''.

Lemma runs_to_invariant k st st' :
  runs_to k st st' → pos st ≤ len → consistent st → pos st' ≤ len ∧ consistent st'.
Proof.
  induction 1 as [|st c st' st'' Hlt Hbody _ IH]; intros Hle Hc; [done|].
  pose proof (loopBody_unary k st Hle) as Hit. rewrite Hbody in Hit.
  destruct Hit as (Hle' & Hc' & _). auto.
Qed.

(** When the states that the loop goes through lead to the end of the
    input, the loop returns there. *)
Lemma runs_to_loop k st st' fuel :
  runs_to k st st' → pos st ≤ len → len ≤ pos st' → len - pos st < fuel →
  loop content k fuel st = Some (Ok st').
Proof.
  intros Hruns. revert fuel.
  induction Hruns as [|st c st' st'' Hlt Hbody Hruns IH]; intros fuel Hle Hend Hfuel.
  - destruct fuel as [|fuel]; [lia|]. simpl. case_bool_decide; [lia|done].
  - destruct fuel as [|fuel]; [lia|]. simpl. case_bool_decide; [|lia].
    pose proof (loopBody_unary k st Hle) as Hit. rewrite Hbody in *.
    destruct Hit as (Hle' & _ & Hc). destruct c.
    + destruct Hc as [Hend' _]. inversion Hruns; subst; [done|lia].
    + apply IH; [done..|lia].
Qed.

Lemma initialState_bounds : pos (initialState content) ≤ len.
Proof. unfold initialState; simpl. case_bool_decide; lia. Qed.

Lemma initialState_consistent : consistent (initialState content).
Proof. split; simpl; [done|constructor|done|by intros ?]. Qed.
End Loop.

(** ** [parse] *)

(** [parse] returns or throws, for every input: the loop never runs out of
    the fuel it is given. *)
Lemma parse_terminates content k : is_Some (parse content k).
Proof.
  unfold parse.
  destruct (loop_terminates content k (S (length content)) (initialState content))
    as [r Hr]; [apply initialState_bounds|lia|].
  rewrite Hr. by eexists.
Qed.

(** Location tracking makes no difference to what [parse] returns or
    throws. *)
Lemma parse_mode_irrelevant content k1 k2 : parse content k1 = parse content k2.
Proof.
  unfold parse.
  pose proof (loop_rel content k1 k2 (S (length content)) _ _
                (agree_refl (initialState content)) (initialState_bounds content)) as Hrel.
  destruct (loop content k1 _ _) as [[st1|e1]|], (loop content k2 _ _) as [[st2|e2]|];
    try done.
  - destruct Hrel as [_ Hb]. unfold builder in Hb. simpl. congruence.
  - by subst.
Qed.

(** [parse] throws nothing but its own errors and the [RangeError] of
    [String.fromCodePoint]: the operations outside the model are never
    reached. *)
Lemma parse_throws_benign content k e : parse content k = Some (Throw e) → benign e.
Proof.
  unfold parse. destruct (loop content k _ _) as [[st|e']|] eqn:Hloop; try done.
  intros [= <-].
  by apply (loop_result content k _ _ _ (initialState_bounds content)
              (initialState_consistent content) Hloop).
Qed.

(** What [parse] returns is [cur] in the state in which the loop ends. *)
Lemma parse_runs_to content k st :
  runs_to content k (initialState content) st → length content ≤ pos st →
  parse content k = Some (Ok (cur st, heap st)).
Proof.
  intros Hruns Hend. unfold parse.
  erewrite runs_to_loop; [done|done|apply initialState_bounds|done|lia].
Qed.

(** ** The calls of the handlers *)

(** What can be assigned in a dictionary: a leaf value or a new container. *)
Inductive assignment :=
| StringLeaf (val : jsstring)
| DataLeaf (val : jsstring)
| IntegerLeaf (d : double)
| RealLeaf (d : double)
| DateLeaf (text : jsstring)
| BoolLeaf (val : bool)
| DictOpen
| ArrayOpen.

(** The calls of the handlers by the loop. *)
Inductive event :=
| Assign (a : assignment)
| Key (val : jsstring)
| DictClose
| ArrayClose.

Definition assign (content : jsstring) (a : assignment) : M unit :=
  match a with
  | StringLeaf val => acceptString content val
  | DataLeaf val => acceptData content val
  | IntegerLeaf d => acceptInteger content (Num d)
  | RealLeaf d => acceptReal content (Num d)
  | DateLeaf text => acceptDate content text
  | BoolLeaf val => acceptBool content val
  | DictOpen => enterDict content
  | ArrayOpen => enterArray content
  end.

Definition handle (content : jsstring) (ev : event) : M unit :=
  match ev with
  | Assign a => assign content a
  | Key val => acceptKey content val
  | DictClose => leaveDict content
  | ArrayClose => leaveArray content
  end.

(** The value that is assigned: the leaf, or the new container, which is
    allocated at the end of heap [h]. *)
Definition assigned (a : assignment) (h : list object) : value :=
  match a with
  | StringLeaf val | DataLeaf val => VString val
  | IntegerLeaf d => VNumber (Num d)
  | RealLeaf d => VNumber (Num d)
  | DateLeaf text => VDate text
  | BoolLeaf val => VBool val
  | DictOpen | ArrayOpen => VRef (length h)
  end.

Lemma assign_shape content a :
  assign content a
  = match a with
    | DictOpen => enterContainer content DICT_STATE (ODict None ∅)
    | ArrayOpen => enterContainer content ARR_STATE (OArray [])
    | _ => assignValue content (assigned a [])
    end.
Proof. by destruct a. Qed.

(** ** Properties that every helper passes on

    [transition R m]: wherever [m] returns, the states before and after
    are related by [R].  For a reflexive and transitive [R] that the two
    functions that move [pos] and the handlers have, every helper built
    from them has it, and so has the loop. *)
Definition transition {A} (R : relation pstate) (m : M A) : Prop :=
  ∀ st a st', m st = Ok (a, st') → R st st'.

Section Transition.
Context (content : jsstring) (k : option jsstring).
Context (R : relation pstate) `{!Reflexive R, !Transitive R}.
#[local] Set Default Proof Using "Type*".

Lemma transition_ret {A} (a : A) : transition R (mret a).
Proof. intros st a' st' [= _ <-]. reflexivity. Qed.

Lemma transition_bind {A B} (m : M A) (f : A → M B) :
  transition R m → (∀ a, transition R (f a)) → transition R (m ≫= f).
Proof.
  intros Hm Hf st b st'. unfold mbind, M_bind.
  destruct (m st) as [[a st1]|e] eqn:Hrun; [|done].
  intros Hrun'. transitivity st1; [by eapply Hm|by eapply Hf].
Qed.

Lemma transition_gets {A} (f : pstate → A) : transition R (gets f).
Proof. intros st a st' [= _ <-]. reflexivity. Qed.

Lemma transition_fail {A} msg : transition R (fail (A := A) content msg).
Proof. by intros st a st'. Qed.

Lemma transition_when (c : bool) (m : M unit) :
  transition R m → transition R (when c m).
Proof. intros Hm. destruct c; [done|apply transition_ret]. Qed.

Lemma transition_lift {A} (r : result A) : transition R (lift r).
Proof. intros st a st'. unfold lift. destruct r; [|done]. intros [= _ <-]. reflexivity. Qed.

Context (R_advancePosBy : ∀ n, transition R (advancePosBy content k n)).
Context (R_advancePosTo : ∀ to, transition R (advancePosTo content k to)).
Context (R_handle : ∀ ev, transition R (handle content ev)).

Ltac transition_step :=
  first [ apply transition_ret
        | apply transition_fail
        | apply transition_gets
        | apply transition_lift
        | apply R_advancePosBy
        | apply R_advancePosTo
        | apply transition_when
        | apply transition_bind; [|intros ?] ].

Lemma skipWhitespace_transition : transition R (skipWhitespace content k).
Proof.
  unfold skipWhitespace. generalize (length content) at 1.
  intros fuel. induction fuel as [|fuel IH]; simpl.
  - apply transition_ret.
  - apply transition_bind; [apply transition_gets|]. intros p.
    case_bool_decide; [|apply transition_ret].
    destruct (charCodeAt content p) as [c|]; [|apply transition_ret].
    destruct (isBlank c); [|apply transition_ret].
    apply transition_bind; [apply R_advancePosBy|done].
Qed.

Lemma advanceIfStartsWith_transition s : transition R (advanceIfStartsWith content k s).
Proof.
  unfold advanceIfStartsWith. apply transition_bind; [apply transition_gets|]. intros p.
  case_bool_decide; repeat transition_step.
Qed.

Lemma advanceUntil_transition s : transition R (advanceUntil content k s).
Proof.
  unfold advanceUntil. apply transition_bind; [apply transition_gets|]. intros p.
  destruct (indexOf content s p); apply R_advancePosTo.
Qed.

Lemma captureUntil_transition s : transition R (captureUntil content k s).
Proof.
  unfold captureUntil. apply transition_bind; [apply transition_gets|]. intros p.
  destruct (indexOf content s p); repeat transition_step.
Qed.

Lemma parseOpenTag_transition : transition R (parseOpenTag content k).
Proof.
  unfold parseOpenTag. apply transition_bind; [apply captureUntil_transition|]. intros r.
  case_bool_decide; apply transition_ret.
Qed.

Lemma parseTagValue_transition tag : transition R (parseTagValue content k tag).
Proof.
  unfold parseTagValue. destruct (isClosed tag); [apply transition_ret|].
  apply transition_bind; [apply captureUntil_transition|]. intros val.
  apply transition_bind; [apply advanceUntil_transition|]. intros _.
  apply transition_lift.
Qed.

(** The handlers as the loop calls them. *)
Lemma acceptInteger_transition n : transition R (acceptInteger content n).
Proof.
  destruct n as [|d].
  - by intros st a st'.
  - apply (R_handle (Assign (IntegerLeaf d))).
Qed.

Lemma acceptReal_transition n : transition R (acceptReal content n).
Proof.
  destruct n as [|d].
  - by intros st a st'.
  - apply (R_handle (Assign (RealLeaf d))).
Qed.

Lemma dispatchTag_transition tag : transition R (dispatchTag content k tag).
Proof.
  pose proof (R_handle (Assign DictOpen)) as HenterDict.
  pose proof (R_handle (Assign ArrayOpen)) as HenterArray.
  pose proof (R_handle DictClose) as HleaveDict.
  pose proof (R_handle ArrayClose) as HleaveArray.
  pose proof (fun val => R_handle (Key val)) as Hkey.
  pose proof (fun val => R_handle (Assign (StringLeaf val))) as Hstring.
  pose proof (fun val => R_handle (Assign (DataLeaf val))) as Hdata.
  pose proof (fun val => R_handle (Assign (DateLeaf val))) as Hdate.
  pose proof (fun val => R_handle (Assign (BoolLeaf val))) as Hbool.
  simpl in *.
  unfold dispatchTag. pose proof parseTagValue_transition.
  pose proof acceptInteger_transition. pose proof acceptReal_transition.
  repeat case_decide;
    try (destruct (starts_with (str "plist") (name tag)));
    repeat first [ done | transition_step ].
Qed.

Lemma closingTag_transition : transition R (closingTag content k).
Proof.
  pose proof (R_handle DictClose) as HleaveDict.
  pose proof (R_handle ArrayClose) as HleaveArray.
  simpl in *. unfold closingTag.
  apply transition_bind; [apply R_advancePosBy|]. intros _.
  apply transition_bind; [apply skipWhitespace_transition|]. intros _.
  apply transition_bind; [apply advanceIfStartsWith_transition|]. intros [|].
  { apply transition_bind; [apply advanceUntil_transition|]. intros _.
    apply transition_ret. }
  apply transition_bind; [apply advanceIfStartsWith_transition|]. intros [|].
  { apply transition_bind; [apply advanceUntil_transition|]. intros _.
    apply transition_bind; [done|]. intros _. apply transition_ret. }
  apply transition_bind; [apply advanceIfStartsWith_transition|]. intros [|].
  { apply transition_bind; [apply advanceUntil_transition|]. intros _.
    apply transition_bind; [done|]. intros _. apply transition_ret. }
  apply transition_fail.
Qed.

Lemma loopBody_transition : transition R (loopBody content k).
Proof.
  unfold loopBody.
  apply transition_bind; [apply skipWhitespace_transition|]. intros _.
  apply transition_bind; [apply transition_gets|]. intros p.
  case_bool_decide; [apply transition_ret|].
  apply transition_bind; [apply R_advancePosBy|]. intros _.
  apply transition_bind; [apply transition_when, transition_fail|]. intros _.
  apply transition_bind; [apply transition_gets|]. intros p'.
  apply transition_bind; [apply transition_when, transition_fail|]. intros _.
  repeat case_decide.
  - apply transition_bind; [apply R_advancePosBy|]. intros _.
    apply transition_bind; [apply advanceUntil_transition|]. intros _.
    apply transition_ret.
  - apply transition_bind; [apply R_advancePosBy|]. intros _.
    apply transition_bind; [apply advanceIfStartsWith_transition|]. intros [|];
      (apply transition_bind; [apply advanceUntil_transition|]; intros _;
       apply transition_ret).
  - apply closingTag_transition.
  - apply transition_bind; [apply parseOpenTag_transition|]. intros tag.
    apply dispatchTag_transition.
Qed.

Lemma loop_transition fuel st st' :
  loop content k fuel st = Some (Ok st') → R st st'.
Proof.
  revert st. induction fuel as [|fuel IH]; intros st; [done|]. simpl.
  case_bool_decide; [|intros [= <-]; reflexivity].
  destruct (loopBody content k st) as [[[] st1]|e] eqn:Hbody; [| |done].
  - intros [= <-]. by eapply loopBody_transition.
  - intros Hloop. transitivity st1; [by eapply loopBody_transition|by apply IH].
Qed.

Lemma runs_to_transition st st' : runs_to content k st st' → R st st'.
Proof.
  induction 1 as [|st c st1 st2 _ Hbody _ IH]; [reflexivity|].
  transitivity st1; [by eapply loopBody_transition|done].
Qed.
End Transition.

(** * The specification, sentence by sentence *)

(** ** Scanning up to a delimiter *)

Lemma occurs_at_substr (p s : jsstring) (start n j : nat) :
  start ≤ length s → j < length (substr s start n) →
  occurs_at p (substr s start n) j → occurs_at p s (start + j).
Proof.
  unfold occurs_at, substr. intros Hstart Hj [_ Hp].
  rewrite length_take, length_drop in Hj. split; [lia|].
  rewrite <- drop_drop. rewrite skipn_firstn_comm in Hp.
  rewrite take_take in Hp.
  assert (length p ≤ n - j) as Hlen.
  { apply (f_equal length) in Hp. rewrite length_take in Hp. lia. }
  by rewrite Nat.min_l in Hp.
Qed.

(** C7. [advanceUntil(s)] moves [pos] just past the first occurrence of
    [s] at or after [pos], or to the end of the input when there is none;
    [captureUntil(s)] moves [pos] alike and returns exactly the text
    between the position it started from and that occurrence (the rest of
    the input when there is none), in which [s] does not occur.  This
    holds with and without location tracking, from every position within
    the input. *)
Theorem scan_until_delimiter (content s : jsstring) (k : option jsstring) (st : pstate) :
  pos st ≤ length content →
  ∃ st1 st2 r,
    advanceUntil content k s st = Ok (tt, st1)
    ∧ captureUntil content k s st = Ok (r, st2)
    ∧ builder st1 = builder st ∧ builder st2 = builder st ∧ pos st2 = pos st1
    ∧ (∀ j, j < length r → ¬ occurs_at s r j)
    ∧ ((∃ i, pos st ≤ i ∧ occurs_at s content i
             ∧ (∀ j, pos st ≤ j < i → ¬ occurs_at s content j)
             ∧ pos st1 = i + length s
             ∧ content = take (pos st) content ++ r ++ s ++ drop (pos st1) content)
       ∨ ((∀ j, pos st ≤ j → ¬ occurs_at s content j)
          ∧ pos st1 = length content
          ∧ content = take (pos st) content ++ r)).
Proof.
  intros Hle.
  pose proof (proj1 (rel_unary st _ _ _)
                (advanceUntil_rel content k k s st st (fun _ => False) (agree_refl st) Hle)) as Ha.
  pose proof (proj1 (rel_unary st _ _ _)
                (captureUntil_rel content k k s st st (fun _ => False) (agree_refl st) Hle)) as Hc.
  destruct (advanceUntil content k s st) as [[[] st1]|]; [|done].
  destruct (captureUntil content k s st) as [[r st2]|]; [|done].
  destruct Ha as [Hb1 Hp1], Hc as (Hb2 & Hp2 & Hr).
  exists st1, st2, r. split_and!; try done; [congruence| |].
  - intros j Hj Hocc. subst r. unfold capturedText in *.
    destruct (indexOf content s (pos st)) as [i|] eqn:Hi.
    + apply indexOf_Some in Hi as (Hge & _ & Hmin); [|done].
      unfold substring in *. rewrite Nat.min_l, Nat.max_r in * by done.
      apply occurs_at_substr in Hocc; [|done..].
      unfold substr in Hj. rewrite length_take, length_drop in Hj.
      apply (Hmin (pos st + j)); [lia|done].
    + unfold substr_from in *. rewrite length_drop in Hj.
      apply (indexOf_None _ _ _ (pos st + j)) in Hi; [|lia]. apply Hi.
      destruct Hocc as [_ Hocc]. split; [lia|]. unfold substr in *.
      by rewrite drop_drop in Hocc.
  - unfold delimiterEnd, capturedText in *.
    destruct (indexOf content s (pos st)) as [i|] eqn:Hi.
    + left. exists i. pose proof Hi as (Hge & Hocc & Hmin)%indexOf_Some; [|done].
      split_and!; try done. subst r. unfold substring.
      rewrite Nat.min_l, Nat.max_r by done. rewrite Hp1.
      destruct Hocc as [Hi' Hocc]. unfold substr in Hocc.
      rewrite <- (take_drop (pos st) content) at 1. f_equal.
      rewrite <- (take_drop (i - pos st) (drop (pos st) content)) at 1. f_equal.
      rewrite drop_drop. replace (pos st + (i - pos st)) with i by lia.
      rewrite <- (take_drop (length s) (drop i content)) at 1.
      by rewrite Hocc, drop_drop.
    + right. split_and!; try done.
      * intros j Hj. by eapply indexOf_None.
      * subst r. unfold substr_from. by rewrite take_drop.
Qed.

Lemma scan_until_delimiter_witness :
  let content := str "ab>cd" in
  pos (initialState content) ≤ length content
  ∧ ∃ st1, advanceUntil content (Some []) [GREATER_THAN] (initialState content) = Ok (tt, st1)
           ∧ pos st1 = 3.
Proof.
  simpl. split; [lia|].
  destruct (scan_until_delimiter (str "ab>cd") [GREATER_THAN] (Some [])
              (initialState (str "ab>cd"))) as (st1 & st2 & r & Ha & _); [simpl; lia|].
  exists st1. split; [exact Ha|]. vm_compute in Ha. by injection Ha as <-.
Defined.

(** ** Location tracking *)

(** C8. Whether location tracking is enabled (a key name is given as second
    argument) or not ([null]) makes no difference to [parse]: for every
    input both calls return the same value, with equal contents of the
    containers it refers to, or both throw the same error. *)
Theorem parse_location_tracking_unobservable (content key : jsstring) :
  parse content (Some key) = parse content None.
Proof. apply parse_mode_irrelevant. Qed.

(** ** Blank input *)

Lemma skipWhitespace_unary content k st :
  pos st ≤ length content →
  ∃ st', skipWhitespace content k st = Ok (tt, st')
         ∧ pos st ≤ pos st' ≤ length content ∧ builder st' = builder st
         ∧ blanks_between content (pos st) (pos st')
         ∧ at_non_blank content (pos st').
Proof.
  intros Hle.
  pose proof (proj1 (rel_unary st _ _ _)
                (skipWhitespace_rel content k k st st (fun _ => False) (agree_refl st) Hle)) as H.
  destruct (skipWhitespace content k st) as [[[] st']|]; [|done]. by exists st'.
Qed.

(** Over blanks up to the end of the input, the body of the loop skips
    them and ends the loop. *)
Lemma loopBody_blanks content k st :
  pos st ≤ length content →
  blanks_between content (pos st) (length content) →
  ∃ st', loopBody content k st = Ok (Break, st') ∧ builder st' = builder st
         ∧ pos st' = length content.
Proof.
  intros Hle Hblanks.
  destruct (skipWhitespace_unary content k st Hle) as (st' & Hskip & Hp & Hb & _ & Hstop).
  assert (pos st' = length content) as Hend.
  { destruct (decide (pos st' < length content)) as [Hlt|]; [|lia].
    destruct (Hstop Hlt) as (c & Hc & Hnb).
    destruct (Hblanks (pos st')) as (c' & Hc' & Hbl); [lia|]. congruence. }
  exists st'. split; [|done].
  unfold loopBody, mbind, M_bind. rewrite Hskip. unfold gets.
  by rewrite bool_decide_eq_true_2 by lia.
Qed.

(** C9. For an input that is empty or made of blanks only (space, tab,
    carriage return, line feed), and for the input made of the byte-order
    mark alone, [parse] throws nothing and returns [null]. *)
Theorem parse_blank_input :
  (∀ (content : jsstring) k,
      Forall (fun c => isBlank c = true) content →
      parse content k = Some (Ok (VNull, [])))
  ∧ (∀ k, parse [BOM] k = Some (Ok (VNull, []))).
Proof.
  split; [|done].
  intros content k Hblank.
  assert (pos (initialState content) = 0) as Hp0.
  { unfold initialState; simpl. case_bool_decide as Hbom; [|done].
    destruct Hbom as [_ Hbom]. destruct content as [|c content]; [done|].
    apply Forall_cons in Hblank as [Hc _]. unfold charCodeAt in Hbom.
    simpl in Hbom. by simplify_eq. }
  destruct (decide (content = [])) as [->|Hne]; [done|].
  assert (0 < length content) as Hlen by (destruct content; [done|simpl; lia]).
  destruct (loopBody_blanks content k (initialState content)) as (st' & Hbody & Hb & Hp);
    [rewrite Hp0; lia| |].
  { intros n Hn. destruct (lookup_lt_is_Some_2 content n) as [c' Hc']; [lia|].
    exists c'. split; [done|]. rewrite Forall_lookup in Hblank. by eapply Hblank. }
  rewrite (parse_runs_to content k st').
  - unfold builder in Hb. simpl in Hb. congruence.
  - eapply runs_on; [|done|apply runs_here]. by rewrite Hp0.
  - lia.
Qed.

Lemma parse_blank_input_witness :
  Forall (fun c => isBlank c = true) (str "  ")
  ∧ parse (str "  ") (Some []) = Some (Ok (VNull, [])).
Proof.
  assert (Forall (fun c => isBlank c = true) (str "  ")) as H by (by repeat constructor).
  split; [exact H|]. exact (proj1 parse_blank_input (str "  ") (Some []) H).
Defined.

(** ** The end of the input *)

(** The containers that are open, the innermost first: [cur], and the
    entries of [objStack] but the bottom one, which [pushState] saved in
    [ROOT_STATE]. *)
Definition openContainers (st : pstate) : list value :=
  match objStack st with
  | [] => []
  | _ :: _ => cur st :: removelast (objStack st)
  end.

(** Every location is greater than those behind it. *)
Fixpoint decreasing (ls : list nat) : Prop :=
  match ls with
  | [] => True
  | l :: ls' => Forall (λ l', l' < l) ls' ∧ decreasing ls'
  end.

(** The open containers have been created one after the other: their
    locations in the heap decrease from the innermost to the outermost. *)
Definition nested (st : pstate) : Prop :=
  ∃ ls, openContainers st = VRef <$> ls
        ∧ decreasing ls
        ∧ Forall (λ l, l < length (heap st)) ls.

(** Running a handler on a leaf value or on the opening of a container,
    in a state whose [cur] is the container that [state] tells. *)
Ltac run_assign H :=
  first
    [ erewrite assignValue_dict in H by (done || by apply protoRefused_leaf)
    | erewrite assignValue_array in H by done
    | erewrite assignValue_root in H by done
    | erewrite enterContainer_dict in H by done
    | erewrite enterContainer_array in H by done
    | erewrite enterContainer_root in H by done ].

Lemma List_last_default {A} (l : list A) (d d' : A) :
  l ≠ [] → List.last l d = List.last l d'.
Proof.
  induction l as [|x [|y l] IH]; intros Hne; simpl in *; try done.
  by apply IH.
Qed.

(** While a container is open no handler changes the value set in
    [ROOT_STATE]: that value changes in [ROOT_STATE] only. *)
Lemma rootValue_stable content ev st st' :
  consistent st → state st ≠ ROOT_STATE →
  handle content ev st = Ok (tt, st') → rootValue st' = rootValue st.
Proof.
  intros Hc Hnr Hev.
  pose proof (cons_cur _ Hc) as Hcur. pose proof (cons_stack _ Hc) as Hstack.
  pose proof (cons_nesting _ Hc) as Hnest.
  assert (stateStack st ≠ []) as Hss.
  { unfold nesting_ok in Hnest.
    destruct (state st); try done; destruct Hnest as (ss' & -> & _); by destruct ss'. }
  assert (objStack st ≠ []) as Hos.
  { intros Heq. rewrite Heq in Hstack. by apply Forall2_nil_inv_r in Hstack. }
  assert (∀ s v st0, s ≠ ROOT_STATE →
            state st0 = state st → cur st0 = cur st → objStack st0 = objStack st →
            rootValue (pushed s v st0) = rootValue st) as Hpush.
  { intros s v st0 Hs Hs0 Hc0 Ho0. unfold rootValue, pushed. simpl.
    rewrite Hc0, Ho0. clear Hs0.
    destruct (objStack st) as [|o os] eqn:Hobj; [done|].
    destruct s; try done; destruct (state st); try done;
      simpl; (destruct os; [done|by apply List_last_default]). }
  assert ((state st = DICT_STATE ∨ state st = ARR_STATE) →
          rootValue (popped st) = rootValue st) as Hpop.
  { intros Hs. unfold rootValue, popped. simpl.
    destruct (stateStack st) as [|s ss] eqn:Hst; [done|].
    destruct (objStack st) as [|o os] eqn:Hobj; [done|].
    apply Forall2_cons in Hstack as [_ Hstack]. simpl.
    unfold nesting_ok in Hnest.
    assert (∃ ss', s :: ss = ss' ++ [ROOT_STATE]
                   ∧ Forall (fun x => x ≠ ROOT_STATE) ss') as (ss' & Heq & Hall)
      by (by destruct Hs as [Hs|Hs]; rewrite Hs in Hnest).
    assert (match state st with
            | ROOT_STATE => cur st
            | _ => match os with
                   | [] => o
                   | _ :: _ => List.last os (cur st)
                   end
            end
            = match os with
              | [] => o
              | _ :: _ => List.last os (cur st)
              end) as -> by (by destruct Hs as [-> | ->]).
    destruct ss' as [|s' ss'']; simplify_eq/=.
    - by apply Forall2_nil_inv_l in Hstack as ->.
    - apply Forall_cons in Hall as [Hs' _].
      destruct os as [|o' os'].
      { apply Forall2_nil_inv_r in Hstack. by destruct ss''. }
      destruct s'; try done; by apply List_last_default. }
  destruct ev as [a|val| |]; simpl in Hev.
  - rewrite assign_shape in Hev.
    destruct (state st) eqn:Hs; simpl in Hcur; try done.
    + destruct Hcur as (l & proto & props & Hcl & Hl).
      destruct (curKey st) as [key|] eqn:Hk.
      2:{ destruct a; by rewrite ?assignValue_dict_missing,
                                  ?enterContainer_dict_missing in Hev. }
      destruct a; run_assign Hev; injection Hev as <-; rewrite ?Hpush by done; done.
    + destruct Hcur as (l & elems & Hcl & Hl).
      destruct a; run_assign Hev; injection Hev as <-; rewrite ?Hpush by done; done.
  - rewrite acceptKey_run in Hev. case_decide; [|done].
    destruct (curKey st); [done|]. by injection Hev as <-.
  - rewrite leaveDict_run in Hev. case_decide; [|done]. injection Hev as <-.
    apply Hpop. auto.
  - rewrite leaveArray_run in Hev. case_decide; [|done]. injection Hev as <-.
    apply Hpop. auto.
Qed.

(** What the handlers do to the open containers: the opening of a
    container adds the container that it creates, a closing tag removes
    the innermost one, and nothing else changes them. *)
Lemma openContainers_handle content ev st st' :
  consistent st → handle content ev st = Ok (tt, st') →
  openContainers st'
  = match ev with
    | Assign DictOpen | Assign ArrayOpen => VRef (length (heap st)) :: openContainers st
    | DictClose | ArrayClose => tail (openContainers st)
    | _ => openContainers st
    end
  ∧ length (heap st) ≤ length (heap st')
  ∧ match ev with
    | Assign DictOpen | Assign ArrayOpen => length (heap st) < length (heap st')
    | _ => True
    end.
Proof.
  intros Hc Hev.
  pose proof (cons_cur _ Hc) as Hcur. pose proof (cons_stack _ Hc) as Hstack.
  pose proof (cons_nesting _ Hc) as Hnest.
  assert (state st ≠ ROOT_STATE → objStack st ≠ []) as Hos.
  { intros Hnr Heq. rewrite Heq in Hstack. apply Forall2_nil_inv_r in Hstack.
    unfold nesting_ok in Hnest. rewrite Hstack in Hnest.
    destruct (state st); try done; destruct Hnest as (ss' & Hss & _); by destruct ss'. }
  assert (state st = ROOT_STATE → objStack st = []) as Hroot.
  { intros Hs. rewrite Hs in Hnest. simpl in Hnest. rewrite Hnest in Hstack.
    by apply Forall2_nil_inv_l in Hstack. }
  assert (∀ s v st0, cur st0 = cur st → objStack st0 = objStack st →
            state st ≠ ROOT_STATE →
            openContainers (pushed s v st0) = v :: openContainers st) as Hpush.
  { intros s v st0 Hc0 Ho0 Hnr. unfold openContainers, pushed. simpl.
    rewrite Hc0, Ho0. by destruct (objStack st) as [|o os] eqn:Hobj; [destruct (Hos Hnr)|]. }
  assert (state st ≠ ROOT_STATE →
          openContainers (popped st) = tail (openContainers st)) as Hpop.
  { intros Hnr. unfold openContainers, popped. simpl.
    destruct (objStack st) as [|o [|o' os]] eqn:Hobj; [by destruct (Hos Hnr)|done..]. }
  destruct ev as [a|val| |]; simpl in Hev.
  - rewrite assign_shape in Hev.
    destruct (state st) eqn:Hs; simpl in Hcur; try done.
    + specialize (Hroot eq_refl).
      destruct a; run_assign Hev; injection Hev as <-;
        unfold openContainers, pushed; simpl; rewrite ?Hroot, ?length_app; simpl;
        (split; [done|split; [lia|done || lia]]).
    + destruct Hcur as (l & proto & props & Hcl & Hl).
      destruct (curKey st) as [key|] eqn:Hk.
      2:{ destruct a; by rewrite ?assignValue_dict_missing,
                                  ?enterContainer_dict_missing in Hev. }
      destruct a; run_assign Hev; injection Hev as <-; rewrite ?Hpush by done;
        (split; [done|]); simpl; rewrite ?length_insert, ?length_app; simpl;
        (split; [lia|done || lia]).
    + destruct Hcur as (l & elems & Hcl & Hl).
      destruct a; run_assign Hev; injection Hev as <-; rewrite ?Hpush by done;
        (split; [done|]); simpl; rewrite ?length_insert, ?length_app; simpl;
        (split; [lia|done || lia]).
  - rewrite acceptKey_run in Hev. case_decide; [|done].
    destruct (curKey st); [done|]. by injection Hev as <-.
  - rewrite leaveDict_run in Hev. case_decide as Hs; [|done]. injection Hev as <-.
    split; [|done]. apply Hpop. by rewrite Hs.
  - rewrite leaveArray_run in Hev. case_decide as Hs; [|done]. injection Hev as <-.
    split; [|done]. apply Hpop. by rewrite Hs.
Qed.

Lemma handle_consistent content ev : handler_consistent (handle content ev).
Proof.
  destruct ev as [a|val| |]; simpl.
  - rewrite assign_shape. destruct a;
      try (by apply assignValue_consistent);
      try (by apply enterContainer_consistent).
  - apply acceptKey_consistent.
  - apply leaveDict_consistent.
  - apply leaveArray_consistent.
Qed.

(** A consistent state with its open containers in the order of their
    creation stays so. *)
Definition keeps_nested (st st' : pstate) : Prop :=
  consistent st ∧ nested st → consistent st' ∧ nested st'.

#[global] Instance keeps_nested_refl : Reflexive keeps_nested.
Proof. intros st. unfold keeps_nested. auto. Qed.

#[global] Instance keeps_nested_trans : Transitive keeps_nested.
Proof. intros st1 st2 st3. unfold keeps_nested. auto. Qed.

Lemma nested_builder st st' : builder st' = builder st → keeps_nested st st'.
Proof.
  intros Hb [Hc Hn]. split; [by eapply consistent_builder|].
  destruct st, st'. unfold builder in Hb; simpl in Hb. by simplify_eq.
Qed.

Lemma advancePosBy_nested content k n : transition keeps_nested (advancePosBy content k n).
Proof.
  intros st [] st' Hrun.
  destruct (advancePosBy_run content k n st) as (st1 & Hrun1 & _ & Hb).
  rewrite Hrun in Hrun1. injection Hrun1 as <-. by apply nested_builder.
Qed.

Lemma advancePosTo_nested content k to : transition keeps_nested (advancePosTo content k to).
Proof.
  destruct k as [key|].
  - intros st [] st' Hrun.
    by apply (advancePosBy_nested content (Some key) (to - pos st) st tt).
  - intros st [] st' [= <-]. by apply nested_builder.
Qed.

Lemma decreasing_tail ls : decreasing ls → decreasing (tail ls).
Proof. destruct ls; simpl; [done|]. by intros [_ ?]. Qed.

Lemma handle_nested content ev : transition keeps_nested (handle content ev).
Proof.
  intros st [] st' Hrun [Hc (ls & Hopen & Hdec & Hin)].
  pose proof (handle_consistent content ev st Hc) as Hc'. rewrite Hrun in Hc'.
  split; [done|].
  destruct (openContainers_handle content ev st st' Hc Hrun) as (Hopen' & Hlen & Hnew).
  rewrite Hopen in Hopen'.
  assert (Forall (λ l, l < length (heap st')) ls) as Hin'.
  { eapply Forall_impl; [done|]. simpl. lia. }
  destruct ev as [a| | |].
  - assert (openContainers st' = VRef <$> ls
            ∨ (length (heap st) < length (heap st')
               ∧ openContainers st' = VRef <$> (length (heap st) :: ls))) as [Heq|[Hlt Heq]]
      by (destruct a; auto).
    + by exists ls.
    + exists (length (heap st) :: ls). split; [done|]. split; [by split|].
      by constructor.
  - by exists ls.
  - exists (tail ls). rewrite Hopen', fmap_tail. split; [done|].
    split; [by apply decreasing_tail|]. by apply Forall_tail.
  - exists (tail ls). rewrite Hopen', fmap_tail. split; [done|].
    split; [by apply decreasing_tail|]. by apply Forall_tail.
Qed.

Lemma nested_reached content k st :
  runs_to content k (initialState content) st → consistent st ∧ nested st.
Proof.
  intros Hruns.
  apply (runs_to_transition content k keeps_nested
           (advancePosBy_nested content k) (advancePosTo_nested content k)
           (handle_nested content) _ _ Hruns).
  split; [apply initialState_consistent|]. by exists [].
Qed.

(** While a container is open, the open containers are [cur], the
    containers between, and the value set in [ROOT_STATE], which is the
    outermost one. *)
Lemma openContainers_chain st :
  consistent st → state st ≠ ROOT_STATE →
  ∃ between, openContainers st = cur st :: between
             ∧ rootValue st = List.last between (cur st)
             ∧ length (stateStack st) = S (length between).
Proof.
  intros Hc Hnr. destruct (cons_chain _ Hc Hnr) as (rest & r & Heq).
  pose proof (Forall2_length _ _ _ (cons_stack _ Hc)) as Hlen.
  unfold openContainers, rootValue.
  assert (match state st with ROOT_STATE => cur st | _ => List.last (objStack st) (cur st) end
          = List.last (objStack st) (cur st)) as -> by (by destruct (state st)).
  destruct rest as [|c rest]; simpl in Heq.
  - injection Heq as Hcur Hobj. exists []. rewrite Hlen, Hobj. simpl. by rewrite Hcur.
  - injection Heq as Hcur Hobj. rewrite Hlen, Hobj.
    exists (rest ++ [r]).
    replace (rest ++ [r; r]) with ((rest ++ [r]) ++ [r]) by (by rewrite <- app_assoc).
    rewrite List.removelast_last, !List.last_last, !length_app. simpl.
    split; [|split; [done|lia]].
    by destruct (rest ++ [r]) eqn:Hr; [destruct rest|].
Qed.

Lemma open_state st : consistent st → (stateStack st ≠ [] ↔ state st ≠ ROOT_STATE).
Proof.
  intros Hc. pose proof (cons_nesting _ Hc) as Hn. pose proof (cons_cur _ Hc) as Hcur.
  unfold nesting_ok in Hn. destruct (state st); try done.
  all: destruct Hn as (ss' & -> & _); split; [done|]; by destruct ss'.
Qed.

(** C1, as amended.  When the loop reaches the end of the input, [parse]
    throws nothing, whatever containers are still open, and returns
    [cur] as it stands then.  While containers are open, [cur] is a
    container of the kind that [state] tells and the innermost of the
    open containers: every other open container was created before it,
    and the outermost one is the value set in [ROOT_STATE].  So [cur] is
    the value set in [ROOT_STATE] exactly when at most one container is
    open.  The open containers are what the handlers make them: the
    opening of a container adds the container it creates, a closing tag
    removes the innermost one, and nothing else changes them. *)
Theorem parse_at_end_returns_cur (content : jsstring) (k : option jsstring) (st : pstate) :
  runs_to content k (initialState content) st →
  length content ≤ pos st →
  parse content k = Some (Ok (cur st, heap st))
  ∧ length (openContainers st) = length (stateStack st)
  ∧ (stateStack st ≠ [] →
     frame_ok (heap st) (state st) (cur st)
     ∧ ∃ l ls, cur st = VRef l
               ∧ openContainers st = VRef l :: (VRef <$> ls)
               ∧ Forall (λ l', l' < l) ls
               ∧ rootValue st = List.last (VRef <$> ls) (VRef l))
  ∧ (cur st = rootValue st ↔ length (stateStack st) ≤ 1)
  ∧ (∀ ev st0 st1,
       consistent st0 → handle content ev st0 = Ok (tt, st1) →
       openContainers st1
       = match ev with
         | Assign DictOpen | Assign ArrayOpen =>
           VRef (length (heap st0)) :: openContainers st0
         | DictClose | ArrayClose => tail (openContainers st0)
         | _ => openContainers st0
         end).
Proof.
  intros Hruns Hend.
  destruct (nested_reached content k st Hruns) as [Hc (ls & Hopen & Hdec & _)].
  pose proof (open_state st Hc) as Hstate.
  assert (stateStack st ≠ [] →
          ∃ l ls', ls = l :: ls' ∧ cur st = VRef l
                   ∧ Forall (λ l', l' < l) ls'
                   ∧ rootValue st = List.last (VRef <$> ls') (VRef l)
                   ∧ length (stateStack st) = S (length ls')) as Hchain.
  { intros Hne%Hstate.
    destruct (openContainers_chain st Hc Hne) as (between & Heq & Hroot & Hlen).
    rewrite Hopen in Heq. destruct ls as [|l ls']; [done|]. injection Heq as Hcur Hbetween.
    destruct Hdec as [Hlt _]. exists l, ls'. subst between.
    rewrite length_fmap in Hlen. by rewrite <- Hcur in Hroot. }
  split_and!.
  - by apply parse_runs_to.
  - destruct (stateStack st) as [|s ss] eqn:Hss.
    + rewrite Hopen. assert (state st = ROOT_STATE) as Hs.
      { destruct (decide (state st = ROOT_STATE)) as [|Hnr]; [done|].
        by apply Hstate in Hnr. }
      pose proof (cons_stack _ Hc) as Hst. rewrite Hss in Hst.
      apply Forall2_nil_inv_l in Hst. unfold openContainers in Hopen.
      rewrite Hst in Hopen. by destruct ls.
    + destruct Hchain as (l & ls' & -> & _ & _ & _ & Hlen); [done|].
      rewrite Hopen, length_fmap. simpl in *. lia.
  - intros Hne. split; [apply Hc|].
    destruct (Hchain Hne) as (l & ls' & -> & Hcur & Hlt & Hroot & _).
    by exists l, ls'.
  - split.
    + intros Heq. destruct (decide (stateStack st = [])) as [->|Hne]; [simpl; lia|].
      destruct (Hchain Hne) as (l & ls' & -> & Hcur & Hlt & Hroot & Hlen).
      destruct ls' as [|l' ls'] using rev_ind; [simpl in Hlen; lia|].
      rewrite fmap_app in Hroot. simpl in Hroot. rewrite List.last_last in Hroot.
      apply Forall_app in Hlt as [_ Hlt]. apply Forall_inv in Hlt.
      rewrite Hcur, Hroot in Heq. injection Heq as Heq. simpl in Hlt. lia.
    + intros Hle. symmetry. by apply rootValue_one_open.
  - intros ev st0 st1 Hc0 Hev. by apply (openContainers_handle content ev st0 st1).
Qed.

(** Two arrays opened and never closed. *)
Definition two_open_arrays : jsstring := Eval cbv in str "<array><array>".

Definition two_open_arrays_end : pstate :=
  mkState 14 1 0 ARR_STATE (VRef 1) [ARR_STATE; ROOT_STATE] [VRef 0; VRef 0] None
          [OArray [VRef 1]; OArray []].

Definition one_open_array : pstate :=
  mkState 7 1 0 ARR_STATE (VRef 0) [ROOT_STATE] [VRef 0] None [OArray []].

Lemma two_open_arrays_runs :
  runs_to two_open_arrays None (initialState two_open_arrays) two_open_arrays_end.
Proof.
  apply (runs_on _ _ _ Continue one_open_array); [cbv; lia|vm_compute; reflexivity|].
  apply (runs_on _ _ _ Continue two_open_arrays_end); [cbv; lia|vm_compute; reflexivity|].
  apply runs_here.
Defined.

Lemma parse_at_end_returns_cur_witness :
  runs_to two_open_arrays None (initialState two_open_arrays) two_open_arrays_end
  ∧ length two_open_arrays ≤ pos two_open_arrays_end
  ∧ parse two_open_arrays None = Some (Ok (VRef 1, [OArray [VRef 1]; OArray []]))
  ∧ ¬ cur two_open_arrays_end = rootValue two_open_arrays_end.
Proof.
  split; [exact two_open_arrays_runs|]. split; [cbv; lia|].
  destruct (parse_at_end_returns_cur two_open_arrays None two_open_arrays_end
              two_open_arrays_runs ltac:(cbv; lia)) as (Hparse & _ & _ & Hroot & _).
  split; [exact Hparse|]. intros Heq. apply Hroot in Heq. cbv in Heq. lia.
Defined.

(** C1 as stated fails on [<array><array>]: the loop reaches the end of the
    input with two containers open, the value set in [ROOT_STATE] is the
    outer array (location 0, which holds the inner one), and [parse]
    returns the inner array (location 1, empty). *)
Lemma parse_open_containers_not_root :
  runs_to two_open_arrays None (initialState two_open_arrays) two_open_arrays_end
  ∧ length two_open_arrays ≤ pos two_open_arrays_end
  ∧ stateStack two_open_arrays_end ≠ []
  ∧ rootValue two_open_arrays_end = VRef 0
  ∧ parse two_open_arrays None = Some (Ok (VRef 1, [OArray [VRef 1]; OArray []]))
  ∧ parse two_open_arrays None
    ≠ Some (Ok (rootValue two_open_arrays_end, heap two_open_arrays_end)).
Proof.
  split; [exact two_open_arrays_runs|]. split; [cbv; lia|]. by repeat split.
Qed.

(** ** Keys and values in a dictionary *)

(** Whether an assignment creates an object: a date or a container.
    These are the values that the setter of [__proto__] takes. *)
Definition createsObject (a : assignment) : bool :=
  match a with
  | DateLeaf _ | DictOpen | ArrayOpen => true
  | _ => false
  end.

(** Every handler either leaves the pending key as it is, or is
    [acceptKey] setting it, or is an assignment in [DICT_STATE] clearing
    it. *)
Lemma handle_curKey content ev st st' :
  handle content ev st = Ok (tt, st') →
  curKey st' = curKey st
  ∨ (∃ val, ev = Key val ∧ curKey st = None ∧ curKey st' = Some val)
  ∨ (∃ a, ev = Assign a ∧ state st = DICT_STATE ∧ curKey st' = None).
Proof.
  destruct st as [p ln c s v ss os ck h]. intros Hrun.
  destruct ev as [a|val| |]; simpl in Hrun.
  - rewrite assign_shape in Hrun.
    destruct s;
      try (left; destruct a; unfold assignValue, enterContainer in Hrun; revert Hrun;
           run_handler; by intros [= <-]).
    destruct ck as [key|];
      [|destruct a; by rewrite ?assignValue_dict_missing, ?enterContainer_dict_missing in Hrun].
    right. right. exists a. split; [done|]. split; [done|].
    destruct a; unfold assignValue, enterContainer in Hrun; revert Hrun;
      run_handler; by intros [= <-].
  - rewrite acceptKey_run in Hrun. simpl in Hrun. case_decide; [|done].
    destruct ck; [done|]. injection Hrun as <-. right. left. by exists val.
  - left. unfold leaveDict in Hrun. revert Hrun. run_handler; by intros [= <-].
  - left. unfold leaveArray in Hrun. revert Hrun. run_handler; by intros [= <-].
Qed.

(** C3, as amended.  In [DICT_STATE] every leaf value and every opening
    of a container goes through the same rule: without a pending key it
    fails with "missing <key>"; with one, it performs [cur[curKey] = value]
    and sets [curKey] to [null].  The assignment makes the value the
    property [curKey] of the current dictionary and leaves its other
    properties and every other container alone, unless the key is
    [__proto__]: then no property is created, and the value becomes the
    prototype of the dictionary when it is an object (a date or a
    container) and is dropped otherwise.  The pending key is the one
    variable [curKey]: a handler that returns sets it to [null] only by
    such an assignment in [DICT_STATE], and a closing tag leaves it
    pending. *)
Theorem dictionary_assignment (content : jsstring) (st : pstate) :
  state st = DICT_STATE →
  (∀ a, curKey st = None →
        assign content a st
        = Throw (ParseError (pos st) (str "missing <key>") (substr content (pos st) 50)))
  ∧ (∀ a key l proto props,
        curKey st = Some key → cur st = VRef l → heap st !! l = Some (ODict proto props) →
        ∃ st' proto' props',
          assign content a st = Ok (tt, st')
          ∧ curKey st' = None
          ∧ heap st' !! l = Some (ODict proto' props')
          ∧ (key ≠ proto_key →
             props' = <[key := assigned a (heap st)]> props ∧ proto' = proto)
          ∧ (key = proto_key →
             props' = props
             ∧ proto' = if createsObject a then Some (assigned a (heap st)) else proto)
          ∧ (∀ l', l' ≠ l → l' < length (heap st) → heap st' !! l' = heap st !! l'))
  ∧ (∀ ev key st',
        curKey st = Some key → handle content ev st = Ok (tt, st') →
        (curKey st' = None ↔ ∃ a, ev = Assign a)
        ∧ (ev = DictClose → curKey st' = Some key))
  ∧ (∀ st0 ev key st',
        curKey st0 = Some key → handle content ev st0 = Ok (tt, st') →
        curKey st' = None →
        state st0 = DICT_STATE ∧ ∃ a, ev = Assign a).
Proof.
  intros Hs. split_and!.
  - intros a Hk. rewrite assign_shape.
    destruct a; by rewrite ?assignValue_dict_missing, ?enterContainer_dict_missing.
  - intros a key l proto props Hk Hc Hl.
    assert (l < length (heap st)) as Hlt by by eapply lookup_lt_Some.
    assert (∃ st', assign content a st = Ok (tt, st')
                   ∧ curKey st' = None
                   ∧ heap st' !! l
                     = Some (ODict (protoAssign key (assigned a (heap st)) proto)
                                   (propAssign key (assigned a (heap st)) props))
                   ∧ (∀ l', l' ≠ l → l' < length (heap st) →
                        heap st' !! l' = heap st !! l')) as (st' & Hrun & Hkey & Hl' & Hrest).
    { rewrite assign_shape.
      destruct a;
        (erewrite assignValue_dict by (done || by apply protoRefused_leaf))
        || (erewrite enterContainer_dict by done);
        eexists; (split; [done|]); (split; [done|]); simpl;
        (split; [by rewrite list_lookup_insert_eq by (rewrite ?length_app; lia)|]);
        intros l' Hne Hl'; rewrite list_lookup_insert_ne by done;
        by rewrite ?lookup_app_l by done. }
    exists st', (protoAssign key (assigned a (heap st)) proto),
      (propAssign key (assigned a (heap st)) props).
    split_and!; try done.
    + intros Hne. unfold propAssign, protoAssign. by rewrite !decide_False.
    + intros ->. unfold propAssign, protoAssign. rewrite !decide_True by done.
      by destruct a.
  - intros ev key st' Hk Hev.
    destruct (handle_curKey content ev st st' Hev)
      as [Heq|[(val & -> & Hnone & _)|(a & -> & _ & Hnone)]].
    + rewrite Heq, Hk. split; [|done]. split; [done|]. intros [a ->].
      destruct (handle_curKey content (Assign a) st st' Hev)
        as [_|[(val & ? & _)|(a' & _ & _ & Hnone)]]; [|done|].
      * exfalso. revert Hev. simpl. rewrite assign_shape.
        destruct a; unfold assignValue, enterContainer, mbind, M_bind, gets, newObject,
          setProperty, arrayPush, pushState, modify;
          rewrite Hs, Hk; simpl; repeat case_match; try done; intros [= <-];
          simpl in Heq; congruence.
      * congruence.
    + congruence.
    + split; [|done]. split; eauto.
  - intros st0 ev key st' Hk Hev Hnone.
    destruct (handle_curKey content ev st0 st' Hev)
      as [Heq|[(val & -> & Hk0 & _)|(a & -> & Hs0 & _)]]; [congruence|congruence|eauto].
Qed.

(** A dictionary with pending key [a]. *)
Definition pending_a : pstate :=
  mkState 0 1 0 DICT_STATE (VRef 0) [ROOT_STATE] [VRef 0] (Some (str "a")) [ODict None ∅].

Lemma dictionary_assignment_witness :
  state pending_a = DICT_STATE
  ∧ ∃ st' proto' props',
      assign [] (StringLeaf (str "b")) pending_a = Ok (tt, st')
      ∧ curKey st' = None
      ∧ heap st' !! 0 = Some (ODict proto' props')
      ∧ props' = <[str "a" := VString (str "b")]> ∅
      ∧ proto' = None.
Proof.
  split; [reflexivity|].
  destruct (proj1 (proj2 (dictionary_assignment [] pending_a eq_refl))
              (StringLeaf (str "b")) (str "a") 0 None ∅ eq_refl eq_refl eq_refl)
    as (st' & proto' & props' & Hrun & Hkey & Hl & Hown & _).
  exists st', proto', props'. destruct (Hown ltac:(discriminate)) as [Hprops Hproto].
  by repeat split.
Defined.

(** C3 as stated fails twice.  A value assigned while the pending key is
    [__proto__] is not stored under that key: the dictionary stays
    empty.  And the pending key is one variable, not one per dictionary:
    a key that is pending when a dictionary is closed is not cleared,
    although no value was assigned under it in that dictionary; the next
    value of the enclosing dictionary is stored under it. *)
Lemma pending_key_not_per_dictionary :
  parse (str "<dict><key>__proto__</key><string>x</string></dict>") None
  = Some (Ok (VRef 0, [ODict None ∅]))
  ∧ parse (str "<dict><key>a</key><dict><key>b</key></dict><string>x</string></dict>") None
    = Some (Ok (VRef 0,
                [ODict None (<[str "b" := VString (str "x")]> (<[str "a" := VRef 1]> ∅));
                 ODict None ∅])).
Proof. split; vm_compute; reflexivity. Qed.

(** C4, as amended.  [acceptKey] throws if and only if the state is not
    [DICT_STATE] ("unexpected <key>", in [ROOT_STATE] and in [ARR_STATE])
    or [curKey] is not [null] ("too many <key>"): a key was read before
    and no assignment has used it since, be it in the current dictionary
    or in one that has been closed, since closing a dictionary leaves
    [curKey] as it is.  Otherwise [acceptKey] sets [curKey] to the
    decoded text of the tag and changes nothing else. *)
Theorem acceptKey_fails_iff (content val : jsstring) (st : pstate) :
  ((∃ e, acceptKey content val st = Throw e)
   ↔ state st ≠ DICT_STATE ∨ curKey st ≠ None)
  ∧ (state st ≠ DICT_STATE →
     acceptKey content val st
     = Throw (ParseError (pos st) (str "unexpected <key>") (substr content (pos st) 50)))
  ∧ (state st = DICT_STATE → curKey st ≠ None →
     acceptKey content val st
     = Throw (ParseError (pos st) (str "too many <key>") (substr content (pos st) 50)))
  ∧ (state st = DICT_STATE → curKey st = None →
     ∃ st', acceptKey content val st = Ok (tt, st')
            ∧ curKey st' = Some val
            ∧ (pos st', line st', char st') = (pos st, line st, char st)
            ∧ (state st', cur st', stateStack st', objStack st', heap st')
              = (state st, cur st, stateStack st, objStack st, heap st))
  ∧ (state st = DICT_STATE →
     ∃ st', leaveDict content st = Ok (tt, st') ∧ curKey st' = curKey st).
Proof.
  rewrite acceptKey_run, leaveDict_run. unfold failure. split_and!.
  - case_decide as Hs.
    + destruct (curKey st) as [k|]; split; try (by eauto); [|by intros [|]].
      intros [e ?]. done.
    + split; eauto.
  - intros Hs. by rewrite decide_False.
  - intros Hs Hk. rewrite decide_True by done. by destruct (curKey st).
  - intros Hs Hk. rewrite decide_True by done. rewrite Hk. by eexists.
  - intros Hs. rewrite decide_True by done. by eexists.
Qed.

(** An open dictionary without a pending key. *)
Definition no_pending : pstate :=
  mkState 6 1 0 DICT_STATE (VRef 0) [ROOT_STATE] [VRef 0] None [ODict None ∅].

Lemma acceptKey_fails_iff_witness :
  state no_pending = DICT_STATE ∧ curKey no_pending = None
  ∧ ∃ st', acceptKey [] (str "bar") no_pending = Ok (tt, st')
           ∧ curKey st' = Some (str "bar").
Proof.
  split; [reflexivity|]. split; [reflexivity|].
  destruct (proj1 (proj2 (proj2 (proj2 (acceptKey_fails_iff [] (str "bar") no_pending))))
              eq_refl eq_refl) as (st' & Hrun & Hkey & _).
  by exists st'.
Defined.

(** C4 as stated fails on a key that follows a dictionary closed with a
    key pending: the first key of the second dictionary is rejected with
    "too many <key>", although no key is pending in that dictionary. *)
Lemma key_after_closed_dictionary_rejected :
  parse (str "<dict><key>k</key></dict><dict><key>c</key></dict>") None
  = Some (Throw (ParseError 43 (str "too many <key>") (str "</dict>"))).
Proof. vm_compute. reflexivity. Qed.

(** ** Leaf tags, step by step, without location tracking *)

Lemma starts_with_app_long (p s r : jsstring) :
  length p ≤ length s → starts_with p (s ++ r) = starts_with p s.
Proof.
  revert s. induction p as [|c p IH]; intros [|d s] Hlen; simpl in *; try done; [lia|].
  rewrite IH; [done|lia].
Qed.

Lemma indexOf_aux_shift (p s : jsstring) (i : nat) :
  indexOf_aux p s i = (fun j => i + j) <$> indexOf_aux p s 0.
Proof.
  revert i. induction s as [|c s IH]; intros i; simpl.
  - destruct (starts_with p []); simpl; [by rewrite Nat.add_0_r|done].
  - destruct (starts_with p (c :: s)); simpl; [by rewrite Nat.add_0_r|].
    rewrite (IH (S i)), (IH 1). destruct (indexOf_aux p s 0); simpl; [|done].
    f_equal. lia.
Qed.

Lemma indexOf_aux_unfold (p s : jsstring) (i : nat) :
  indexOf_aux p s i
  = if starts_with p s then Some i
    else match s with
         | [] => None
         | _ :: s' => indexOf_aux p s' (S i)
         end.
Proof. by destruct s. Qed.

Lemma indexOf_aux_app (d s r : jsstring) (i : nat) :
  indexOf_aux d (s ++ d) 0 = Some (length s) →
  indexOf_aux d (s ++ d ++ r) i = Some (i + length s).
Proof.
  revert i. induction s as [|c s IH]; intros i.
  - intros _. rewrite app_nil_l, indexOf_aux_unfold, starts_with_app.
    by rewrite Nat.add_0_r.
  - rewrite (indexOf_aux_unfold d ((c :: s) ++ d)).
    rewrite (indexOf_aux_unfold d ((c :: s) ++ d ++ r)).
    rewrite (app_assoc (c :: s) d r).
    rewrite (starts_with_app_long d ((c :: s) ++ d) r) by (rewrite length_app; lia).
    destruct (starts_with d ((c :: s) ++ d)); [done|]. simpl.
    rewrite (indexOf_aux_shift _ _ 1).
    destruct (indexOf_aux d (s ++ d) 0) as [j|] eqn:Hj; [|done]. simpl.
    intros [= ->]. rewrite <- app_assoc, IH by done. f_equal. lia.
Qed.

(** When the first occurrence of [d] in [s ++ d] is the one at the end,
    it is the first one after [pre] in [pre ++ s ++ d ++ r]. *)
Lemma indexOf_app (pre s d r : jsstring) :
  indexOf (s ++ d) d 0 = Some (length s) →
  indexOf (pre ++ s ++ d ++ r) d (length pre) = Some (length pre + length s).
Proof.
  unfold indexOf. rewrite drop_0, drop_app_length. simpl.
  intros H. rewrite Nat.min_l by (rewrite length_app; lia). by apply indexOf_aux_app.
Qed.

Lemma indexOf_drop_None (s d : jsstring) (from : nat) :
  from ≤ length s → indexOf (drop from s) d 0 = None → indexOf s d from = None.
Proof.
  unfold indexOf. rewrite drop_0. simpl. intros Hle H.
  rewrite indexOf_aux_shift, H. done.
Qed.

Section Steps.
Context (content : jsstring).

Lemma skipWhitespace_at_non_blank k st c :
  content !! pos st = Some c → isBlank c = false →
  skipWhitespace content k st = Ok (tt, st).
Proof.
  intros Hc Hnb. unfold skipWhitespace.
  pose proof (lookup_lt_Some _ _ _ Hc) as Hlt.
  destruct (length content) as [|n] eqn:Hlen; [lia|]. simpl.
  unfold mbind, M_bind, gets. rewrite bool_decide_eq_true_2 by lia.
  unfold charCodeAt. by rewrite Hc, Hnb.
Qed.

Lemma captureUntil_found st pre s d r :
  content = pre ++ s ++ d ++ r → pos st = length pre →
  indexOf (s ++ d) d 0 = Some (length s) →
  captureUntil content None d st
  = Ok (s, with_pos (length pre + length s + length d) st).
Proof.
  intros -> Hp Hd. unfold captureUntil, mbind, M_bind, gets. rewrite Hp.
  rewrite indexOf_app by done. unfold advancePosTo, modify, mret, M_ret. simpl.
  unfold substring. rewrite Nat.min_l, Nat.max_r by lia.
  rewrite drop_app_length.
  replace (length pre + length s - length pre) with (length s) by lia.
  by rewrite take_app_length.
Qed.

Lemma advanceUntil_found st pre s d r :
  content = pre ++ s ++ d ++ r → pos st = length pre →
  indexOf (s ++ d) d 0 = Some (length s) →
  advanceUntil content None d st
  = Ok (tt, with_pos (length pre + length s + length d) st).
Proof.
  intros -> Hp Hd. unfold advanceUntil, mbind, M_bind, gets. rewrite Hp.
  by rewrite indexOf_app by done.
Qed.

(** Without the closing delimiter in the rest of the input, the rest of
    the input is the text of the tag. *)
Lemma parseTagValue_unterminated k tag st :
  isClosed tag = false → pos st ≤ length content →
  indexOf content (str "</") (pos st) = None →
  match parseTagValue content k tag st with
  | Ok (val, st') =>
    escapeVal (drop (pos st) content) = Ok val
    ∧ pos st' = length content ∧ builder st' = builder st
  | Throw e => escapeVal (drop (pos st) content) = Throw e
  end.
Proof.
  intros Hopen Hle Hnone. unfold parseTagValue. rewrite Hopen.
  pose proof (proj1 (rel_unary st _ _ _)
                (captureUntil_rel content k k (str "</") st st (fun _ => False)
                   (agree_refl st) Hle)) as Hcap.
  unfold mbind, M_bind at 1.
  destruct (captureUntil content k (str "</") st) as [[val st1]|]; [|done].
  destruct Hcap as (Hb1 & Hp1 & Hval).
  unfold delimiterEnd in Hp1. unfold capturedText in Hval. rewrite Hnone in *.
  assert (pos st1 ≤ length content) as Hle1 by lia.
  pose proof (proj1 (rel_unary st1 _ _ _)
                (advanceUntil_rel content k k [GREATER_THAN] st1 st1 (fun _ => False)
                   (agree_refl st1) Hle1)) as Hadv.
  unfold mbind, M_bind.
  destruct (advanceUntil content k [GREATER_THAN] st1) as [[[] st2]|]; [|done].
  destruct Hadv as (Hb2 & Hp2).
  pose proof (delimiterEnd_bounds content [GREATER_THAN] _ Hle1) as Hbounds.
  subst val. unfold lift, substr_from.
  destruct (escapeVal (drop (pos st) content)); [|done].
  split; [done|]. split; [lia|congruence].
Qed.
End Steps.

Ltac norm_str :=
  repeat match goal with
         | |- context [str ?s] =>
           let x := eval vm_compute in (str s) in change (str s) with x
         end.

Definition string_open : jsstring := Eval cbv in str "<string>".

Lemma bind_run {A B} (m : M A) (f : A → M B) st a st' :
  m st = Ok (a, st') → (m ≫= f) st = f a st'.
Proof. unfold mbind, M_bind. by intros ->. Qed.

Lemma bind_throw {A B} (m : M A) (f : A → M B) st e :
  m st = Throw e → (m ≫= f) st = Throw e.
Proof. unfold mbind, M_bind. by intros ->. Qed.

(** One iteration on [<string>], without location tracking: the tag is
    read and the loop goes on with the text of the tag. *)
Lemma loopBody_string_open pre t st :
  pos st = length pre →
  loopBody (pre ++ string_open ++ t) None st
  = (val ← parseTagValue (pre ++ string_open ++ t) None (mkTag (str "string") false);
     acceptString (pre ++ string_open ++ t) val ;; mret Continue)
      (with_pos (length pre + 8) st).
Proof.
  intros Hp. set (content := pre ++ string_open ++ t).
  assert (length content = length pre + 8 + length t) as Hlen.
  { unfold content. rewrite !length_app. simpl. lia. }
  assert (content !! length pre = Some LESS_THAN) as Hlt.
  { unfold content. by rewrite lookup_app_r, Nat.sub_diag by lia. }
  assert (content !! (length pre + 1) = Some 115%N) as Hs.
  { unfold content. rewrite lookup_app_r by lia.
    by replace (length pre + 1 - length pre) with 1 by lia. }
  unfold loopBody, charCodeAt.
  erewrite bind_run by (apply (skipWhitespace_at_non_blank content None st LESS_THAN);
                        by rewrite ?Hp).
  erewrite bind_run by reflexivity. cbv beta zeta. rewrite Hp.
  rewrite bool_decide_eq_false_2 by lia.
  erewrite bind_run by reflexivity. rewrite Hlt.
  rewrite (bool_decide_eq_false_2 (Some LESS_THAN ≠ Some LESS_THAN)) by (by intros ?).
  erewrite bind_run by reflexivity.
  erewrite bind_run by reflexivity. cbv beta. simpl pos. rewrite Hp.
  rewrite bool_decide_eq_false_2 by lia.
  erewrite bind_run by reflexivity. rewrite Hs.
  destruct (decide (Some 115%N = Some QUESTION_MARK)) as [?|_]; [done|].
  destruct (decide (Some 115%N = Some EXCLAMATION_MARK)) as [?|_]; [done|].
  destruct (decide (Some 115%N = Some SLASH)) as [?|_]; [done|].
  unfold parseOpenTag.
  erewrite bind_run.
  2:{ erewrite bind_run.
      2:{ apply (captureUntil_found content _ (pre ++ [LESS_THAN]) (str "string")
                   [GREATER_THAN] t); [by unfold content; rewrite <- app_assoc| |done].
          simpl. rewrite length_app. simpl. lia. }
      rewrite bool_decide_eq_false_2 by done. reflexivity. }
  replace (with_pos _ (with_pos (length pre + 1) st)) with (with_pos (length pre + 8) st).
  2:{ unfold with_pos, with_location; simpl. f_equal. rewrite length_app. simpl. lia. }
  unfold dispatchTag. simpl name.
  change (trim (str "string")) with (str "string").
  destruct (decide (str "string" = str "dict")) as [?|_]; [done|].
  destruct (decide (str "string" = str "array")) as [?|_]; [done|].
  destruct (decide (str "string" = str "key")) as [?|_]; [done|].
  by destruct (decide (str "string" = str "string")) as [_|?].
Qed.

(** ** An unterminated leaf tag *)

(** The iteration on an unterminated [<string>], without location
    tracking. *)
Lemma loopBody_unterminated_string t val st :
  indexOf t (str "</") 0 = None → escapeVal t = Ok val →
  pos st = 0 → state st = ROOT_STATE →
  ∃ st', loopBody (string_open ++ t) None st = Ok (Continue, st')
         ∧ pos st' = length (string_open ++ t)
         ∧ cur st' = VString val ∧ heap st' = heap st.
Proof.
  intros Hnone Hesc Hp Hs.
  pose proof (loopBody_string_open [] t st Hp) as Hbody. simpl length in Hbody.
  rewrite app_nil_l in Hbody. rewrite Hbody. clear Hbody.
  set (content := string_open ++ t).
  pose proof (parseTagValue_unterminated content None (mkTag (str "string") false)
                (with_pos 8 st) eq_refl) as Htag.
  simpl pos in Htag.
  destruct (parseTagValue content None _ (with_pos 8 st)) as [[val' st1]|e] eqn:Hrun.
  - destruct Htag as (Hval & Hp1 & Hb1).
    + unfold content. rewrite length_app. simpl. lia.
    + apply indexOf_drop_None; [unfold content; rewrite length_app; simpl; lia|done].
    + change (drop 8 content) with t in Hval. rewrite Hesc in Hval. injection Hval as <-.
      erewrite bind_run by done.
      unfold builder in Hb1. simpl in Hb1.
      assert (state st1 = ROOT_STATE) as Hs1 by congruence.
      rewrite acceptString_shape.
      erewrite bind_run by (by apply assignValue_root).
      eexists. split; [done|]. simpl. split; [done|]. split; [done|congruence].
  - exfalso. assert (escapeVal (drop 8 content) = Throw e) as Hval.
    { apply Htag.
      - unfold content. rewrite length_app. simpl. lia.
      - apply indexOf_drop_None; [unfold content; rewrite length_app; simpl; lia|done]. }
    change (drop 8 content) with t in Hval. congruence.
Qed.

(** C6. An unterminated leaf tag is no error.  When the closing delimiter
    does not occur in the rest of the input, [parseTagValue] ends exactly
    like [escapeVal] on the rest of the input: it returns that text,
    unescaped, with [pos] at the end of the input.  The value is then
    accepted like that of any leaf: an input made of [<string>] and a text
    without the closing delimiter parses to that text, unescaped. *)
Theorem unterminated_leaf_absorbed :
  (∀ (content : jsstring) k tag st,
      isClosed tag = false → pos st ≤ length content →
      indexOf content (str "</") (pos st) = None →
      match parseTagValue content k tag st with
      | Ok (val, st') =>
        escapeVal (drop (pos st) content) = Ok val
        ∧ pos st' = length content ∧ builder st' = builder st
      | Throw e => escapeVal (drop (pos st) content) = Throw e
      end)
  ∧ (∀ (t val : jsstring) k,
        indexOf t (str "</") 0 = None → escapeVal t = Ok val →
        parse (string_open ++ t) k = Some (Ok (VString val, []))).
Proof.
  split; [apply parseTagValue_unterminated|].
  intros t val k Hnone Hesc. rewrite (parse_mode_irrelevant _ k None).
  set (content := string_open ++ t).
  destruct (loopBody_unterminated_string t val (initialState content) Hnone Hesc)
    as (st' & Hbody & Hp & Hcur & Hheap); [done..|].
  rewrite (parse_runs_to content None st').
  - by rewrite Hcur, Hheap.
  - eapply runs_on; [|exact Hbody|apply runs_here].
    unfold content. rewrite length_app. simpl. lia.
  - fold content in Hp. lia.
Qed.

Lemma unterminated_leaf_absorbed_witness :
  indexOf (str "Hello world") (str "</") 0 = None
  ∧ escapeVal (str "Hello world") = Ok (str "Hello world")
  ∧ parse (str "<string>Hello world") None = Some (Ok (VString (str "Hello world"), [])).
Proof.
  split; [reflexivity|]. split; [reflexivity|].
  exact (proj2 unterminated_leaf_absorbed (str "Hello world") (str "Hello world") None
           eq_refl eq_refl).
Defined.

(** ** Several values at the top level *)







(** ** Numbers in leaf tags *)

Definition isSign (c : chcode) : bool := ((c =? 43) || (c =? 45))%N.

(** An integer literal: an optional sign and one or more decimal digits,
    and nothing else. *)
Definition isIntegerLiteral (s : jsstring) : bool :=
  let digits := match s with
                | c :: s' => if isSign c then s' else s
                | [] => []
                end in
  match digits with
  | [] => false
  | _ :: _ => forallb isDigit digits
  end.

(** The integer that an integer literal denotes. *)
Definition integerValue (s : jsstring) : Z :=
  match s with
  | c :: s' =>
    if (c =? 45)%N then - Z.of_N (decimalValue s')
    else if (c =? 43)%N then Z.of_N (decimalValue s')
    else Z.of_N (decimalValue s)
  | [] => 0
  end.

Definition blank_prefix (ws : jsstring) : Prop :=
  Forall (fun c => isStrWhiteSpace c = true) ws.

Definition optional_sign (sign : jsstring) : Prop :=
  sign = [] ∨ sign = [43%N] ∨ sign = [45%N].

(** [s] begins, after white space and an optional sign, with a decimal
    digit. *)
Definition leadingInteger (s : jsstring) : Prop :=
  ∃ ws sign d rest,
    s = ws ++ sign ++ d :: rest ∧ blank_prefix ws ∧ optional_sign sign
    ∧ isDigit d = true.

(** [s] begins, after white space and an optional sign, with [Infinity],
    with a decimal digit, or with a dot and a decimal digit. *)
Definition leadingDecimal (s : jsstring) : Prop :=
  ∃ ws sign body,
    s = ws ++ sign ++ body ∧ blank_prefix ws ∧ optional_sign sign
    ∧ (starts_with (str "Infinity") body = true
       ∨ (∃ d rest, body = d :: rest ∧ isDigit d = true)
       ∨ (∃ d rest, body = 46%N :: d :: rest ∧ isDigit d = true)).

Lemma trimStart_split s :
  ∃ ws, s = ws ++ trimStart s ∧ blank_prefix ws
        ∧ match trimStart s with
          | c :: _ => isStrWhiteSpace c = false
          | [] => True
          end.
Proof.
  induction s as [|c s (ws & Hs & Hws & Hhd)]; simpl.
  - exists []. split; [done|]. split; [constructor|done].
  - destruct (isStrWhiteSpace c) eqn:Hc.
    + exists (c :: ws). split; [by rewrite Hs at 1|]. split; [by constructor|done].
    + exists []. split; [done|]. split; [constructor|done].
Qed.

Lemma trimStart_app ws r : blank_prefix ws → trimStart (ws ++ r) = trimStart r.
Proof. induction 1 as [|c ws Hc _ IH]; simpl; [done|]. by rewrite Hc. Qed.

Lemma isDigit_range c : isDigit c = true ↔ (48 ≤ c ≤ 57)%N.
Proof. unfold isDigit. rewrite andb_true_iff, !N.leb_le. done. Qed.

Lemma isDigit_not_blank c : isDigit c = true → isStrWhiteSpace c = false.
Proof.
  intros Hc%isDigit_range. unfold isStrWhiteSpace.
  repeat match goal with
         | |- context [(?a <=? ?b)%N] =>
           destruct (N.leb_spec a b); try lia
         | |- context [(?a =? ?b)%N] =>
           destruct (N.eqb_spec a b); try lia
         end; done.
Qed.

Lemma isDigit_not_sign c : isDigit c = true → (c =? 45)%N = false ∧ (c =? 43)%N = false.
Proof. intros Hc%isDigit_range. split; apply N.eqb_neq; lia. Qed.

Lemma digitValue_decimal c :
  digitValue 10 c = if isDigit c then Some (c - 48)%N else None.
Proof.
  unfold digitValue, isDigit.
  destruct ((48 <=? c)%N && (c <=? 57)%N) eqn:Hd.
  - apply andb_true_iff in Hd as [H1%N.leb_le H2%N.leb_le].
    by rewrite (proj2 (N.ltb_lt _ _)) by lia.
  - destruct ((97 <=? c)%N && (c <=? 122)%N) eqn:Hl.
    { apply andb_true_iff in Hl as [H1%N.leb_le H2%N.leb_le].
      by rewrite (proj2 (N.ltb_ge _ _)) by lia. }
    destruct ((65 <=? c)%N && (c <=? 90)%N) eqn:Hu; [|done].
    apply andb_true_iff in Hu as [H1%N.leb_le H2%N.leb_le].
    by rewrite (proj2 (N.ltb_ge _ _)) by lia.
Qed.

(** [readDigits] reads no digit exactly when its input does not begin with
    one. *)
Lemma readDigits_none acc s :
  (readDigits 10 acc s).1.2 = 0
  ↔ match s with
    | c :: _ => isDigit c = false
    | [] => True
    end.
Proof.
  destruct s as [|c s]; simpl; [done|]. rewrite digitValue_decimal.
  destruct (isDigit c); simpl; [|done].
  destruct (readDigits 10 _ s) as [[v n] r]. simpl. split; done.
Qed.

Lemma readDigits_all acc digits :
  forallb isDigit digits = true →
  readDigits 10 acc digits
  = (fold_left (fun acc c => acc * 10 + (c - 48))%N digits acc, length digits, []).
Proof.
  revert acc. induction digits as [|c digits IH]; intros acc; simpl; [done|].
  intros [Hc Hds]%andb_true_iff. rewrite digitValue_decimal, Hc.
  by rewrite IH.
Qed.

Lemma parseInt_decimal s :
  parseInt s 10
  = let '(neg, s1) := readSign (trimStart s) in
    let '(v, n, _) := readDigits 10 0 s1 in
    match n with
    | O => NaN
    | S _ => Num (toNumber neg (Z.of_N v) 1)
    end.
Proof. unfold parseInt. by destruct (readSign (trimStart s)). Qed.

Lemma readSign_split s :
  ∃ sign, s = sign ++ (readSign s).2 ∧ optional_sign sign
          ∧ (sign = [] → match s with
                         | c :: _ => isSign c = false
                         | [] => True
                         end).
Proof.
  unfold readSign, optional_sign, isSign.
  destruct s as [|c s]; [exists []; split; [done|split; [auto|done]]|].
  destruct (N.eqb_spec c 45) as [->|?];
    [exists [45%N]; split; [done|split; [auto|done]]|].
  destruct (N.eqb_spec c 43) as [->|?];
    [exists [43%N]; split; [done|split; [auto|done]]|].
  exists []. split; [done|]. split; [auto|done].
Qed.

(** [parseInt] yields [NaN] exactly on the texts that do not begin with an
    integer. *)
Lemma parseInt_NaN s : parseInt s 10 = NaN ↔ ¬ leadingInteger s.
Proof.
  rewrite parseInt_decimal.
  destruct (readSign (trimStart s)) as [neg s1] eqn:Hsign.
  pose proof (readDigits_none 0 s1) as Hnone.
  destruct (readDigits 10 0 s1) as [[v n] r]. simpl in Hnone.
  split.
  - intros Hnan (ws & sign & d & rest & -> & Hws & Hsg & Hd).
    assert (n = 0) as Hn by (by destruct n). apply Hnone in Hn.
    rewrite trimStart_app in Hsign by done.
    pose proof (isDigit_not_blank _ Hd) as Hnb.
    pose proof (isDigit_not_sign _ Hd) as [H45 H43].
    destruct Hsg as [-> | [-> | ->]]; simpl in Hsign.
    + rewrite Hnb in Hsign. simpl in Hsign. rewrite H45, H43 in Hsign.
      injection Hsign as <- <-. congruence.
    + injection Hsign as <- <-. congruence.
    + injection Hsign as <- <-. congruence.
  - intros Hnot. destruct n as [|n]; [done|]. exfalso. apply Hnot.
    destruct (trimStart_split s) as (ws & Hs & Hws & _).
    destruct (readSign_split (trimStart s)) as (sign & Ht & Hsg & _).
    rewrite Hsign in Ht. simpl in Ht.
    destruct s1 as [|d rest].
    { by assert (S n = 0) by (by apply Hnone). }
    exists ws, sign, d, rest. split; [by rewrite <- Ht|]. split; [done|]. split; [done|].
    destruct (isDigit d) eqn:Hd; [done|]. by assert (S n = 0) by (by apply Hnone).
Qed.

(** Whether an integer literal has the sign [-]. *)
Definition literalNegative (s : jsstring) : bool :=
  match s with
  | c :: _ => (c =? 45)%N
  | [] => false
  end.

(** The Number value for the integer that an integer literal denotes. *)
Definition integerNumber (s : jsstring) : double :=
  toNumber (literalNegative s) (Z.abs (integerValue s)) 1.

(** On an integer literal [parseInt] yields the Number value for the
    integer it denotes. *)
Lemma parseInt_literal s :
  isIntegerLiteral s = true → parseInt s 10 = Num (integerNumber s).
Proof.
  unfold isIntegerLiteral, integerNumber, integerValue, literalNegative, isSign.
  rewrite parseInt_decimal.
  destruct s as [|c s]; [done|].
  assert (∀ digits, digits ≠ [] → forallb isDigit digits = true →
            ∀ neg : bool, (let '(v, n, _) := readDigits 10 0 digits in
                    match n with
                    | O => NaN
                    | S _ => Num (toNumber neg (Z.of_N v) 1)
                    end)
                   = Num (toNumber neg (Z.of_N (decimalValue digits)) 1)) as Hdigits.
  { intros digits Hne Hall neg. rewrite readDigits_all by done.
    by destruct digits. }
  destruct (N.eqb_spec c 43) as [->|H43]; simpl.
  { destruct s as [|d s]; [done|]. intros Hall.
    rewrite (Hdigits (d :: s) ltac:(done) Hall false). do 2 f_equal. lia. }
  destruct (N.eqb_spec c 45) as [->|H45]; simpl.
  { destruct s as [|d s]; [done|]. intros Hall.
    rewrite (Hdigits (d :: s) ltac:(done) Hall true). do 2 f_equal. lia. }
  intros Hall. pose proof Hall as [Hc _]%andb_true_iff.
  rewrite (isDigit_not_blank _ Hc). simpl.
  rewrite (proj2 (N.eqb_neq _ _) H45), (proj2 (N.eqb_neq _ _) H43).
  rewrite (Hdigits (c :: s) ltac:(done) Hall false). do 2 f_equal. lia.
Qed.

(** The Number value for an integer below [2^53] in magnitude is that
    integer. *)
Lemma integerNumber_exact s :
  (Z.abs (integerValue s) < 2 ^ 53)%Z →
  integerOf (integerNumber s) = Some (integerValue s).
Proof.
  intros Hlt. unfold integerNumber.
  rewrite toNumber_small by lia. rewrite integerOf_dyadic by lia.
  f_equal. rewrite Z.mul_1_r.
  unfold integerValue, literalNegative in *. destruct s as [|c s]; [done|].
  destruct (N.eqb_spec c 45); [lia|]. destruct (c =? 43)%N; lia.
Qed.

(** What a decimal literal begins with, after its sign. *)
Definition decimalBody (body : jsstring) : Prop :=
  starts_with (str "Infinity") body = true
  ∨ (∃ d rest, body = d :: rest ∧ isDigit d = true)
  ∨ (∃ d rest, body = 46%N :: d :: rest ∧ isDigit d = true).

(** What [parseFloat] reads after the sign. *)
Definition floatBody (neg : bool) (s2 : jsstring) : number :=
  if starts_with (str "Infinity") s2 then Num (Infinity neg)
  else
    let '(ip, s3) := takeDigits s2 in
    let '(fp, s4) :=
      match s3 with
      | c :: s3' => if (c =? 46)%N then takeDigits s3' else ([], s3)
      | [] => ([], s3)
      end in
    match ip, fp with
    | [], [] => NaN
    | _, _ =>
      Num (decimal neg (decimalValue (ip ++ fp)) (readExponent s4 - Z.of_nat (length fp)))
    end.

Lemma parseFloat_unfold s :
  parseFloat s = floatBody (readSign (trimStart s)).1 (readSign (trimStart s)).2.
Proof. unfold parseFloat. by destruct (readSign (trimStart s)). Qed.

Lemma floatBody_NaN neg body : floatBody neg body = NaN ↔ ¬ decimalBody body.
Proof.
  unfold floatBody, decimalBody, takeDigits.
  destruct (starts_with (str "Infinity") body) eqn:Hinf.
  { split; [done|]. intros H. destruct H. by left. }
  destruct body as [|c r]; simpl.
  { split; [|done]. intros _ [?|[(? & ? & ? & _)|(? & ? & ? & _)]]; done. }
  destruct (isDigit c) eqn:Hc; simpl.
  { split.
    - by destruct ((_ : jsstring * jsstring)) as [? ?].
    - intros H. destruct H. right. left. eauto. }
  destruct (N.eqb_spec c 46) as [->|H46].
  - destruct r as [|d r]; simpl.
    { split; [|done]. intros _ [?|[(? & ? & ? & ?)|(? & ? & ? & ?)]]; by simplify_eq/=. }
    destruct (isDigit d) eqn:Hd.
    + split; [done|]. intros H. destruct H. right. right. eauto.
    + split; [|done].
      intros _ [?|[(? & ? & ? & ?)|(? & ? & ? & ?)]]; simplify_eq/=; congruence.
  - split; [|done].
    intros _ [?|[(? & ? & ? & ?)|(? & ? & ? & ?)]]; simplify_eq/=; congruence.
Qed.

Lemma decimalBody_head body :
  decimalBody body →
  ∃ c rest, body = c :: rest ∧ isStrWhiteSpace c = false ∧ isSign c = false.
Proof.
  intros [Hinf|[(d & rest & -> & Hd)|(d & rest & -> & Hd)]].
  - apply starts_with_take in Hinf. destruct body as [|c rest]; [done|].
    exists c, rest. split; [done|]. by injection Hinf as -> _.
  - exists d, rest. split; [done|]. split; [by apply isDigit_not_blank|].
    unfold isSign. destruct (isDigit_not_sign _ Hd) as [-> ->]. done.
  - by exists 46%N, (d :: rest).
Qed.

(** [parseFloat] yields [NaN] exactly on the texts that do not begin with a
    decimal literal. *)
Lemma parseFloat_NaN s : parseFloat s = NaN ↔ ¬ leadingDecimal s.
Proof.
  rewrite parseFloat_unfold, floatBody_NaN.
  split; intros Hnot Hlead; apply Hnot; clear Hnot.
  - destruct Hlead as (ws & sign & body & -> & Hws & Hsg & Hbody).
    rewrite trimStart_app by done.
    destruct (decimalBody_head _ Hbody) as (c & rest & -> & Hnb & Hns).
    unfold isSign in Hns. apply orb_false_iff in Hns as [H43 H45].
    destruct Hsg as [-> | [-> | ->]]; simpl.
    + rewrite Hnb. simpl. by rewrite H45, H43.
    + done.
    + done.
  - destruct (trimStart_split s) as (ws & Hs & Hws & _).
    destruct (readSign_split (trimStart s)) as (sign & Ht & Hsg & _).
    exists ws, sign, (readSign (trimStart s)).2.
    split; [|done]. rewrite Hs at 1. by rewrite Ht at 1.
Qed.

Lemma dispatchTag_integer content k tag :
  name tag = str "integer" →
  dispatchTag content k tag
  = (val ← parseTagValue content k tag;
     acceptInteger content (parseInt val 10) ;; mret Continue).
Proof.
  intros Hname. unfold dispatchTag. rewrite Hname.
  do 5 (rewrite decide_False by done). by rewrite decide_True.
Qed.

Lemma dispatchTag_real content k tag :
  name tag = str "real" →
  dispatchTag content k tag
  = (val ← parseTagValue content k tag;
     acceptReal content (parseFloat val) ;; mret Continue).
Proof.
  intros Hname. unfold dispatchTag. rewrite Hname.
  do 4 (rewrite decide_False by done). by rewrite decide_True.
Qed.

(** A number that is not [NaN] is assigned like any value: whatever
    happens then, it is not the failure to parse a number. *)
Lemma assignValue_not_parse_failure content val st msg :
  leaf val → str msg ≠ str "missing <key>" →
  (assignValue content val ;; mret Continue) st ≠ Throw (failure content msg st).
Proof.
  intros Hleaf Hmsg. unfold assignValue, failure. destruct st. run_handler;
    try match goal with
        | H : protoRefused _ _ _ _ = Some _ |- _ => by rewrite protoRefused_leaf in H
        end.
  intros [= Heq]. by rewrite Heq in Hmsg.
Qed.

Lemma acceptInteger_failure content n st :
  (acceptInteger content n ;; mret Continue) st
  = Throw (failure content "cannot parse integer" st)
  ↔ n = NaN.
Proof.
  rewrite acceptInteger_shape. split.
  - destruct n; [done|]; intros H; exfalso; revert H;
      by apply assignValue_not_parse_failure.
  - by intros ->.
Qed.

Lemma acceptReal_failure content n st :
  (acceptReal content n ;; mret Continue) st
  = Throw (failure content "cannot parse float" st)
  ↔ n = NaN.
Proof.
  rewrite acceptReal_shape. split.
  - destruct n; [done|]; intros H; exfalso; revert H;
      by apply assignValue_not_parse_failure.
  - by intros ->.
Qed.

(** C5, as amended.  The text of an [<integer>] leaf is read by
    [parseInt(text, 10)]: the leaf fails with "cannot parse integer"
    exactly when the text does not begin, after white space and an
    optional sign, with a decimal digit; what follows the digits is
    ignored.  An integer literal is read as the Number nearest to the
    integer it denotes, which is that integer when it is below [2^53] in
    magnitude: 9007199254740993 is read as 9007199254740992.  The text of
    a [<real>] leaf is read by [parseFloat]: the leaf fails with "cannot
    parse float" exactly when the text does not begin, after white space
    and an optional sign, with a digit, a dot and a digit, or
    [Infinity].  In particular [<integer>ab</integer>] and
    [<real>ab</real>] fail. *)
Theorem numeric_leaf_failure :
  (∀ (content : jsstring) k tag st val st',
      name tag = str "integer" →
      parseTagValue content k tag st = Ok (val, st') →
      (dispatchTag content k tag st
       = Throw (ParseError (pos st') (str "cannot parse integer")
                           (substr content (pos st') 50))
       ↔ ¬ leadingInteger val)
      ∧ (isIntegerLiteral val = true →
         dispatchTag content k tag st
         = (acceptInteger content (Num (integerNumber val)) ;; mret Continue) st'
         ∧ ((Z.abs (integerValue val) < 2 ^ 53)%Z →
            integerOf (integerNumber val) = Some (integerValue val))))
  ∧ (∀ (content : jsstring) k tag st val st',
        name tag = str "real" →
        parseTagValue content k tag st = Ok (val, st') →
        (dispatchTag content k tag st
         = Throw (ParseError (pos st') (str "cannot parse float")
                             (substr content (pos st') 50))
         ↔ ¬ leadingDecimal val))
  ∧ (∀ k, parse (str "<integer>ab</integer>") k
          = Some (Throw (ParseError 21 (str "cannot parse integer") []))
          ∧ parse (str "<real>ab</real>") k
            = Some (Throw (ParseError 15 (str "cannot parse float") []))
          ∧ parse (str "<integer>9007199254740993</integer>") k
            = Some (Ok (VNumber (Num (Finite false 1 53)), []))
          ∧ integerOf (Finite false 1 53) = Some 9007199254740992%Z).
Proof.
  split_and!.
  - intros content k tag st val st' Hname Hrun.
    rewrite dispatchTag_integer by done. erewrite bind_run by done. split.
    + by rewrite (acceptInteger_failure content _ st'), parseInt_NaN.
    + intros Hlit. rewrite parseInt_literal by done. split; [done|].
      apply integerNumber_exact.
  - intros content k tag st val st' Hname Hrun.
    rewrite dispatchTag_real by done. erewrite bind_run by done.
    by rewrite (acceptReal_failure content _ st'), parseFloat_NaN.
  - intros k. rewrite !(parse_mode_irrelevant _ k None).
    split_and!; vm_compute; reflexivity.
Qed.

Definition integer_12ab : jsstring := Eval cbv in str "<integer>12ab</integer>".

Lemma numeric_leaf_failure_witness :
  parseTagValue integer_12ab None (mkTag (str "integer") false)
                (with_pos 9 (initialState integer_12ab))
  = Ok (str "12ab", with_pos 23 (initialState integer_12ab))
  ∧ ¬ (dispatchTag integer_12ab None (mkTag (str "integer") false)
                   (with_pos 9 (initialState integer_12ab))
       = Throw (ParseError 23 (str "cannot parse integer") [])).
Proof.
  assert (parseTagValue integer_12ab None (mkTag (str "integer") false)
                        (with_pos 9 (initialState integer_12ab))
          = Ok (str "12ab", with_pos 23 (initialState integer_12ab))) as Hrun
    by reflexivity.
  split; [exact Hrun|].
  intros Hfail.
  apply (proj1 (proj1 (proj1 numeric_leaf_failure integer_12ab None
                         (mkTag (str "integer") false) _ _ _ eq_refl Hrun))) in Hfail.
  apply Hfail. exists [], [], 49%N, (str "2ab"). by repeat split; [constructor|left].
Defined.

(** C5 as stated fails on [<integer>12ab</integer>]: the text [12ab] is no
    integer literal, and the leaf is accepted, with the value 12. *)
Lemma integer_with_trailing_text_accepted :
  isIntegerLiteral (str "12ab") = false
  ∧ parse integer_12ab None = Some (Ok (VNumber (Num (Finite false 3 2)), []))
  ∧ integerOf (Finite false 3 2) = Some 12%Z.
Proof. split_and!; vm_compute; reflexivity. Qed.

(** ** Unescaping *)

Lemma starts_with_head (p s : jsstring) (c : chcode) :
  starts_with (c :: p) s = true → ∃ r, s = c :: r.
Proof.
  destruct s as [|d s]; simpl; [done|].
  intros [->%N.eqb_eq _]%andb_true_iff. eauto.
Qed.

(** A replacement whose matches all begin with [&] leaves a text without
    [&] as it is. *)
Lemma replace_without_ampersand matcher fn s :
  (∀ t m, matcher t = Some m → ∃ r, t = AMPERSAND :: r) →
  Forall (fun c => c ≠ AMPERSAND) s →
  replace matcher fn s = Ok s.
Proof.
  intros Hmatch. unfold replace. induction 1 as [|c s Hc _ IH]; simpl; [done|].
  destruct (matcher (c :: s)) as [m|] eqn:Hm.
  - destruct (Hmatch _ _ Hm) as [r [= -> _]]. done.
  - by rewrite IH.
Qed.

Lemma matchReference_ampersand prefix cls t m :
  matchReference (AMPERSAND :: prefix) cls t = Some m → ∃ r, t = AMPERSAND :: r.
Proof.
  unfold matchReference.
  destruct (starts_with (AMPERSAND :: prefix) t) eqn:Hp; [|done].
  intros _. by eapply starts_with_head.
Qed.

Lemma matchNamed_ampersand t m : matchNamed t = Some m → ∃ r, t = AMPERSAND :: r.
Proof.
  unfold matchNamed.
  destruct (starts_with amp_entity t) eqn:H1; [intros _; by eapply starts_with_head|].
  destruct (starts_with lt_entity t) eqn:H2; [intros _; by eapply starts_with_head|].
  destruct (starts_with gt_entity t) eqn:H3; [intros _; by eapply starts_with_head|].
  destruct (starts_with quot_entity t) eqn:H4; [intros _; by eapply starts_with_head|].
  destruct (starts_with apos_entity t) eqn:H5; [intros _; by eapply starts_with_head|].
  done.
Qed.

(** [escapeVal] leaves a text without [&] as it is. *)
Lemma escapeVal_without_ampersand s :
  Forall (fun c => c ≠ AMPERSAND) s → escapeVal s = Ok s.
Proof.
  intros Hs. unfold escapeVal.
  rewrite (replace_without_ampersand matchDecimal) by
    (done || apply matchReference_ampersand). simpl.
  rewrite (replace_without_ampersand matchHex) by
    (done || apply matchReference_ampersand). simpl.
  by rewrite (replace_without_ampersand matchNamed) by
    (done || apply matchNamed_ampersand).
Qed.

(** The examples of the tests, and of what the three successive
    replacements of [escapeVal] make of their own results. *)
Lemma escapeVal_examples :
  escapeVal (str "&lt;foo&gt;") = Ok (str "<foo>")
  ∧ escapeVal (str "&quot;&apos;") = Ok [34%N; 39%N]
  ∧ escapeVal (str "Ol&#225;") = Ok (str "Ol" ++ [225%N])
  ∧ escapeVal (str "&unknown;") = Ok (str "&unknown;")
  ∧ escapeVal (str "&amp;lt;") = Ok (str "&lt;")
  ∧ escapeVal (str "&#x1f600;") = Ok [55357%N; 56832%N]
  ∧ escapeVal (str "&#38;lt;") = Ok (str "<")
  ∧ escapeVal (str "&#1114112;") = Throw RangeError.
Proof. by repeat split. Qed.

(** C2.  [escapeVal] replaces the hexadecimal references written with the
    digits [0-9a-f] only: [&#xe1;] becomes U+00E1, and [&#xE1;], the same
    reference with an upper-case digit, is left as it is, by [escapeVal]
    and so by [parse]. *)
Theorem escapeVal_uppercase_hex_verbatim :
  escapeVal (str "&#xe1;") = Ok [225%N]
  ∧ escapeVal (str "&#xE1;") = Ok (str "&#xE1;")
  ∧ parse (str "<string>&#xE1;</string>") None
    = Some (Ok (VString (str "&#xE1;"), [])).
Proof. by repeat split. Qed.

(** * More of the parser *)

(** ** The location that is tracked *)

(** The number of line feeds of a text, and the text after its last line
    feed (the whole text when it has none). *)
Definition lineFeeds (s : jsstring) : nat :=
  length (filter (λ c, c = LINE_FEED) s).

Definition lastLine (s : jsstring) : jsstring :=
  reverse (takeWhile (λ c, negb (c =? LINE_FEED)%N) (reverse s)).

(** [line] and [char] after the characters [s], from [lc]. *)
Definition located (lc : nat * nat) (s : jsstring) : nat * nat :=
  foldl (λ lc c, if decide (c = LINE_FEED) then (S lc.1, 0) else (lc.1, S lc.2)) lc s.

Lemma located_app lc s1 s2 : located lc (s1 ++ s2) = located (located lc s1) s2.
Proof. apply foldl_app. Qed.

Lemma lineFeeds_snoc s c :
  lineFeeds (s ++ [c]) = lineFeeds s + (if decide (c = LINE_FEED) then 1 else 0).
Proof.
  unfold lineFeeds. rewrite filter_app, length_app. f_equal.
  rewrite filter_cons, filter_nil. by case_decide.
Qed.

Lemma lastLine_snoc s c :
  lastLine (s ++ [c]) = if decide (c = LINE_FEED) then [] else lastLine s ++ [c].
Proof.
  unfold lastLine. rewrite reverse_app. simpl.
  case_decide as Hc.
  - subst. by rewrite N.eqb_refl.
  - apply N.eqb_neq in Hc as ->. simpl. by rewrite reverse_cons.
Qed.

(** From the first line, the line is one more than the number of line
    feeds and the column is the length of the last line. *)
Lemma located_start s : located (1, 0) s = (1 + lineFeeds s, length (lastLine s)).
Proof.
  induction s as [|c s IH] using rev_ind; [done|].
  rewrite located_app, IH, lineFeeds_snoc, lastLine_snoc. simpl.
  case_decide; simpl; [f_equal; lia|].
  rewrite length_app. simpl. f_equal; lia.
Qed.

Lemma substring_split (s : jsstring) (a b c : nat) :
  a ≤ b ≤ c → substring s a c = substring s a b ++ substring s b c.
Proof.
  intros [Hab Hbc]. unfold substring.
  rewrite !Nat.max_r, !Nat.min_l by lia.
  replace (c - a) with ((b - a) + (c - b)) by lia.
  rewrite <- take_take_drop, drop_drop. by replace (a + (b - a)) with b by lia.
Qed.

Section Location.
Context (content : jsstring) (key : jsstring).

(** From [st] to [st'] the location has followed the characters passed. *)
Definition tracked (st st' : pstate) : Prop :=
  pos st ≤ pos st'
  ∧ (pos st' ≤ length content →
     (line st', char st')
     = located (line st, char st) (substring content (pos st) (pos st'))).

#[global] Instance tracked_refl : Reflexive tracked.
Proof.
  intros st. split; [done|]. intros _. unfold substring.
  by rewrite Nat.max_id, Nat.min_id, Nat.sub_diag.
Qed.

#[global] Instance tracked_trans : Transitive tracked.
Proof.
  intros st1 st2 st3 [Hle1 H1] [Hle2 H2]. split; [lia|]. intros Hlen.
  rewrite (substring_split content (pos st1) (pos st2) (pos st3)) by lia.
  rewrite located_app, <- H1 by lia. by apply H2.
Qed.

Lemma advancePosBy_loop_tracked n st :
  tracked st (advancePosBy_loop content n st).
Proof.
  revert st. induction n as [|n IH]; intros st; simpl; [reflexivity|].
  etrans; [|apply IH]. unfold advancePosBy_step, tracked, charCodeAt.
  case_decide as Hc; simpl; (split; [lia|]); intros Hlen.
  - unfold substring. rewrite Nat.max_r, Nat.min_l by lia.
    replace (S (pos st) - pos st) with 1 by lia.
    erewrite take_S_r; [|by rewrite lookup_drop, Nat.add_0_r].
    done.
  - unfold substring. rewrite Nat.max_r, Nat.min_l by lia.
    replace (S (pos st) - pos st) with 1 by lia.
    destruct (content !! pos st) as [c|] eqn:Hlook.
    + erewrite take_S_r; [|by rewrite lookup_drop, Nat.add_0_r].
      unfold located. simpl. rewrite decide_False; [done|congruence].
    + apply lookup_ge_None in Hlook. lia.
Qed.

Lemma advancePosBy_tracked n : transition tracked (advancePosBy content (Some key) n).
Proof. intros st [] st' [= <-]. apply advancePosBy_loop_tracked. Qed.

Lemma advancePosTo_tracked to : transition tracked (advancePosTo content (Some key) to).
Proof. intros st [] st' [= <-]. apply advancePosBy_loop_tracked. Qed.

(** The handlers leave the location alone. *)
Lemma handle_location ev st st' :
  handle content ev st = Ok (tt, st') →
  pos st' = pos st ∧ line st' = line st ∧ char st' = char st.
Proof.
  destruct st as [p l c s v ss os ck h]. intros Hrun.
  destruct ev as [a| | |]; simpl in Hrun.
  - rewrite assign_shape in Hrun.
    destruct a; unfold assignValue, enterContainer in Hrun; revert Hrun; run_handler;
      by intros [= <-].
  - unfold acceptKey in Hrun. revert Hrun. run_handler; by intros [= <-].
  - unfold leaveDict in Hrun. revert Hrun. run_handler; by intros [= <-].
  - unfold leaveArray in Hrun. revert Hrun. run_handler; by intros [= <-].
Qed.

Lemma handle_tracked ev : transition tracked (handle content ev).
Proof.
  intros st [] st' (Hp & Hl & Hc)%handle_location.
  destruct (tracked_refl st) as [_ Hrefl].
  split; [lia|]. rewrite Hp, Hl, Hc. intros Hlen. by apply Hrefl.
Qed.
End Location.

(** ** The containers that are built *)

(** A reference between [lo] and [hi], or a value that is no reference. *)
Definition value_within (lo hi : nat) (v : value) : Prop :=
  match v with
  | VRef l => lo < l < hi
  | _ => True
  end.

Definition object_within (lo hi : nat) (o : object) : Prop :=
  match o with
  | ODict proto props =>
    from_option (value_within lo hi) True proto
    ∧ map_Forall (λ _ v, value_within lo hi v) props
  | OArray elems => Forall (value_within lo hi) elems
  end.

(** Every reference held by a container, as a property, an element or
    the prototype, points to a container of the heap that was created
    after it. *)
Definition heap_ordered (h : list object) : Prop :=
  ∀ l o, h !! l = Some o → object_within l (length h) o.

(** A reference into the heap, or a value that is no reference. *)
Definition value_valid (h : list object) (v : value) : Prop :=
  match v with
  | VRef l => l < length h
  | _ => True
  end.

Definition heap_ok (st : pstate) : Prop :=
  heap_ordered (heap st) ∧ value_valid (heap st) (cur st)
  ∧ Forall (value_valid (heap st)) (objStack st).

Lemma value_within_mono lo hi hi' v : hi ≤ hi' → value_within lo hi v → value_within lo hi' v.
Proof. destruct v; simpl; lia. Qed.

Lemma object_within_mono lo hi hi' o :
  hi ≤ hi' → object_within lo hi o → object_within lo hi' o.
Proof.
  intros Hle. destruct o as [proto props|elems]; simpl.
  - intros [Hproto Hp]. split.
    + destruct proto; simpl in *; [|done]. by eapply value_within_mono.
    + eapply map_Forall_impl; [done|]. intros ? v. by apply value_within_mono.
  - intros He. eapply Forall_impl; [done|]. intros v. by apply value_within_mono.
Qed.

Lemma value_valid_mono h h' v : length h ≤ length h' → value_valid h v → value_valid h' v.
Proof. destruct v; simpl; lia. Qed.

Lemma heap_ordered_alloc h o :
  object_within (length h) (S (length h)) o → heap_ordered h → heap_ordered (h ++ [o]).
Proof.
  intros Ho Hh l o' Hl. rewrite length_app. simpl.
  apply lookup_app_Some in Hl as [Hl|[Hge Hl]].
  - eapply object_within_mono; [|by apply Hh]. lia.
  - apply list_lookup_singleton_Some in Hl as [Hl <-].
    replace l with (length h) by lia. eapply object_within_mono; [|done]. lia.
Qed.

Lemma heap_ordered_insert h l o :
  object_within l (length h) o → heap_ordered h → heap_ordered (<[l := o]> h).
Proof.
  intros Ho Hh l' o' Hl. rewrite length_insert.
  destruct (decide (l = l')) as [<-|Hne].
  - apply list_lookup_insert_Some in Hl as [(_ & <- & _)|[? _]]; done.
  - rewrite list_lookup_insert_ne in Hl by done. by apply Hh.
Qed.

Lemma object_within_propAssign lo hi key v proto props :
  value_within lo hi v → object_within lo hi (ODict proto props) →
  object_within lo hi (ODict (protoAssign key v proto) (propAssign key v props)).
Proof.
  intros Hv [Hproto Hp]. unfold propAssign, protoAssign. case_decide; simpl.
  - split; [|done]. by destruct v.
  - split; [done|]. by apply map_Forall_insert_2.
Qed.

Lemma object_within_push lo hi v elems :
  value_within lo hi v → object_within lo hi (OArray elems) →
  object_within lo hi (OArray (elems ++ [v])).
Proof. intros Hv He. simpl. apply Forall_app. split; [done|by constructor]. Qed.

Lemma heap_ok_intro st h v os :
  heap_ordered h → value_valid h v → Forall (value_valid h) os →
  heap st = h → cur st = v → objStack st = os → heap_ok st.
Proof. intros ??? <- <- <-. done. Qed.

Lemma Forall_value_valid_mono h h' vs :
  length h ≤ length h' → Forall (value_valid h) vs → Forall (value_valid h') vs.
Proof.
  intros Hle Hvs. eapply Forall_impl; [done|]. intros v. by apply value_valid_mono.
Qed.

Lemma value_valid_leaf h v : (∀ lo hi, value_within lo hi v) → value_valid h v.
Proof. intros Hv. specialize (Hv 0 0). destruct v; simpl in *; lia. Qed.

Section Containers.
Context (content : jsstring).

Ltac heap_ok_goal Hh Hstack :=
  split_and!; simpl; rewrite ?length_insert, ?length_app; simpl;
  first
  [ done
  | lia
  | by apply value_valid_leaf
  | apply heap_ordered_insert;
    [ first [apply object_within_propAssign | apply object_within_push];
      [|eapply object_within_mono; [|by eapply Hh]; rewrite ?length_app; simpl; lia]
    | first [done | by apply heap_ordered_alloc] ]
  | repeat (constructor; [simpl; rewrite ?length_insert, ?length_app; simpl; lia|]);
    eapply Forall_value_valid_mono; [|exact Hstack];
    rewrite ?length_insert, ?length_app; simpl; lia
  | idtac ].

(** A leaf value is stored. *)
Lemma assignValue_heap_ok val st st' :
  (∀ lo hi, value_within lo hi val) →
  heap_ok st → assignValue content val st = Ok (tt, st') → heap_ok st'.
Proof.
  intros Hval (Hh & Hcur & Hstack). destruct st as [p l c s v ss os ck h]. simpl in *.
  unfold assignValue. run_handler; intros [= <-]; heap_ok_goal Hh Hstack.
  all: apply Hval.
Qed.

(** A new, empty container is stored and becomes the current one. *)
Lemma enterContainer_heap_ok s o st st' :
  (∀ lo hi, object_within lo hi o) →
  heap_ok st → enterContainer content s o st = Ok (tt, st') → heap_ok st'.
Proof.
  intros Ho (Hh & Hcur & Hstack). destruct st as [p l c s0 v ss os ck h]. simpl in *.
  unfold enterContainer. run_handler; intros [= <-]; heap_ok_goal Hh Hstack.
  - by apply heap_ordered_alloc.
  - rewrite lookup_app_l in * by done.
    apply heap_ordered_insert; [|by apply heap_ordered_alloc].
    rewrite length_app. simpl. apply object_within_propAssign; [simpl; lia|].
    eapply object_within_mono; [|by eapply Hh]. lia.
  - rewrite lookup_app_l in * by done.
    apply heap_ordered_insert; [|by apply heap_ordered_alloc].
    rewrite length_app. simpl. apply object_within_push; [simpl; lia|].
    eapply object_within_mono; [|by eapply Hh]. lia.
  - by apply heap_ordered_alloc.
Qed.

Lemma popped_heap_ok st : heap_ok st → heap_ok (popped st).
Proof.
  intros (Hh & Hcur & Hstack). split_and!; simpl; [done| |].
  - destruct Hstack; simpl; done.
  - destruct Hstack; simpl; done.
Qed.

Lemma handle_heap_ok ev st st' :
  heap_ok st → handle content ev st = Ok (tt, st') → heap_ok st'.
Proof.
  intros Hok Hrun. destruct ev as [a| | |]; simpl in Hrun.
  - rewrite assign_shape in Hrun.
    destruct a;
      first [ eapply enterContainer_heap_ok; [|exact Hok|exact Hrun]
            | eapply assignValue_heap_ok; [|exact Hok|exact Hrun] ];
      intros lo hi; simpl; first [done | apply map_Forall_empty | constructor].
  - rewrite acceptKey_run in Hrun. case_decide; [|done].
    destruct (curKey st); [done|]. by injection Hrun as <-.
  - rewrite leaveDict_run in Hrun. case_decide; [|done].
    injection Hrun as <-. by apply popped_heap_ok.
  - rewrite leaveArray_run in Hrun. case_decide; [|done].
    injection Hrun as <-. by apply popped_heap_ok.
Qed.
End Containers.

(** ** The errors that are thrown *)

(** [raises E m]: whatever [m] throws is in [E]. *)
Definition raises {A} (E : error → Prop) (m : M A) : Prop :=
  ∀ st e, m st = Throw e → E e.

(** The messages of the calls of [fail], apart from the one for an
    unknown tag, which ends with the name of the tag. *)
Definition messages : list jsstring :=
  [str "missing <key>"; str "unexpected </dict>"; str "unexpected </array>";
   str "too many <key>"; str "unexpected <key>";
   str "cannot parse float"; str "cannot parse integer";
   str "expected <"; str "unexpected end of input"; str "unexpected closed tag"].

Section Errors.
Context (content : jsstring) (k : option jsstring).

(** The errors of [fail]: the excerpt is the text at the offset, and the
    message is one of the source. *)
Definition thrown_by_fail (e : error) : Prop :=
  match e with
  | ParseError offset msg excerpt =>
    excerpt = substr content offset 50
    ∧ (msg ∈ messages ∨ ∃ name, msg = str "unexpected opened tag " ++ name)
  | _ => True
  end.

Abbreviation raises' := (raises thrown_by_fail).

Lemma raises_ret {A} (a : A) : raises' (mret a).
Proof. by intros st e. Qed.

Lemma raises_bind {A B} (m : M A) (f : A → M B) :
  raises' m → (∀ a, raises' (f a)) → raises' (m ≫= f).
Proof.
  intros Hm Hf st e. unfold mbind, M_bind.
  destruct (m st) as [[a st1]|e'] eqn:Hrun.
  - apply Hf.
  - intros [= <-]. by eapply Hm.
Qed.

Lemma raises_gets {A} (f : pstate → A) : raises' (gets f).
Proof. by intros st e. Qed.

Lemma raises_modify f : raises' (modify f).
Proof. by intros st e. Qed.

Lemma raises_fail {A} msg : msg ∈ messages → raises' (fail (A := A) content msg).
Proof. intros Hmsg st e [= <-]. simpl. auto. Qed.

Lemma raises_when (c : bool) (m : M unit) : raises' m → raises' (when c m).
Proof. intros Hm. destruct c; [done|apply raises_ret]. Qed.

Lemma raises_escapeVal val : raises' (lift (escapeVal val)).
Proof.
  intros st e. unfold lift. destruct (escapeVal val) as [r|e'] eqn:Hr; [done|].
  intros [= <-]. by rewrite (escapeVal_error _ _ Hr).
Qed.

Lemma raises_advancePosBy n : raises' (advancePosBy content k n).
Proof. unfold advancePosBy. destruct k; apply raises_modify. Qed.

Lemma raises_advancePosTo to : raises' (advancePosTo content k to).
Proof.
  unfold advancePosTo. destruct k; [|apply raises_modify].
  apply raises_bind; [apply raises_gets|]. intros p. apply raises_modify.
Qed.

Lemma raises_setProperty c key v : raises' (setProperty c key v).
Proof.
  intros st e. unfold setProperty. repeat case_match; try (by intros [= <-]).
  intros [= <-].
  match goal with
  | H : protoRefused _ _ _ _ = Some _ |- _ =>
    by apply protoRefused_error in H as [-> | ->]
  end.
Qed.

Lemma raises_arrayPush c v : raises' (arrayPush c v).
Proof. intros st e. unfold arrayPush. repeat case_match; by intros [= <-]. Qed.

Lemma raises_newObject o : raises' (newObject o).
Proof. by intros st e. Qed.

Ltac in_messages := apply list_elem_of_In; vm_compute; tauto.

Ltac raises_step :=
  first [ apply raises_ret
        | apply raises_gets
        | apply raises_modify
        | apply raises_newObject
        | apply raises_setProperty
        | apply raises_arrayPush
        | apply raises_escapeVal
        | apply raises_advancePosBy
        | apply raises_advancePosTo
        | apply raises_fail; in_messages
        | apply raises_when
        | apply raises_bind; [|intros ?] ].

Lemma raises_handle ev : raises' (handle content ev).
Proof.
  destruct ev as [a| | |]; simpl.
  - rewrite assign_shape.
    destruct a; unfold assignValue, enterContainer, pushState;
      repeat first [raises_step | case_match].
  - unfold acceptKey. repeat first [raises_step | case_match].
  - unfold leaveDict. repeat first [raises_step | case_match].
  - unfold leaveArray. repeat first [raises_step | case_match].
Qed.

Lemma raises_skipWhitespace : raises' (skipWhitespace content k).
Proof.
  unfold skipWhitespace. generalize (length content) at 1.
  intros fuel. induction fuel as [|fuel IH]; simpl; [apply raises_ret|].
  apply raises_bind; [apply raises_gets|]. intros p.
  repeat case_match; repeat first [done | raises_step].
Qed.

Lemma raises_advanceIfStartsWith s : raises' (advanceIfStartsWith content k s).
Proof. unfold advanceIfStartsWith. repeat first [raises_step | case_match]. Qed.

Lemma raises_advanceUntil s : raises' (advanceUntil content k s).
Proof. unfold advanceUntil. repeat first [raises_step | case_match]. Qed.

Lemma raises_captureUntil s : raises' (captureUntil content k s).
Proof. unfold captureUntil. repeat first [raises_step | case_match]. Qed.

Lemma raises_parseOpenTag : raises' (parseOpenTag content k).
Proof.
  unfold parseOpenTag. apply raises_bind; [apply raises_captureUntil|]. intros r.
  case_bool_decide; apply raises_ret.
Qed.

Lemma raises_parseTagValue tag : raises' (parseTagValue content k tag).
Proof.
  unfold parseTagValue. destruct (isClosed tag); [apply raises_ret|].
  apply raises_bind; [apply raises_captureUntil|]. intros val.
  apply raises_bind; [apply raises_advanceUntil|]. intros _. apply raises_escapeVal.
Qed.

Lemma raises_acceptInteger n : raises' (acceptInteger content n).
Proof.
  destruct n as [|d].
  - intros st e [= <-]. split; [done|]. left. in_messages.
  - apply (raises_handle (Assign (IntegerLeaf d))).
Qed.

Lemma raises_acceptReal n : raises' (acceptReal content n).
Proof.
  destruct n as [|d].
  - intros st e [= <-]. split; [done|]. left. in_messages.
  - apply (raises_handle (Assign (RealLeaf d))).
Qed.

Lemma raises_dispatchTag tag : raises' (dispatchTag content k tag).
Proof.
  pose proof (raises_handle (Assign DictOpen)) as HenterDict.
  pose proof (raises_handle (Assign ArrayOpen)) as HenterArray.
  pose proof (raises_handle DictClose) as HleaveDict.
  pose proof (raises_handle ArrayClose) as HleaveArray.
  pose proof (fun val => raises_handle (Key val)) as Hkey.
  pose proof (fun val => raises_handle (Assign (StringLeaf val))) as Hstring.
  pose proof (fun val => raises_handle (Assign (DataLeaf val))) as Hdata.
  pose proof (fun val => raises_handle (Assign (DateLeaf val))) as Hdate.
  pose proof (fun val => raises_handle (Assign (BoolLeaf val))) as Hbool.
  simpl in *.
  unfold dispatchTag. pose proof raises_parseTagValue.
  pose proof raises_acceptInteger. pose proof raises_acceptReal.
  repeat case_decide;
    try (destruct (starts_with (str "plist") (name tag)));
    repeat first [ done | raises_step ].
  intros st e [= <-]. split; [done|]. right. by eexists.
Qed.

Lemma raises_closingTag : raises' (closingTag content k).
Proof.
  pose proof (raises_handle DictClose) as HleaveDict.
  pose proof (raises_handle ArrayClose) as HleaveArray.
  pose proof raises_skipWhitespace. pose proof raises_advanceIfStartsWith.
  pose proof raises_advanceUntil.
  simpl in *. unfold closingTag.
  repeat first [ done | raises_step | case_match ].
Qed.

Lemma raises_loopBody : raises' (loopBody content k).
Proof.
  pose proof raises_skipWhitespace. pose proof raises_advanceIfStartsWith.
  pose proof raises_advanceUntil. pose proof raises_closingTag.
  pose proof raises_parseOpenTag. pose proof raises_dispatchTag.
  unfold loopBody.
  repeat first [ done | raises_step | case_match ].
Qed.

Lemma raises_loop fuel st e :
  loop content k fuel st = Some (Throw e) → thrown_by_fail e.
Proof.
  revert st. induction fuel as [|fuel IH]; intros st; [done|]. simpl.
  case_bool_decide; [|done].
  destruct (loopBody content k st) as [[[] st1]|e'] eqn:Hbody; [done| |].
  - apply IH.
  - intros [= <-]. by eapply raises_loopBody.
Qed.
End Errors.

(** ** The loop *)

(** X1. [parse] returns or throws, whatever the input and the mode: the
    loop never runs for more iterations than the input has characters. *)
Theorem parse_returns_or_throws (content : jsstring) (k : option jsstring) :
  ∃ r, parse content k = Some r.
Proof. apply parse_terminates. Qed.

(** X2. An iteration of the loop that starts inside the input and does not
    throw leaves [pos] inside the input (the end included); one that
    continues has moved [pos] forward, and one that breaks has reached
    the end and has built nothing. *)
Theorem loopBody_progress (content : jsstring) (k : option jsstring)
    (st : pstate) (c : control) (st' : pstate) :
  pos st ≤ length content →
  loopBody content k st = Ok (c, st') →
  pos st' ≤ length content
  ∧ match c with
    | Continue => pos st < pos st'
    | Break => pos st' = length content ∧ builder st' = builder st
    end.
Proof.
  intros Hle Hrun. pose proof (loopBody_unary content k st Hle) as Hbody.
  rewrite Hrun in Hbody. destruct Hbody as (Hle' & _ & Hc).
  split; [done|]. destruct c; [|done]. split; [lia|apply Hc].
Qed.

Lemma loopBody_progress_witness :
  let content := str "<dict/> " in
  let st := initialState content in
  let st' := mkState 7 1 0 ROOT_STATE (VRef 0) [] [] None [ODict None ∅] in
  pos st ≤ length content ∧ loopBody content None st = Ok (Continue, st')
  ∧ pos st' ≤ length content ∧ pos st < pos st'.
Proof.
  intros content st st'.
  assert (pos st ≤ length content) as Hle by (vm_compute; lia).
  assert (loopBody content None st = Ok (Continue, st')) as Hrun by (vm_compute; reflexivity).
  split; [exact Hle|]. split; [exact Hrun|].
  exact (loopBody_progress content None st Continue st' Hle Hrun).
Defined.

(** X3. What [parse] throws is an error of [fail] or the [RangeError] of
    [String.fromCodePoint]: never a [TypeError] of an assignment to
    [null] or of a missing [push].  In an error of [fail] the excerpt is
    the text of the input at the offset, 50 characters at most, and the
    message is one of the ten fixed ones or the one for an unknown
    tag. *)
Theorem parse_throws_own_errors (content : jsstring) (k : option jsstring) (e : error) :
  parse content k = Some (Throw e) →
  e = RangeError
  ∨ ∃ offset msg,
      e = ParseError offset msg (substr content offset 50)
      ∧ (msg ∈ messages ∨ ∃ name, msg = str "unexpected opened tag " ++ name).
Proof.
  intros Hparse. pose proof (parse_throws_benign content k e Hparse) as Hbenign.
  unfold parse in Hparse.
  destruct (loop content k _ _) as [[st|e']|] eqn:Hloop; try done.
  injection Hparse as ->.
  pose proof (raises_loop content k _ _ _ Hloop) as Hfail.
  destruct e as [offset msg excerpt| | |]; try done; [|by left].
  right. destruct Hfail as [-> Hmsg]. by exists offset, msg.
Qed.

Lemma parse_throws_own_errors_witness :
  let content := str "<array><key>a</key>" in
  parse content None
  = Some (Throw (ParseError 19 (str "unexpected <key>") []))
  ∧ (ParseError 19 (str "unexpected <key>") [] = RangeError
     ∨ ∃ offset msg,
         ParseError 19 (str "unexpected <key>") []
         = ParseError offset msg (substr content offset 50)
         ∧ (msg ∈ messages ∨ ∃ name, msg = str "unexpected opened tag " ++ name)).
Proof.
  intros content.
  assert (parse content None
          = Some (Throw (ParseError 19 (str "unexpected <key>") []))) as H
    by (vm_compute; reflexivity).
  split; [exact H|]. exact (parse_throws_own_errors content None _ H).
Defined.

(** ** The open containers *)

(** X4. At every iteration of a run of [parse]: [pos] is inside the input
    (the end included); [stateStack] and [objStack] have the same
    length; the state is [ROOT_STATE] exactly when they are empty, and
    it is never the [undefined] of a [pop] of an empty stack; in
    [DICT_STATE] [cur] is a dictionary and in [ARR_STATE] it is an
    array, and so is each entry of [objStack] for the state saved with
    it. *)
Theorem open_containers_well_nested (content : jsstring) (k : option jsstring)
    (st : pstate) :
  runs_to content k (initialState content) st →
  pos st ≤ length content
  ∧ length (stateStack st) = length (objStack st)
  ∧ (state st = ROOT_STATE ↔ stateStack st = [])
  ∧ state st ≠ UNDEFINED_STATE
  ∧ (state st = DICT_STATE →
     ∃ l proto props, cur st = VRef l ∧ heap st !! l = Some (ODict proto props))
  ∧ (state st = ARR_STATE →
     ∃ l elems, cur st = VRef l ∧ heap st !! l = Some (OArray elems))
  ∧ Forall2 (frame_ok (heap st)) (stateStack st) (objStack st).
Proof.
  intros Hruns.
  destruct (runs_to_invariant content k _ _ Hruns (initialState_bounds content)
              (initialState_consistent content)) as [Hle [Hcur Hstack Hnest _]].
  split_and!; try done.
  - by eapply Forall2_length.
  - destruct (state st); simpl in Hnest; try done.
    all: destruct Hnest as (ss' & -> & _); split; [done|]; by destruct ss'.
  - intros Hs. by rewrite Hs in Hcur.
  - intros Hs. by rewrite Hs in Hcur.
  - intros Hs. by rewrite Hs in Hcur.
Qed.

Lemma open_containers_well_nested_witness :
  let content := str "<array><dict>" in
  let st := mkState 13 1 0 DICT_STATE (VRef 1) [ARR_STATE; ROOT_STATE] [VRef 0; VRef 0]
              None [OArray [VRef 1]; ODict None ∅] in
  runs_to content None (initialState content) st
  ∧ length (stateStack st) = length (objStack st)
  ∧ state st ≠ UNDEFINED_STATE.
Proof.
  intros content st.
  assert (runs_to content None (initialState content) st) as Hruns.
  { apply (runs_on content None _ Continue
             (mkState 7 1 0 ARR_STATE (VRef 0) [ROOT_STATE] [VRef 0] None [OArray []]));
      [vm_compute; lia|vm_compute; reflexivity|].
    apply (runs_on content None _ Continue st); [vm_compute; lia|vm_compute; reflexivity|].
    apply runs_here. }
  split; [exact Hruns|].
  pose proof (open_containers_well_nested content None st Hruns) as (_ & Hlen & _ & Hs & _).
  split; [exact Hlen|exact Hs].
Defined.

(** X5. Closing a container right after opening it, as for [<dict/>] and
    [<array/>], is the assignment of a new, empty container: the states,
    the stacks and the errors are those of the assignment of a leaf. *)
Theorem enter_leave_is_assignment (content : jsstring) (st : pstate) :
  (enterDict content ≫= λ _, leaveDict content) st
  = (newObject (ODict None ∅) ≫= assignValue content) st
  ∧ (enterArray content ≫= λ _, leaveArray content) st
    = (newObject (OArray []) ≫= assignValue content) st.
Proof.
  destruct st as [p l c s v ss os ck h].
  split.
  - unfold enterDict, leaveDict, dictState_enterDict, arrState_enterDict, assignValue.
    run_handler.
  - unfold enterArray, leaveArray, dictState_enterArray, arrState_enterArray, assignValue.
    run_handler.
Qed.

(** ** The scanner *)

(** X6. [skipWhitespace], from a position inside the input, moves [pos]
    over the blanks (space, tab, carriage return, line feed) that follow
    it and stops at the first character that is none, or at the end of
    the input; it never throws and changes nothing else but the
    location. *)
Theorem skipWhitespace_skips_blanks (content : jsstring) (k : option jsstring)
    (st : pstate) :
  pos st ≤ length content →
  ∃ st', skipWhitespace content k st = Ok (tt, st')
         ∧ pos st ≤ pos st' ≤ length content
         ∧ builder st' = builder st
         ∧ (∀ n, pos st ≤ n < pos st' → ∃ c, content !! n = Some c ∧ isBlank c = true)
         ∧ (pos st' < length content →
            ∃ c, content !! pos st' = Some c ∧ isBlank c = false).
Proof. apply skipWhitespace_unary. Qed.

Lemma skipWhitespace_skips_blanks_witness :
  let content := str "  <a>" in
  pos (initialState content) ≤ length content
  ∧ ∃ st', skipWhitespace content (Some []) (initialState content) = Ok (tt, st')
           ∧ pos st' = 2.
Proof.
  intros content.
  assert (pos (initialState content) ≤ length content) as Hle by (vm_compute; lia).
  split; [exact Hle|].
  destruct (skipWhitespace_skips_blanks content (Some []) (initialState content) Hle)
    as (st' & Hrun & _).
  exists st'. split; [exact Hrun|]. vm_compute in Hrun. by injection Hrun as <-.
Defined.

(** X7. [advanceIfStartsWith(str)], from a position inside the input,
    returns whether [str] occurs in the input at [pos]; if it does,
    [pos] is moved behind the occurrence, and otherwise [pos] stays.  It
    never throws and changes nothing else but the location. *)
Theorem advanceIfStartsWith_tests_prefix (content : jsstring) (k : option jsstring)
    (s : jsstring) (st : pstate) :
  pos st ≤ length content →
  ∃ b st', advanceIfStartsWith content k s st = Ok (b, st')
           ∧ (b = true ↔ occurs_at s content (pos st))
           ∧ pos st' = (if b then pos st + length s else pos st)
           ∧ pos st' ≤ length content
           ∧ builder st' = builder st.
Proof.
  intros Hle.
  pose proof (proj1 (rel_unary st _ _ _)
                (advanceIfStartsWith_rel content k k s st st (fun _ => False)
                   (agree_refl st) Hle)) as H.
  destruct (advanceIfStartsWith content k s st) as [[b st']|]; [|done].
  exists b, st'. by destruct H as (? & ? & ? & ?).
Qed.

Lemma advanceIfStartsWith_tests_prefix_witness :
  let content := str "dict>" in
  pos (initialState content) ≤ length content
  ∧ ∃ st', advanceIfStartsWith content None (str "dict") (initialState content)
           = Ok (true, st')
           ∧ pos st' = 4.
Proof.
  intros content.
  assert (pos (initialState content) ≤ length content) as Hle by (vm_compute; lia).
  split; [exact Hle|].
  destruct (advanceIfStartsWith_tests_prefix content None (str "dict")
              (initialState content) Hle) as (b & st' & Hrun & _).
  exists st'. vm_compute in Hrun. injection Hrun as <- <-. by split.
Defined.

(** ** The location, with and without tracking *)

Section Untracked.
Context (content : jsstring).

(** The line and the column are the same in both states. *)
Definition same_line (st st' : pstate) : Prop :=
  line st' = line st ∧ char st' = char st.

#[global] Instance same_line_refl : Reflexive same_line.
Proof. by intros st. Qed.

#[global] Instance same_line_trans : Transitive same_line.
Proof. intros st1 st2 st3 [? ?] [? ?]. split; congruence. Qed.

Lemma advancePosBy_same_line n : transition same_line (advancePosBy content None n).
Proof. by intros st [] st' [= <-]. Qed.

Lemma advancePosTo_same_line to : transition same_line (advancePosTo content None to).
Proof. by intros st [] st' [= <-]. Qed.

Lemma handle_same_line ev : transition same_line (handle content ev).
Proof. intros st [] st' (_ & ? & ?)%handle_location. by split. Qed.
End Untracked.

(** X8. With location tracking, [line] and [char] are the line and the
    column of [pos] at every iteration of a run of [parse]: [line] is
    one more than the number of line feeds passed, and [char] is the
    number of characters passed since the last of them, where the
    characters passed are those from the start (behind the byte order
    mark, if there is one) to [pos]. *)
Theorem location_tracked (content key : jsstring) (st : pstate) :
  runs_to content (Some key) (initialState content) st →
  let passed := substring content (pos (initialState content)) (pos st) in
  line st = 1 + lineFeeds passed ∧ char st = length (lastLine passed).
Proof.
  intros Hruns passed.
  destruct (runs_to_invariant content _ _ _ Hruns (initialState_bounds content)
              (initialState_consistent content)) as [Hle _].
  pose proof (runs_to_transition content (Some key) (tracked content)
                (advancePosBy_tracked content key) (advancePosTo_tracked content key)
                (handle_tracked content) _ _ Hruns) as [_ Hloc].
  specialize (Hloc Hle). simpl in Hloc. fold passed in Hloc.
  rewrite located_start in Hloc. by injection Hloc.
Qed.

(** A comment over two lines, and a dictionary on the third. *)
Definition three_lines : jsstring :=
  str "<!--" ++ [LINE_FEED] ++ str "-->" ++ [LINE_FEED] ++ str "  <dict/>".

Lemma location_tracked_witness :
  let st := mkState 18 3 9 ROOT_STATE (VRef 0) [] [] None [ODict None ∅] in
  runs_to three_lines (Some []) (initialState three_lines) st
  ∧ line st = 1 + 2 ∧ char st = length (str "  <dict/>").
Proof.
  intros st.
  assert (runs_to three_lines (Some []) (initialState three_lines) st) as Hruns.
  { apply (runs_on three_lines (Some []) _ Continue
             (mkState 8 2 3 ROOT_STATE VNull [] [] None []));
      [vm_compute; lia|vm_compute; reflexivity|].
    apply (runs_on three_lines (Some []) _ Continue st);
      [vm_compute; lia|vm_compute; reflexivity|].
    apply runs_here. }
  split; [exact Hruns|].
  exact (location_tracked three_lines [] st Hruns).
Defined.

(** X9. Without location tracking, [line] and [char] are never written:
    they are 1 and 0 at every iteration of a run of [parse]. *)
Theorem location_untracked (content : jsstring) (st : pstate) :
  runs_to content None (initialState content) st → line st = 1 ∧ char st = 0.
Proof.
  intros Hruns.
  exact (runs_to_transition content None same_line
           (advancePosBy_same_line content) (advancePosTo_same_line content)
           (handle_same_line content) _ _ Hruns).
Qed.

Lemma location_untracked_witness :
  let st := mkState 8 1 0 ROOT_STATE VNull [] [] None [] in
  runs_to three_lines None (initialState three_lines) st
  ∧ line st = 1 ∧ char st = 0.
Proof.
  intros st.
  assert (runs_to three_lines None (initialState three_lines) st) as Hruns.
  { apply (runs_on three_lines None _ Continue st);
      [vm_compute; lia|vm_compute; reflexivity|].
    apply runs_here. }
  split; [exact Hruns|].
  exact (location_untracked three_lines st Hruns).
Defined.

(** ** The value that is returned *)

Definition keeps_heap_ok (st st' : pstate) : Prop := heap_ok st → heap_ok st'.

#[global] Instance keeps_heap_ok_refl : Reflexive keeps_heap_ok.
Proof. intros st. unfold keeps_heap_ok. auto. Qed.

#[global] Instance keeps_heap_ok_trans : Transitive keeps_heap_ok.
Proof. intros st1 st2 st3. unfold keeps_heap_ok. auto. Qed.

Lemma heap_ok_builder st st' : builder st' = builder st → keeps_heap_ok st st'.
Proof.
  destruct st, st'. unfold builder; simpl. intros [= -> -> -> -> -> ->].
  by unfold keeps_heap_ok, heap_ok.
Qed.

Lemma advancePosBy_heap_ok content k n :
  transition keeps_heap_ok (advancePosBy content k n).
Proof.
  intros st [] st' Hrun.
  destruct (advancePosBy_run content k n st) as (st1 & Hrun1 & _ & Hb).
  rewrite Hrun in Hrun1. injection Hrun1 as <-. by apply heap_ok_builder.
Qed.

Lemma advancePosTo_heap_ok content k to :
  transition keeps_heap_ok (advancePosTo content k to).
Proof.
  destruct k as [key|].
  - intros st [] st' Hrun.
    by apply (advancePosBy_heap_ok content (Some key) (to - pos st) st tt).
  - intros st [] st' [= <-]. by apply heap_ok_builder.
Qed.

Lemma handle_keeps_heap_ok content ev : transition keeps_heap_ok (handle content ev).
Proof. intros st [] st' Hrun Hok. by eapply handle_heap_ok. Qed.

(** X10. In what [parse] returns, every reference points into the heap
    that comes with it, and every reference held by a container points
    to a container created after it: no container is missing, and no
    container holds itself, directly or through others. *)
Theorem parse_result_ordered (content : jsstring) (k : option jsstring)
    (v : value) (h : list object) :
  parse content k = Some (Ok (v, h)) →
  value_valid h v ∧ heap_ordered h.
Proof.
  unfold parse. destruct (loop content k _ _) as [[st|e]|] eqn:Hloop; try done.
  intros [= <- <-].
  destruct (loop_transition content k keeps_heap_ok
              (advancePosBy_heap_ok content k) (advancePosTo_heap_ok content k)
              (handle_keeps_heap_ok content) _ _ _ Hloop) as (Hh & Hcur & _); [|done].
  split_and!; simpl; [|done|done]. by intros l o.
Qed.

Lemma parse_result_ordered_witness :
  let content := str "<array><dict/><array/></array>" in
  let h := [OArray [VRef 1; VRef 2]; ODict None ∅; OArray []] in
  parse content None = Some (Ok (VRef 0, h))
  ∧ value_valid h (VRef 0) ∧ heap_ordered h.
Proof.
  intros content h.
  assert (parse content None = Some (Ok (VRef 0, h))) as H by (vm_compute; reflexivity).
  split; [exact H|]. exact (parse_result_ordered content None _ _ H).
Defined.

(** * The tags of a document, one by one

    Without location tracking; what [parse] returns is the same with
    it. *)

Lemma with_pos_pos st : with_pos (pos st) st = st.
Proof. by destruct st. Qed.

Lemma pos_with_pos p st : pos (with_pos p st) = p.
Proof. done. Qed.

Lemma with_pos_with_pos p q st : with_pos p (with_pos q st) = with_pos p st.
Proof. done. Qed.

(** [skipWhitespace] over the blanks [ws]. *)
Lemma skipWhitespace_loop_over fuel ws : ∀ pre c rest st,
  Forall (λ b, isBlank b = true) ws → isBlank c = false →
  pos st = length pre → length ws < fuel →
  skipWhitespace_loop (pre ++ ws ++ c :: rest) None fuel st
  = Ok (tt, with_pos (length pre + length ws) st).
Proof.
  revert fuel. induction ws as [|b ws IH]; intros fuel pre c rest st Hws Hnb Hp Hfuel.
  - destruct fuel as [|fuel]; [simpl in Hfuel; lia|]. simpl.
    unfold mbind, M_bind, gets, charCodeAt. rewrite Hp.
    rewrite bool_decide_eq_true_2 by (rewrite !length_app; simpl; lia).
    rewrite lookup_app_r, Nat.sub_diag by done. simpl. rewrite Hnb.
    by rewrite Nat.add_0_r, <- Hp, with_pos_pos.
  - destruct fuel as [|fuel]; [simpl in Hfuel; lia|]. simpl.
    apply Forall_cons in Hws as [Hb Hws].
    unfold mbind, M_bind, gets, charCodeAt. rewrite Hp.
    rewrite bool_decide_eq_true_2 by (rewrite !length_app; simpl; lia).
    rewrite lookup_app_r, Nat.sub_diag by done. simpl. rewrite Hb.
    pose proof (IH fuel (pre ++ [b]) c rest (with_pos (length pre + 1) st)) as IH'.
    rewrite <- app_assoc in IH'. simpl in IH'. rewrite Hp, IH'; try done.
    + rewrite length_app. simpl. rewrite with_pos_with_pos. do 3 f_equal. lia.
    + rewrite length_app. simpl. lia.
    + simpl in Hfuel. lia.
Qed.

Lemma skipWhitespace_over pre ws c rest st :
  Forall (λ b, isBlank b = true) ws → isBlank c = false →
  pos st = length pre →
  skipWhitespace (pre ++ ws ++ c :: rest) None st
  = Ok (tt, with_pos (length pre + length ws) st).
Proof.
  intros Hws Hnb Hp. unfold skipWhitespace.
  apply skipWhitespace_loop_over; try done.
  rewrite !length_app. simpl. lia.
Qed.

(** What the loop does behind [<], on the character [peek] that
    follows. *)
Definition tagBody (content : jsstring) (k : option jsstring) (peek : option chcode)
  : M control :=
  if decide (peek = Some QUESTION_MARK) then
    advancePosBy content k 1 ;; advanceUntil content k (str "?>") ;; mret Continue
  else if decide (peek = Some EXCLAMATION_MARK) then
    advancePosBy content k 1 ;;
    isComment ← advanceIfStartsWith content k (str "--");
    if (isComment : bool) then advanceUntil content k (str "-->") ;; mret Continue
    else advanceUntil content k [GREATER_THAN] ;; mret Continue
  else if decide (peek = Some SLASH) then closingTag content k
  else tag ← parseOpenTag content k; dispatchTag content k tag.

(** An iteration at [<], behind the blanks [ws]. *)
Lemma loopBody_tag content pre ws c rest st :
  content = pre ++ ws ++ LESS_THAN :: c :: rest →
  Forall (λ b, isBlank b = true) ws → pos st = length pre →
  loopBody content None st
  = tagBody content None (Some c) (with_pos (length pre + length ws + 1) st).
Proof.
  intros Hc Hws Hp.
  assert (length content = length pre + length ws + 2 + length rest) as Hlen.
  { rewrite Hc, !length_app. simpl. lia. }
  assert (content !! (length pre + length ws) = Some LESS_THAN) as Hlt.
  { rewrite Hc, app_assoc, lookup_app_r by (rewrite length_app; lia).
    by rewrite length_app, Nat.sub_diag. }
  assert (content !! (length pre + length ws + 1) = Some c) as Hpeek.
  { rewrite Hc, app_assoc, lookup_app_r by (rewrite length_app; lia).
    rewrite length_app. by replace (length pre + length ws + 1 - (length pre + length ws))
      with 1 by lia. }
  unfold loopBody, charCodeAt.
  erewrite bind_run.
  2:{ rewrite Hc. by apply skipWhitespace_over. }
  erewrite bind_run by reflexivity. cbv beta zeta. rewrite !pos_with_pos.
  rewrite bool_decide_eq_false_2 by lia.
  erewrite bind_run by reflexivity. rewrite Hlt.
  rewrite (bool_decide_eq_false_2 (Some LESS_THAN ≠ Some LESS_THAN)) by (by intros ?).
  erewrite bind_run by reflexivity.
  erewrite bind_run by reflexivity. cbv beta. unfold with_pos at 1. simpl pos.
  rewrite bool_decide_eq_false_2 by lia.
  erewrite bind_run by reflexivity. rewrite Hpeek. done.
Qed.

(** ** The tags and what they stand for *)

Inductive containerKind := KDict | KArray.
Inductive leafKind := KKey | KString | KReal | KInteger | KDate | KData.

Definition containerName (c : containerKind) : jsstring :=
  match c with
  | KDict => str "dict"
  | KArray => str "array"
  end.

Definition leafName (kd : leafKind) : jsstring :=
  match kd with
  | KKey => str "key"
  | KString => str "string"
  | KReal => str "real"
  | KInteger => str "integer"
  | KDate => str "date"
  | KData => str "data"
  end.

(** The tags that [parse] knows and the parts of a document that it
    passes over.  A closing tag may have blanks [pad] in front of its
    name and any text [junk] behind it; the closing tag of a leaf is any
    text [junk]. *)
Inductive token :=
| TOpen (c : containerKind)
| TClose (c : containerKind) (pad junk : jsstring)
| TEmpty (c : containerKind)
| TLeaf (kd : leafKind) (raw junk : jsstring)
| TEmptyLeaf (kd : leafKind)
| TBool (b : bool)
| TInstruction (body : jsstring)
| TComment (body : jsstring)
| TDeclaration (body : jsstring)
| TPlistOpen (attrs : jsstring)
| TPlistClose (pad junk : jsstring).

Definition render (tok : token) : jsstring :=
  match tok with
  | TOpen c => str "<" ++ containerName c ++ str ">"
  | TClose c pad junk => str "</" ++ pad ++ containerName c ++ junk ++ str ">"
  | TEmpty c => str "<" ++ containerName c ++ str "/>"
  | TLeaf kd raw junk => str "<" ++ leafName kd ++ str ">" ++ raw ++ str "</" ++ junk ++ str ">"
  | TEmptyLeaf kd => str "<" ++ leafName kd ++ str "/>"
  | TBool true => str "<true/>"
  | TBool false => str "<false/>"
  | TInstruction body => str "<?" ++ body ++ str "?>"
  | TComment body => str "<!--" ++ body ++ str "-->"
  | TDeclaration body => str "<!" ++ body ++ str ">"
  | TPlistOpen attrs => str "<plist" ++ attrs ++ str ">"
  | TPlistClose pad junk => str "</" ++ pad ++ str "plist" ++ junk ++ str ">"
  end.

Definition blanks (ws : jsstring) : Prop := Forall (λ b, isBlank b = true) ws.

(** The first occurrence of the delimiter [d] behind [body] is the one
    that follows it. *)
Definition delimited (body d : jsstring) : Prop :=
  indexOf (body ++ d) d 0 = Some (length body).

(** The texts inside a tag must not hold what ends them. *)
Definition valid (tok : token) : Prop :=
  match tok with
  | TClose _ pad junk | TPlistClose pad junk => blanks pad ∧ delimited junk (str ">")
  | TLeaf _ raw junk => delimited raw (str "</") ∧ delimited junk (str ">")
  | TInstruction body => delimited body (str "?>")
  | TComment body => delimited body (str "-->")
  | TDeclaration body =>
    starts_with (str "--") (body ++ str ">") = false ∧ delimited body (str ">")
  | TPlistOpen attrs => delimited attrs (str ">")
  | _ => True
  end.

#[global] Instance valid_dec tok : Decision (valid tok).
Proof. destruct tok; unfold valid, delimited, blanks; apply _. Defined.

Section Action.
Context (content : jsstring).

Definition accept (kd : leafKind) (val : jsstring) : M unit :=
  match kd with
  | KKey => acceptKey content val
  | KString => acceptString content val
  | KReal => acceptReal content (parseFloat val)
  | KInteger => acceptInteger content (parseInt val 10)
  | KDate => acceptDate content val
  | KData => acceptData content val
  end.

(** The calls of the handlers for a tag. *)
Definition action (tok : token) : M unit :=
  match tok with
  | TOpen KDict => enterDict content
  | TOpen KArray => enterArray content
  | TClose KDict _ _ => leaveDict content
  | TClose KArray _ _ => leaveArray content
  | TEmpty KDict => enterDict content ;; leaveDict content
  | TEmpty KArray => enterArray content ;; leaveArray content
  | TLeaf kd raw _ => val ← lift (escapeVal raw); accept kd val
  | TEmptyLeaf kd => accept kd []
  | TBool b => acceptBool content b
  | _ => mret tt
  end.
End Action.

(** ** Scanning, without location tracking *)

Lemma advanceIfStartsWith_run content pre t s st :
  content = pre ++ t → pos st = length pre →
  advanceIfStartsWith content None s st
  = if starts_with s t then Ok (true, with_pos (length pre + length s) st)
    else Ok (false, st).
Proof.
  intros -> Hp. unfold advanceIfStartsWith, mbind, M_bind, gets, substr. rewrite Hp.
  rewrite drop_app_length.
  destruct (starts_with s t) eqn:Hs.
  - apply starts_with_take in Hs. rewrite bool_decide_eq_true_2 by done.
    unfold advancePosBy, modify, mret, M_ret. simpl. by rewrite Hp.
  - rewrite bool_decide_eq_false_2; [done|].
    intros Hs'%starts_with_take. congruence.
Qed.

(** The tag read by [parseOpenTag] from the text [text] in front of [>]. *)
Definition tagOf (text : jsstring) : IParsedTag :=
  if bool_decide (last text = Some SLASH)
  then mkTag (trim (substring text 0 (length text - 1))) true
  else mkTag (trim text) false.

Lemma parseOpenTag_found content pre text rest st :
  content = pre ++ text ++ [GREATER_THAN] ++ rest → pos st = length pre →
  delimited text [GREATER_THAN] →
  parseOpenTag content None st
  = Ok (tagOf text, with_pos (length pre + length text + 1) st).
Proof.
  intros Hc Hp Hd. unfold parseOpenTag.
  erewrite bind_run by (by apply (captureUntil_found content st pre text [GREATER_THAN] rest)).
  unfold tagOf. by case_bool_decide.
Qed.

Lemma parseTagValue_found content pre raw junk rest n st :
  content = pre ++ raw ++ str "</" ++ junk ++ [GREATER_THAN] ++ rest →
  pos st = length pre →
  delimited raw (str "</") → delimited junk [GREATER_THAN] →
  parseTagValue content None (mkTag n false) st
  = lift (escapeVal raw) (with_pos (length pre + length raw + 2 + length junk + 1) st).
Proof.
  intros Hc Hp Hraw Hjunk. unfold parseTagValue. cbn [isClosed].
  erewrite bind_run.
  2:{ apply (captureUntil_found content st pre raw (str "</")
               (junk ++ [GREATER_THAN] ++ rest)); done. }
  cbv beta. erewrite bind_run.
  2:{ apply (advanceUntil_found content _ (pre ++ raw ++ str "</") junk
               [GREATER_THAN] rest); [| |done].
      - rewrite Hc. by rewrite <- !app_assoc.
      - simpl. rewrite !length_app. simpl. lia. }
  rewrite with_pos_with_pos. do 2 f_equal.
  rewrite !length_app. simpl. lia.
Qed.

(** ** The names of the tags *)

Lemma dispatchTag_container content k c closed :
  dispatchTag content k (mkTag (containerName c) closed)
  = match c with
    | KDict => enterDict content ;; when closed (leaveDict content) ;; mret Continue
    | KArray => enterArray content ;; when closed (leaveArray content) ;; mret Continue
    end.
Proof. by destruct c. Qed.

Lemma dispatchTag_leaf content k kd closed :
  dispatchTag content k (mkTag (leafName kd) closed)
  = (val ← parseTagValue content k (mkTag (leafName kd) closed);
     accept content kd val ;; mret Continue).
Proof. by destruct kd. Qed.

Lemma dispatchTag_bool content k (b : bool) :
  dispatchTag content k (mkTag (if b then str "true" else str "false") true)
  = (parseTagValue content k (mkTag (if b then str "true" else str "false") true) ;;
     acceptBool content b ;; mret Continue).
Proof. by destruct b. Qed.

Lemma dispatchTag_plist content k tag :
  starts_with (str "plist") (name tag) = true →
  dispatchTag content k tag = mret Continue.
Proof.
  intros Hp. unfold dispatchTag.
  repeat (case_decide as Hn; [by rewrite Hn in Hp|clear Hn]).
  by rewrite Hp.
Qed.

Lemma trimStart_app_head l1 l2 c :
  head l2 = Some c → isStrWhiteSpace c = false →
  trimStart (l1 ++ l2) = trimStart l1 ++ l2.
Proof.
  intros Hhd Hc. induction l1 as [|b l1 IH]; simpl.
  - destruct l2 as [|c' l2]; [done|]. injection Hhd as ->. simpl. by rewrite Hc.
  - by destruct (isStrWhiteSpace b).
Qed.

Lemma trim_plist x : trim (str "plist" ++ x) = str "plist" ++ trimEnd x.
Proof.
  unfold trim. change (trimStart (str "plist" ++ x)) with (str "plist" ++ x).
  unfold trimEnd. rewrite reverse_app.
  rewrite (trimStart_app_head _ _ 116%N) by done.
  by rewrite reverse_app, reverse_involutive.
Qed.

Lemma tagOf_plist attrs : starts_with (str "plist") (name (tagOf (str "plist" ++ attrs))) = true.
Proof.
  unfold tagOf. case_bool_decide as Hlast; cbn [name].
  - destruct attrs as [|a attrs _] using rev_ind; [done|].
    unfold substring. rewrite Nat.min_l, Nat.max_r by lia. rewrite Nat.sub_0_r, drop_0.
    rewrite (app_assoc (str "plist") attrs [a]), (length_app _ [a]).
    change (length [a]) with 1. rewrite Nat.add_sub, take_app_length.
    rewrite trim_plist. apply starts_with_app.
  - rewrite trim_plist. apply starts_with_app.
Qed.

Lemma delimited_cons c body d :
  starts_with d (c :: body ++ d) = false → delimited body d → delimited (c :: body) d.
Proof.
  unfold delimited, indexOf. rewrite !drop_0. simpl Nat.min. intros Hc Hd.
  change ((c :: body) ++ d) with (c :: body ++ d).
  rewrite indexOf_aux_unfold, Hc, indexOf_aux_shift, Hd. done.
Qed.

(** An iteration at an opening tag: the tag is read and dispatched. *)
Lemma loopBody_open content pre ws c text rest st :
  content = pre ++ ws ++ LESS_THAN :: c :: text ++ GREATER_THAN :: rest →
  Forall (λ b, isBlank b = true) ws → pos st = length pre →
  c ≠ QUESTION_MARK → c ≠ EXCLAMATION_MARK → c ≠ SLASH →
  delimited (c :: text) [GREATER_THAN] →
  loopBody content None st
  = dispatchTag content None (tagOf (c :: text))
      (with_pos (length pre + length ws + length text + 3) st).
Proof.
  intros Hc Hws Hp Hq He Hs Hd.
  rewrite (loopBody_tag content pre ws c (text ++ GREATER_THAN :: rest)) by done.
  unfold tagBody.
  rewrite decide_False by congruence. rewrite decide_False by congruence.
  rewrite decide_False by congruence.
  erewrite bind_run.
  2:{ apply (parseOpenTag_found content (pre ++ ws ++ [LESS_THAN]) (c :: text) rest);
        [|simpl; rewrite !length_app; simpl; lia|done].
      rewrite Hc. by rewrite <- !app_assoc. }
  rewrite with_pos_with_pos. do 2 f_equal. rewrite !length_app. simpl. lia.
Qed.

Lemma bind_cong_run {A B} (m m' : M A) (f : A → M B) st st' :
  m st = m' st' → (m ≫= f) st = (m' ≫= f) st'.
Proof. unfold mbind, M_bind. by intros ->. Qed.

Lemma bind_assoc_run {A B C} (m : M A) (f : A → M B) (g : B → M C) st :
  (m ≫= λ a, f a ≫= g) st = ((m ≫= f) ≫= g) st.
Proof. unfold mbind, M_bind. by destruct (m st) as [[a st']|e]. Qed.

Ltac same_pos :=
  match goal with
  | |- _ (with_pos ?a _) = _ (with_pos ?b _) =>
    replace a with b by (repeat first [rewrite length_app | progress simpl]; lia)
  end.

Lemma skipWhitespace_at content pre c rest st :
  content = pre ++ c :: rest → isBlank c = false → pos st = length pre →
  skipWhitespace content None st = Ok (tt, st).
Proof.
  intros -> Hnb Hp. apply (skipWhitespace_at_non_blank _ _ _ c); [|done].
  by rewrite Hp, lookup_app_r, Nat.sub_diag.
Qed.

Lemma starts_with_dashes body rest :
  starts_with (str "--") (body ++ str ">") = false →
  starts_with (str "--") (body ++ str ">" ++ rest) = false.
Proof.
  destruct body as [|b [|b' body]]; simpl.
  - done.
  - by rewrite !andb_false_r.
  - done.
Qed.

Ltac at_pos :=
  rewrite ?pos_with_pos; repeat first [rewrite length_app | progress simpl]; lia.
Ltac in_content Hc := rewrite Hc; cbn [render]; rewrite <- ?app_assoc; reflexivity.

Ltac prefix_step content Hc pre t :=
  erewrite bind_run;
  [|rewrite (advanceIfStartsWith_run content pre t) by (in_content Hc || at_pos);
    first [change (starts_with _ _) with false | change (starts_with _ _) with true];
    reflexivity].

(** The iteration on a closing tag of a container, for both kinds:
    blanks may stand in front of the name, and what follows the name
    is not looked at. *)
Lemma loopBody_close content pre ws c pad junk rest st :
  content = pre ++ ws ++ render (TClose c pad junk) ++ rest →
  Forall (λ b, isBlank b = true) ws → blanks pad → delimited junk (str ">") →
  pos st = length pre →
  loopBody content None st
  = (action content (TClose c pad junk) ≫= λ _, mret Continue)
      (with_pos (length pre + length ws + length (render (TClose c pad junk))) st).
Proof.
  intros Hc Hws Hpad Hjunk Hp. destruct c.
  - rewrite (loopBody_tag content pre ws SLASH (pad ++ str "dict" ++ junk ++ str ">" ++ rest))
      by (done || in_content Hc).
    change (tagBody content None (Some SLASH)) with (closingTag content None).
    unfold closingTag.
    erewrite bind_run by reflexivity. rewrite pos_with_pos, with_pos_with_pos.
    erewrite bind_run.
    2:{ rewrite Hc. cbn [render containerName].
        replace (pre ++ ws ++ (str "</" ++ pad ++ str "dict" ++ junk ++ str ">") ++ rest)
          with ((pre ++ ws ++ str "</") ++ pad ++ 100%N :: (str "ict" ++ junk ++ str ">" ++ rest))
          by (by rewrite <- !app_assoc).
        apply skipWhitespace_over; [done..|]. at_pos. }
    rewrite with_pos_with_pos.
    prefix_step content Hc (pre ++ ws ++ str "</" ++ pad) (str "dict" ++ junk ++ str ">" ++ rest).
    cbv iota beta.
    prefix_step content Hc (pre ++ ws ++ str "</" ++ pad) (str "dict" ++ junk ++ str ">" ++ rest).
    cbv iota beta. rewrite with_pos_with_pos.
    erewrite bind_run
      by (apply (advanceUntil_found content _ (pre ++ ws ++ str "</" ++ pad ++ str "dict")
                   junk [GREATER_THAN] rest);
          [in_content Hc|at_pos|done]).
    rewrite with_pos_with_pos. cbn [action]. by same_pos.
  - rewrite (loopBody_tag content pre ws SLASH (pad ++ str "array" ++ junk ++ str ">" ++ rest))
      by (done || in_content Hc).
    change (tagBody content None (Some SLASH)) with (closingTag content None).
    unfold closingTag.
    erewrite bind_run by reflexivity. rewrite pos_with_pos, with_pos_with_pos.
    erewrite bind_run.
    2:{ rewrite Hc. cbn [render containerName].
        replace (pre ++ ws ++ (str "</" ++ pad ++ str "array" ++ junk ++ str ">") ++ rest)
          with ((pre ++ ws ++ str "</") ++ pad ++ 97%N :: (str "rray" ++ junk ++ str ">" ++ rest))
          by (by rewrite <- !app_assoc).
        apply skipWhitespace_over; [done..|]. at_pos. }
    rewrite with_pos_with_pos.
    prefix_step content Hc (pre ++ ws ++ str "</" ++ pad) (str "array" ++ junk ++ str ">" ++ rest).
    cbv iota beta.
    prefix_step content Hc (pre ++ ws ++ str "</" ++ pad) (str "array" ++ junk ++ str ">" ++ rest).
    cbv iota beta.
    prefix_step content Hc (pre ++ ws ++ str "</" ++ pad) (str "array" ++ junk ++ str ">" ++ rest).
    cbv iota beta. rewrite with_pos_with_pos.
    erewrite bind_run
      by (apply (advanceUntil_found content _ (pre ++ ws ++ str "</" ++ pad ++ str "array")
                   junk [GREATER_THAN] rest);
          [in_content Hc|at_pos|done]).
    rewrite with_pos_with_pos. cbn [action]. by same_pos.
Qed.

(** The iterations on what [parse] passes over. *)
Lemma loopBody_instruction content pre ws body rest st :
  content = pre ++ ws ++ render (TInstruction body) ++ rest →
  Forall (λ b, isBlank b = true) ws → delimited body (str "?>") →
  pos st = length pre →
  loopBody content None st
  = Ok (Continue, with_pos (length pre + length ws + length (render (TInstruction body))) st).
Proof.
  intros Hc Hws Hd Hp.
  rewrite (loopBody_tag content pre ws QUESTION_MARK (body ++ str "?>" ++ rest))
    by (done || in_content Hc).
  unfold tagBody. rewrite decide_True by done.
  erewrite bind_run by reflexivity. rewrite pos_with_pos, with_pos_with_pos.
  erewrite bind_run
    by (apply (advanceUntil_found content _ (pre ++ ws ++ str "<?") body (str "?>") rest);
        [in_content Hc|at_pos|done]).
  rewrite with_pos_with_pos. unfold mret, M_ret. do 3 f_equal.
  rewrite !length_app. simpl. rewrite !length_app. simpl. lia.
Qed.

Lemma loopBody_comment content pre ws body rest st :
  content = pre ++ ws ++ render (TComment body) ++ rest →
  Forall (λ b, isBlank b = true) ws → delimited body (str "-->") →
  pos st = length pre →
  loopBody content None st
  = Ok (Continue, with_pos (length pre + length ws + length (render (TComment body))) st).
Proof.
  intros Hc Hws Hd Hp.
  rewrite (loopBody_tag content pre ws EXCLAMATION_MARK (str "--" ++ body ++ str "-->" ++ rest))
    by (done || in_content Hc).
  unfold tagBody. rewrite decide_False by done. rewrite decide_True by done.
  erewrite bind_run by reflexivity. rewrite pos_with_pos, with_pos_with_pos.
  prefix_step content Hc (pre ++ ws ++ str "<!") (str "--" ++ body ++ str "-->" ++ rest).
  cbv iota beta. rewrite with_pos_with_pos.
  erewrite bind_run
    by (apply (advanceUntil_found content _ (pre ++ ws ++ str "<!--") body (str "-->") rest);
        [in_content Hc|at_pos|done]).
  rewrite with_pos_with_pos. unfold mret, M_ret. do 3 f_equal.
  rewrite !length_app. simpl. rewrite !length_app. simpl. lia.
Qed.

Lemma loopBody_declaration content pre ws body rest st :
  content = pre ++ ws ++ render (TDeclaration body) ++ rest →
  Forall (λ b, isBlank b = true) ws →
  starts_with (str "--") (body ++ str ">") = false → delimited body (str ">") →
  pos st = length pre →
  loopBody content None st
  = Ok (Continue,
        with_pos (length pre + length ws + length (render (TDeclaration body))) st).
Proof.
  intros Hc Hws Hdash Hd Hp.
  rewrite (loopBody_tag content pre ws EXCLAMATION_MARK (body ++ str ">" ++ rest))
    by (done || in_content Hc).
  unfold tagBody. rewrite decide_False by done. rewrite decide_True by done.
  erewrite bind_run by reflexivity. rewrite pos_with_pos, with_pos_with_pos.
  erewrite bind_run.
  2:{ rewrite (advanceIfStartsWith_run content (pre ++ ws ++ str "<!") (body ++ str ">" ++ rest))
        by (in_content Hc || at_pos).
      rewrite starts_with_dashes by done. reflexivity. }
  cbv iota beta.
  erewrite bind_run
    by (apply (advanceUntil_found content _ (pre ++ ws ++ str "<!") body (str ">") rest);
        [in_content Hc|at_pos|done]).
  rewrite with_pos_with_pos. unfold mret, M_ret. do 3 f_equal.
  rewrite !length_app. simpl. rewrite !length_app. simpl. lia.
Qed.

Lemma loopBody_plist_close content pre ws pad junk rest st :
  content = pre ++ ws ++ render (TPlistClose pad junk) ++ rest →
  Forall (λ b, isBlank b = true) ws → blanks pad → delimited junk (str ">") →
  pos st = length pre →
  loopBody content None st
  = Ok (Continue,
        with_pos (length pre + length ws + length (render (TPlistClose pad junk))) st).
Proof.
  intros Hc Hws Hpad Hjunk Hp.
  rewrite (loopBody_tag content pre ws SLASH (pad ++ str "plist" ++ junk ++ str ">" ++ rest))
    by (done || in_content Hc).
  change (tagBody content None (Some SLASH)) with (closingTag content None).
  unfold closingTag.
  erewrite bind_run by reflexivity. rewrite pos_with_pos, with_pos_with_pos.
  erewrite bind_run.
  2:{ rewrite Hc. cbn [render].
      replace (pre ++ ws ++ (str "</" ++ pad ++ str "plist" ++ junk ++ str ">") ++ rest)
        with ((pre ++ ws ++ str "</") ++ pad ++ 112%N :: (str "list" ++ junk ++ str ">" ++ rest))
        by (by rewrite <- !app_assoc).
      apply skipWhitespace_over; [done..|]. at_pos. }
  rewrite with_pos_with_pos.
  prefix_step content Hc (pre ++ ws ++ str "</" ++ pad) (str "plist" ++ junk ++ str ">" ++ rest).
  cbv iota beta. rewrite with_pos_with_pos.
  erewrite bind_run
    by (apply (advanceUntil_found content _ (pre ++ ws ++ str "</" ++ pad ++ str "plist")
                 junk [GREATER_THAN] rest);
        [in_content Hc|at_pos|done]).
  rewrite with_pos_with_pos. unfold mret, M_ret. do 3 f_equal.
  repeat first [rewrite length_app | progress simpl]. lia.
Qed.

Lemma loopBody_plist_open content pre ws attrs rest st :
  content = pre ++ ws ++ render (TPlistOpen attrs) ++ rest →
  Forall (λ b, isBlank b = true) ws → delimited attrs (str ">") →
  pos st = length pre →
  loopBody content None st
  = Ok (Continue,
        with_pos (length pre + length ws + length (render (TPlistOpen attrs))) st).
Proof.
  intros Hc Hws Hd Hp.
  rewrite (loopBody_open content pre ws 112%N (str "list" ++ attrs) rest);
    [|in_content Hc|done..|].
  - rewrite dispatchTag_plist by apply (tagOf_plist attrs).
    unfold mret, M_ret. do 3 f_equal. simpl. rewrite !length_app. simpl. lia.
  - change (112%N :: str "list" ++ attrs) with (str "plist" ++ attrs).
    by repeat apply delimited_cons.
Qed.

Lemma loopBody_bool content pre ws b rest st :
  content = pre ++ ws ++ render (TBool b) ++ rest →
  Forall (λ b, isBlank b = true) ws → pos st = length pre →
  loopBody content None st
  = (acceptBool content b ≫= λ _, mret Continue)
      (with_pos (length pre + length ws + length (render (TBool b))) st).
Proof.
  intros Hc Hws Hp. destruct b.
  - rewrite (loopBody_open content pre ws 116%N (str "rue/") rest) by done.
    change (tagOf _) with (mkTag (if true then str "true" else str "false") true).
    rewrite dispatchTag_bool. unfold parseTagValue. cbn [isClosed].
    erewrite bind_run by reflexivity. by same_pos.
  - rewrite (loopBody_open content pre ws 102%N (str "alse/") rest) by done.
    change (tagOf _) with (mkTag (if false then str "true" else str "false") true).
    rewrite dispatchTag_bool. unfold parseTagValue. cbn [isClosed].
    erewrite bind_run by reflexivity. by same_pos.
Qed.

Lemma leafName_head kd :
  ∃ c text, leafName kd = c :: text ∧ c ≠ QUESTION_MARK ∧ c ≠ EXCLAMATION_MARK
            ∧ c ≠ SLASH ∧ delimited (c :: text) [GREATER_THAN]
            ∧ delimited (c :: text ++ [SLASH]) [GREATER_THAN]
            ∧ tagOf (c :: text) = mkTag (leafName kd) false
            ∧ tagOf (c :: text ++ [SLASH]) = mkTag (leafName kd) true.
Proof. destruct kd; eexists _, _; (split; [reflexivity|]); by split_and!. Qed.

Lemma loopBody_leaf content pre ws kd raw junk rest st :
  content = pre ++ ws ++ render (TLeaf kd raw junk) ++ rest →
  Forall (λ b, isBlank b = true) ws →
  delimited raw (str "</") → delimited junk (str ">") →
  pos st = length pre →
  loopBody content None st
  = (action content (TLeaf kd raw junk) ≫= λ _, mret Continue)
      (with_pos (length pre + length ws + length (render (TLeaf kd raw junk))) st).
Proof.
  intros Hc Hws Hd Hj Hp.
  destruct (leafName_head kd) as (c & text & Hname & Hq & He & Hs & Hdn & _ & Htag & _).
  rewrite (loopBody_open content pre ws c text
             (raw ++ str "</" ++ junk ++ str ">" ++ rest)); try done.
  2:{ rewrite Hc. cbn [render]. rewrite Hname, <- !app_assoc. reflexivity. }
  rewrite Htag, dispatchTag_leaf. cbn [action]. rewrite <- bind_assoc_run.
  apply bind_cong_run.
  rewrite (parseTagValue_found content (pre ++ ws ++ str "<" ++ leafName kd ++ str ">")
             raw junk rest).
  - f_equal. unfold with_pos, with_location. simpl. f_equal.
    rewrite Hname. repeat first [rewrite length_app | progress simpl]. lia.
  - in_content Hc.
  - rewrite pos_with_pos, Hname. repeat first [rewrite length_app | progress simpl]. lia.
  - done.
  - done.
Qed.

Lemma loopBody_empty_leaf content pre ws kd rest st :
  content = pre ++ ws ++ render (TEmptyLeaf kd) ++ rest →
  Forall (λ b, isBlank b = true) ws → pos st = length pre →
  loopBody content None st
  = (action content (TEmptyLeaf kd) ≫= λ _, mret Continue)
      (with_pos (length pre + length ws + length (render (TEmptyLeaf kd))) st).
Proof.
  intros Hc Hws Hp.
  destruct (leafName_head kd) as (c & text & Hname & Hq & He & Hs & _ & Hdn & _ & Htag).
  rewrite (loopBody_open content pre ws c (text ++ [SLASH]) rest); try done.
  2:{ rewrite Hc. cbn [render]. rewrite Hname, <- !app_assoc. reflexivity. }
  rewrite Htag, dispatchTag_leaf. cbn [action]. unfold parseTagValue. cbn [isClosed].
  erewrite bind_run by reflexivity.
  replace (length pre + length ws + length (text ++ [SLASH]) + 3)
    with (length pre + length ws + length (render (TEmptyLeaf kd))); [done|].
  cbn [render]. rewrite Hname. repeat first [rewrite length_app | progress simpl]. lia.
Qed.

(** The iteration on a tag, behind the blanks [ws]: the handlers of the
    tag are called with [pos] behind the tag. *)
Lemma loopBody_token content pre ws tok rest st :
  content = pre ++ ws ++ render tok ++ rest →
  Forall (λ b, isBlank b = true) ws → valid tok → pos st = length pre →
  loopBody content None st
  = (action content tok ≫= λ _, mret Continue)
      (with_pos (length pre + length ws + length (render tok)) st).
Proof.
  intros Hc Hws Hv Hp.
  destruct tok as [c|c pad junk|c|kd raw junk|kd|b|body|body|body|attrs|pad junk].
  - (* <dict>, <array> *)
    destruct c.
    + rewrite (loopBody_open content pre ws 100%N (str "ict") rest) by done.
      change (tagOf _) with (mkTag (containerName KDict) false).
      rewrite dispatchTag_container. simpl length. cbn [action when].
      same_pos. unfold mbind, M_bind. by destruct (enterDict content _) as [[[] ?]|].
    + rewrite (loopBody_open content pre ws 97%N (str "rray") rest) by done.
      change (tagOf _) with (mkTag (containerName KArray) false).
      rewrite dispatchTag_container. simpl length. cbn [action when].
      same_pos. unfold mbind, M_bind. by destruct (enterArray content _) as [[[] ?]|].
  - destruct Hv. by eapply loopBody_close.
  - (* <dict/>, <array/> *)
    destruct c.
    + rewrite (loopBody_open content pre ws 100%N (str "ict/") rest) by done.
      change (tagOf _) with (mkTag (containerName KDict) true).
      rewrite dispatchTag_container. simpl length. cbn [action when].
      same_pos. apply bind_assoc_run.
    + rewrite (loopBody_open content pre ws 97%N (str "rray/") rest) by done.
      change (tagOf _) with (mkTag (containerName KArray) true).
      rewrite dispatchTag_container. simpl length. cbn [action when].
      same_pos. apply bind_assoc_run.
  - destruct Hv. by eapply loopBody_leaf.
  - by eapply loopBody_empty_leaf.
  - by eapply loopBody_bool.
  - by eapply loopBody_instruction.
  - by eapply loopBody_comment.
  - destruct Hv. by eapply loopBody_declaration.
  - by eapply loopBody_plist_open.
  - destruct Hv. by eapply loopBody_plist_close.
Qed.

(** ** A document, tag by tag *)

(** The tags of a document, each with the blanks in front of it. *)
Definition layout := list (jsstring * token).

Definition renderAll (items : layout) : jsstring :=
  flat_map (λ item, item.1 ++ render item.2) items.

(** The calls of the handlers for the tags [items], the first of which
    starts at offset [p]: every tag is handled with [pos] behind it. *)
Fixpoint handleTokens (content : jsstring) (p : nat) (items : layout) (st : pstate)
  : result pstate :=
  match items with
  | [] => Ok st
  | item :: items' =>
    let p' := p + length item.1 + length (render item.2) in
    match action content item.2 (with_pos p' st) with
    | Ok (_, st') => handleTokens content p' items' st'
    | Throw e => Throw e
    end
  end.

Definition well_formed (items : layout) : Prop :=
  Forall (λ item, blanks item.1 ∧ valid item.2) items.

(** The handlers leave the location alone. *)
Lemma accept_location content kd val st st' :
  accept content kd val st = Ok (tt, st') → pos st' = pos st.
Proof.
  destruct kd; simpl.
  - apply (handle_location content (Key val)).
  - apply (handle_location content (Assign (StringLeaf val))).
  - destruct (parseFloat val) as [|d]; [done|].
    apply (handle_location content (Assign (RealLeaf d))).
  - destruct (parseInt val 10) as [|d]; [done|].
    apply (handle_location content (Assign (IntegerLeaf d))).
  - apply (handle_location content (Assign (DateLeaf val))).
  - apply (handle_location content (Assign (DataLeaf val))).
Qed.

Lemma action_location content tok st st' :
  action content tok st = Ok (tt, st') → pos st' = pos st.
Proof.
  destruct tok as [c|c pad junk|c|kd raw junk|kd|b|body|body|body|attrs|pad junk]; simpl;
    try by intros [= <-].
  - destruct c.
    + apply (handle_location content (Assign DictOpen)).
    + apply (handle_location content (Assign ArrayOpen)).
  - destruct c.
    + apply (handle_location content DictClose).
    + apply (handle_location content ArrayClose).
  - destruct c; unfold mbind, M_bind.
    + destruct (enterDict content st) as [[[] st1]|] eqn:H1; [|done].
      intros H2. apply (handle_location content (Assign DictOpen)) in H1 as [H1 _].
      apply (handle_location content DictClose) in H2 as [H2 _]. congruence.
    + destruct (enterArray content st) as [[[] st1]|] eqn:H1; [|done].
      intros H2. apply (handle_location content (Assign ArrayOpen)) in H1 as [H1 _].
      apply (handle_location content ArrayClose) in H2 as [H2 _]. congruence.
  - unfold mbind, M_bind, lift. destruct (escapeVal raw) as [val|]; [|done].
    apply accept_location.
  - apply accept_location.
  - apply (handle_location content (Assign (BoolLeaf b))).
Qed.

Lemma render_length tok : 0 < length (render tok).
Proof.
  destruct tok as [c|c pad junk|c|kd raw junk|kd|[]|body|body|body|attrs|pad junk];
    simpl; try lia.
  all: try (destruct c; simpl; lia).
Qed.

(** The outcomes of the loop and of the handlers: the same error, or
    states in which the same has been built. *)
Definition same_outcome (r r' : result pstate) : Prop :=
  match r, r' with
  | Ok st, Ok st' => builder st = builder st'
  | Throw e, Throw e' => e = e'
  | _, _ => False
  end.

Lemma loop_tokens content trailing items : ∀ pre st fuel,
  content = pre ++ renderAll items ++ trailing →
  well_formed items → blanks trailing →
  pos st = length pre → length content - length pre < fuel →
  ∃ r, loop content None fuel st = Some r
       ∧ same_outcome r (handleTokens content (length pre) items st).
Proof.
  induction items as [|[ws tok] items IH]; intros pre st fuel Hc Hwf Htr Hp Hfuel.
  - simpl in *. destruct fuel as [|fuel]; [lia|]. simpl.
    case_bool_decide as Hlt; [|by eexists].
    destruct (loopBody_blanks content None st) as (st' & -> & Hb & _); [lia| |by eexists].
    intros n Hn. rewrite Hc, lookup_app_r by lia.
    assert (is_Some (trailing !! (n - length pre))) as [c Hlook].
    { apply lookup_lt_is_Some. rewrite Hc, length_app in Hn. lia. }
    exists c. split; [done|]. by eapply (Forall_lookup_1 _ _ _ _ Htr).
  - apply Forall_cons in Hwf as [[Hws Hv] Hwf]. simpl in Hws, Hv.
    pose proof (render_length tok) as Hlen.
    assert (content = pre ++ ws ++ render tok ++ (renderAll items ++ trailing)) as Hc'.
    { rewrite Hc. simpl. by rewrite <- !app_assoc. }
    assert (length content
            = length pre + length ws + length (render tok)
              + length (renderAll items ++ trailing)) as Hlc.
    { rewrite Hc', !length_app. lia. }
    destruct fuel as [|fuel]; [lia|]. simpl.
    rewrite bool_decide_eq_true_2 by lia.
    rewrite (loopBody_token content pre ws tok (renderAll items ++ trailing)) by done.
    unfold mbind, M_bind.
    destruct (action content tok _) as [[[] st1]|e] eqn:Hact; [|by eexists].
    simpl. pose proof (action_location _ _ _ _ Hact) as Hp1. rewrite pos_with_pos in Hp1.
    destruct (IH (pre ++ ws ++ render tok) st1 fuel) as (r & Hr & Hsame); try done.
    + rewrite Hc'. by rewrite <- !app_assoc.
    + rewrite Hp1, !length_app. lia.
    + rewrite !length_app. lia.
    + exists r. split; [done|]. by rewrite !length_app, Nat.add_assoc in Hsame.
Qed.

(** The outcome for the user: what is returned, or what is thrown. *)
Definition outcome (r : result pstate) : result (value * list object) :=
  (λ st, (cur st, heap st)) <$> r.

Lemma same_outcome_outcome r r' : same_outcome r r' → outcome r = outcome r'.
Proof.
  destruct r as [st|e], r' as [st'|e']; simpl; try done.
  - unfold builder. intros [= _ Hc _ _ _ Hh]. by rewrite Hc, Hh.
  - by intros ->.
Qed.

Lemma renderAll_head items trailing c :
  well_formed items → blanks trailing →
  head (renderAll items ++ trailing) = Some c → c = LESS_THAN ∨ isBlank c = true.
Proof.
  intros Hwf Htr. destruct items as [|[ws tok] items]; simpl.
  - destruct Htr as [|b trailing Hb _]; [done|]. intros [= <-]. by right.
  - apply Forall_cons in Hwf as [[Hws _] _]. simpl in Hws.
    destruct Hws as [|b ws Hb _]; simpl.
    + destruct tok as [[]|[] ? ?|[]|[] ? ?|[]|[]| | | | |]; intros [= <-]; by left.
    + intros [= <-]. by right.
Qed.

Lemma initialState_pos bom items trailing :
  bom = [] ∨ bom = [BOM] → well_formed items → blanks trailing →
  pos (initialState (bom ++ renderAll items ++ trailing)) = length bom.
Proof.
  intros Hbom Hwf Htr. unfold initialState. simpl.
  destruct Hbom as [-> | ->]; simpl.
  - rewrite bool_decide_eq_false_2; [done|]. intros [_ Hc].
    unfold charCodeAt in Hc. rewrite <- head_lookup in Hc.
    by destruct (renderAll_head _ _ _ Hwf Htr Hc) as [?|?]; subst.
  - done.
Qed.

(** The outcome of [parse] on a document given tag by tag. *)
Lemma parse_layout (bom : jsstring) (items : layout) (trailing : jsstring)
    (k : option jsstring) :
  bom = [] ∨ bom = [BOM] → well_formed items → blanks trailing →
  parse (bom ++ renderAll items ++ trailing) k
  = Some (outcome (handleTokens (bom ++ renderAll items ++ trailing) (length bom) items
                     (initialState (bom ++ renderAll items ++ trailing)))).
Proof.
  intros Hbom Hwf Htr. set (content := bom ++ renderAll items ++ trailing).
  rewrite (parse_mode_irrelevant content k None).
  unfold parse.
  destruct (loop_tokens content trailing items bom (initialState content)
              (S (length content))) as (r & -> & Hsame); try done.
  - by apply initialState_pos.
  - lia.
  - simpl. f_equal. by apply same_outcome_outcome.
Qed.

(** * Well-nested documents *)

(** ** The handlers alone *)

(** The calls of the handlers for the tags [toks], whatever [pos] is. *)
Fixpoint handleAll (content : jsstring) (toks : list token) (st : pstate)
  : result pstate :=
  match toks with
  | [] => Ok st
  | tok :: toks' =>
    match action content tok st with
    | Ok (_, st') => handleAll content toks' st'
    | Throw e => Throw e
    end
  end.

(** The tags that have handlers. *)
Definition significant (tok : token) : bool :=
  match tok with
  | TInstruction _ | TComment _ | TDeclaration _ | TPlistOpen _ | TPlistClose _ _ => false
  | _ => true
  end.

(** A handler that returns does the same wherever [pos] is. *)
Lemma handle_with_pos content ev q st st' :
  handle content ev st = Ok (tt, st') →
  handle content ev (with_pos q st) = Ok (tt, with_pos q st').
Proof.
  destruct st as [p l c s v ss os ck h]. intros Hrun.
  destruct ev as [a| | |]; simpl in *.
  - rewrite assign_shape in *.
    destruct a; unfold assignValue, enterContainer in *; revert Hrun; run_handler;
      by intros [= <-].
  - unfold acceptKey in *. revert Hrun. run_handler; by intros [= <-].
  - unfold leaveDict in *. revert Hrun. run_handler; by intros [= <-].
  - unfold leaveArray in *. revert Hrun. run_handler; by intros [= <-].
Qed.

Lemma accept_with_pos content kd val q st st' :
  accept content kd val st = Ok (tt, st') →
  accept content kd val (with_pos q st) = Ok (tt, with_pos q st').
Proof.
  destruct kd; simpl.
  - apply (handle_with_pos content (Key val)).
  - apply (handle_with_pos content (Assign (StringLeaf val))).
  - destruct (parseFloat val) as [|d]; [done|].
    apply (handle_with_pos content (Assign (RealLeaf d))).
  - destruct (parseInt val 10) as [|d]; [done|].
    apply (handle_with_pos content (Assign (IntegerLeaf d))).
  - apply (handle_with_pos content (Assign (DateLeaf val))).
  - apply (handle_with_pos content (Assign (DataLeaf val))).
Qed.

Lemma action_with_pos content tok q st st' :
  action content tok st = Ok (tt, st') →
  action content tok (with_pos q st) = Ok (tt, with_pos q st').
Proof.
  destruct tok as [c|c pad junk|c|kd raw junk|kd|b|body|body|body|attrs|pad junk]; simpl;
    try by intros [= <-].
  - destruct c.
    + apply (handle_with_pos content (Assign DictOpen)).
    + apply (handle_with_pos content (Assign ArrayOpen)).
  - destruct c.
    + apply (handle_with_pos content DictClose).
    + apply (handle_with_pos content ArrayClose).
  - destruct c; unfold mbind, M_bind.
    + destruct (enterDict content st) as [[[] st1]|] eqn:H1; [|done].
      intros H2. apply (handle_with_pos content (Assign DictOpen) q) in H1.
      apply (handle_with_pos content DictClose q) in H2. simpl in H1, H2.
      by rewrite H1.
    + destruct (enterArray content st) as [[[] st1]|] eqn:H1; [|done].
      intros H2. apply (handle_with_pos content (Assign ArrayOpen) q) in H1.
      apply (handle_with_pos content ArrayClose q) in H2. simpl in H1, H2.
      by rewrite H1.
  - unfold mbind, M_bind, lift. destruct (escapeVal raw) as [val|]; [|done].
    apply accept_with_pos.
  - apply accept_with_pos.
  - apply (handle_with_pos content (Assign (BoolLeaf b))).
Qed.

Lemma handleAll_with_pos content toks q : ∀ st st',
  handleAll content toks st = Ok st' →
  handleAll content toks (with_pos q st) = Ok (with_pos q st').
Proof.
  induction toks as [|tok toks IH]; intros st st'; simpl.
  - by intros [= <-].
  - destruct (action content tok st) as [[[] st1]|] eqn:Hact; [|done].
    rewrite (action_with_pos _ _ q _ _ Hact). apply IH.
Qed.

(** When the handlers of the tags of a document return, [pos] makes no
    difference and the parts passed over make none. *)
Lemma handleTokens_handleAll content items : ∀ p st st',
  handleAll content (filter (λ tok, significant tok = true) items.*2) st = Ok st' →
  ∃ q, handleTokens content p items st = Ok (with_pos q st').
Proof.
  induction items as [|[ws tok] items IH]; intros p st st'; simpl.
  - intros [= <-]. exists (pos st). by rewrite with_pos_pos.
  - rewrite filter_cons. destruct (decide (significant tok = true)) as [Hs|Hs].
    + simpl. destruct (action content tok st) as [[[] st1]|] eqn:Hact; [|done].
      intros Hall.
      rewrite (action_with_pos _ _ (p + length ws + length (render tok)) _ _ Hact).
      apply (handleAll_with_pos _ _ (p + length ws + length (render tok))) in Hall.
      destruct (IH (p + length ws + length (render tok)) _ _ Hall) as [q Hq].
      exists q. by rewrite Hq.
    + intros Hall.
      assert (action content tok = mret tt) as -> by (by destruct tok).
      unfold mret, M_ret.
      apply (handleAll_with_pos _ _ (p + length ws + length (render tok))) in Hall.
      destruct (IH (p + length ws + length (render tok)) _ _ Hall) as [q Hq].
      exists q. by rewrite Hq.
Qed.

(** ** Elements *)

(** The elements of a document: leaves, and containers with their
    entries.  A leaf and a key hold the text between their tags, as it
    is written.  The tags of an element are those of its usual
    form. *)
#[warnings="-register-all"]
Inductive element :=
| ELeaf (kd : leafKind) (raw : jsstring)
| EBool (b : bool)
| EEmpty (c : containerKind)
| EDict (entries : list (jsstring * element))
| EArray (items : list element).

Fixpoint tokens (e : element) : list token :=
  match e with
  | ELeaf kd raw => [TLeaf kd raw (leafName kd)]
  | EBool b => [TBool b]
  | EEmpty c => [TEmpty c]
  | EDict entries =>
    TOpen KDict
      :: flat_map (λ entry, TLeaf KKey entry.1 (str "key") :: tokens entry.2) entries
      ++ [TClose KDict [] []]
  | EArray items => TOpen KArray :: flat_map tokens items ++ [TClose KArray [] []]
  end.

Definition unescaped (raw : jsstring) : option jsstring :=
  match escapeVal raw with
  | Ok val => Some val
  | Throw _ => None
  end.

(** The value of a leaf whose text unescapes to [val]; none for a number
    that cannot be read, and for a key. *)
Definition leafValue (kd : leafKind) (val : jsstring) : option value :=
  match kd with
  | KKey => None
  | KString | KData => Some (VString val)
  | KDate => Some (VDate val)
  | KReal => if isNaN (parseFloat val) then None else Some (VNumber (parseFloat val))
  | KInteger => if isNaN (parseInt val 10) then None else Some (VNumber (parseInt val 10))
  end.

(** Every text can be unescaped and every number can be read. *)
Fixpoint accepted (e : element) : Prop :=
  match e with
  | ELeaf kd raw => is_Some (unescaped raw ≫= leafValue kd)
  | EBool _ | EEmpty _ => True
  | EDict entries =>
    (fix go (es : list (jsstring * element)) : Prop :=
       match es with
       | [] => True
       | entry :: es' => is_Some (unescaped entry.1) ∧ accepted entry.2 ∧ go es'
       end) entries
  | EArray items =>
    (fix go (es : list element) : Prop :=
       match es with
       | [] => True
       | e' :: es' => accepted e' ∧ go es'
       end) items
  end.

(** What a dictionary is after an entry with key [key] and value [v]: [v]
    is its property [key], in the place of an earlier value of that key;
    but an entry with the key [__proto__] makes no property: its value
    becomes the prototype of the dictionary when it is an object (a date
    or a container), and is dropped otherwise. *)
Definition withEntry (key : jsstring) (v : value)
    (d : option value * gmap (list N) value) : option value * gmap (list N) value :=
  if decide (key = str "__proto__") then
    (match v with
     | VRef _ | VDate _ => Some v
     | _ => d.1
     end, d.2)
  else (d.1, <[key := v]> d.2).

Lemma withEntry_assign key v proto props :
  withEntry key v (proto, props) = (protoAssign key v proto, propAssign key v props).
Proof.
  unfold withEntry, protoAssign, propAssign.
  change (str "__proto__") with proto_key. by case_decide.
Qed.

(** The value of an element and the containers made for it, in the order
    in which they are opened, when the first of them is made at
    location [l]. *)
Fixpoint flatten (e : element) (l : nat) : value * list object :=
  match e with
  | ELeaf kd raw => (default VUndefined (unescaped raw ≫= leafValue kd), [])
  | EBool b => (VBool b, [])
  | EEmpty KDict => (VRef l, [ODict None ∅])
  | EEmpty KArray => (VRef l, [OArray []])
  | EDict entries =>
    let '(d, objs) :=
      foldl (λ acc entry,
               let '(v, os) := flatten entry.2 (S l + length acc.2) in
               (withEntry (default [] (unescaped entry.1)) v acc.1, acc.2 ++ os))
            ((None, ∅), []) entries in
    (VRef l, ODict d.1 d.2 :: objs)
  | EArray items =>
    let '(elems, objs) :=
      foldl (λ acc e',
               let '(v, os) := flatten e' (S l + length acc.2) in
               (acc.1 ++ [v], acc.2 ++ os))
            ([], []) items in
    (VRef l, OArray elems :: objs)
  end.

(** Induction on elements. *)
Lemma element_induction (P : element → Prop) :
  (∀ kd raw, P (ELeaf kd raw)) →
  (∀ b, P (EBool b)) →
  (∀ c, P (EEmpty c)) →
  (∀ entries, Forall (λ entry, P entry.2) entries → P (EDict entries)) →
  (∀ items, Forall P items → P (EArray items)) →
  ∀ e, P e.
Proof.
  intros Hleaf Hbool Hempty Hdict Harray.
  fix IH 1. intros [kd raw|b|c|entries|items].
  - apply Hleaf.
  - apply Hbool.
  - apply Hempty.
  - apply Hdict. induction entries as [|[rk e] entries IHes]; constructor; [apply IH|done].
  - apply Harray. induction items as [|e items IHes]; constructor; [apply IH|done].
Qed.

(** ** Storing a value *)

(** A state in which a value can be assigned: no key is pending outside
    a dictionary and one is pending inside, and [cur] is the container
    that the state says. *)
Definition ready (st : pstate) : Prop :=
  match state st with
  | ROOT_STATE => curKey st = None
  | DICT_STATE =>
    ∃ key l proto props, curKey st = Some key ∧ cur st = VRef l
                         ∧ heap st !! l = Some (ODict proto props)
  | ARR_STATE =>
    curKey st = None ∧ ∃ l elems, cur st = VRef l ∧ heap st !! l = Some (OArray elems)
  | UNDEFINED_STATE => False
  end.

(** The state after the assignment of [v] in a state that is ready. *)
Definition stored (v : value) (st : pstate) : pstate :=
  match state st, cur st with
  | DICT_STATE, VRef l =>
    match curKey st, heap st !! l with
    | Some key, Some (ODict proto props) =>
      with_curKey None
        (with_heap (<[l := ODict (protoAssign key v proto) (propAssign key v props)]>
                      (heap st)) st)
    | _, _ => st
    end
  | ARR_STATE, VRef l =>
    match heap st !! l with
    | Some (OArray elems) => with_heap (<[l := OArray (elems ++ [v])]> (heap st)) st
    | _ => st
    end
  | _, _ => with_cur v st
  end.

Lemma assignValue_stored content v st :
  leaf v → ready st → assignValue content v st = Ok (tt, stored v st).
Proof.
  intros Hv. unfold ready, stored. destruct (state st) eqn:Hs; [| | |done].
  - intros _. by rewrite assignValue_root.
  - intros (key & l & proto & props & Hk & Hc & Hl).
    rewrite (assignValue_dict _ _ _ key l proto props)
      by (done || by apply protoRefused_leaf).
    by rewrite Hc, Hk, Hl.
  - intros (_ & l & elems & Hc & Hl).
    rewrite (assignValue_array _ _ _ l elems) by done. by rewrite Hc, Hl.
Qed.

(** Storing commutes with the containers made behind. *)
Lemma stored_extend v st ext :
  ready st →
  stored v (with_heap (heap st ++ ext) st)
  = with_heap (heap (stored v st) ++ ext) (stored v st).
Proof.
  unfold ready, stored. simpl. destruct (state st) eqn:Hs; [| | |done].
  - done.
  - intros (key & l & proto & props & Hk & Hc & Hl). rewrite Hc, Hk, Hl.
    rewrite (lookup_app_l_Some _ _ _ _ Hl). unfold with_curKey, with_heap. simpl.
    f_equal. apply insert_app_l. by eapply lookup_lt_Some.
  - intros (_ & l & elems & Hc & Hl). rewrite Hc, Hl.
    rewrite (lookup_app_l_Some _ _ _ _ Hl). unfold with_heap. simpl.
    f_equal. apply insert_app_l. by eapply lookup_lt_Some.
Qed.

Lemma stored_shape v st :
  ready st →
  state (stored v st) = state st ∧ stateStack (stored v st) = stateStack st
  ∧ objStack (stored v st) = objStack st ∧ curKey (stored v st) = None
  ∧ length (heap (stored v st)) = length (heap st)
  ∧ pos (stored v st) = pos st.
Proof.
  unfold ready, stored. destruct (state st) eqn:Hs; [| | |done].
  - intros Hk. by rewrite <- Hs.
  - intros (key & l & proto & props & Hk & Hc & Hl). rewrite Hc, Hk, Hl. simpl.
    by rewrite length_insert.
  - intros (Hk & l & elems & Hc & Hl). rewrite Hc, Hl. simpl.
    by rewrite length_insert.
Qed.

Lemma enterContainer_stored content s o st :
  created o → ready st →
  enterContainer content s o st
  = Ok (tt, pushed s (VRef (length (heap st)))
              (with_heap (heap (stored (VRef (length (heap st))) st) ++ [o])
                         (stored (VRef (length (heap st))) st))).
Proof.
  intros Ho Hready. rewrite <- stored_extend by done. revert Hready.
  unfold ready, stored. simpl. destruct (state st) eqn:Hs; [| | |done].
  - intros _. by rewrite enterContainer_root.
  - intros (key & l & proto & props & Hk & Hc & Hl).
    rewrite (enterContainer_dict _ _ _ _ key l proto props) by done.
    by rewrite Hc, Hk, (lookup_app_l_Some _ _ _ _ Hl).
  - intros (_ & l & elems & Hc & Hl).
    rewrite (enterContainer_array _ _ _ _ l elems) by done.
    by rewrite Hc, (lookup_app_l_Some _ _ _ _ Hl).
Qed.

(** ** The handlers on the tags of an element *)

(** The state after an element: its value is stored, and its containers
    are behind those that were there. *)
Definition built (e : element) (st : pstate) : pstate :=
  let v := (flatten e (length (heap st))).1 in
  let objs := (flatten e (length (heap st))).2 in
  with_heap (heap (stored v st) ++ objs) (stored v st).

Lemma with_heap_heap st : with_heap (heap st) st = st.
Proof. by destruct st. Qed.

Lemma popped_pushed s v st : popped (pushed s v st) = st.
Proof. by destruct st. Qed.

Lemma accept_leafValue content kd val v st :
  leafValue kd val = Some v → accept content kd val st = assignValue content v st.
Proof.
  destruct kd; simpl; try done; try by intros [= <-].
  - rewrite acceptReal_shape. destruct (parseFloat val); [done|by intros [= <-]..].
  - rewrite acceptInteger_shape. destruct (parseInt val 10); [done|by intros [= <-]..].
Qed.

Lemma leafValue_leaf kd val v : leafValue kd val = Some v → leaf v.
Proof.
  destruct kd; simpl; try done; try by intros [= <-].
  - destruct (parseFloat val); [done|by intros [= <-]].
  - destruct (parseInt val 10); [done|by intros [= <-]].
Qed.

Lemma handleAll_cons content tok toks st st' :
  action content tok st = Ok (tt, st') →
  handleAll content (tok :: toks) st = handleAll content toks st'.
Proof. simpl. by intros ->. Qed.

Lemma stored_dict v st key l proto props :
  state st = DICT_STATE → cur st = VRef l → curKey st = Some key →
  heap st !! l = Some (ODict proto props) →
  stored v st
  = with_curKey None
      (with_heap (<[l := ODict (protoAssign key v proto) (propAssign key v props)]>
                    (heap st)) st).
Proof. intros Hs Hc Hk Hl. unfold stored. by rewrite Hs, Hc, Hk, Hl. Qed.

Lemma stored_array v st l elems :
  state st = ARR_STATE → cur st = VRef l → heap st !! l = Some (OArray elems) →
  stored v st = with_heap (<[l := OArray (elems ++ [v])]> (heap st)) st.
Proof. intros Hs Hc Hl. unfold stored. by rewrite Hs, Hc, Hl. Qed.

Section Element.
Context (content : jsstring).

(** Inside a container made at location [l] behind the heap [hP], in
    the frame pushed on [X]. *)
Definition inside (s : State) (l : nat) (X : pstate) (o : object) (objs : list object)
  : pstate :=
  pushed s (VRef l) (with_heap (heap X ++ o :: objs) X).

Definition entryStep (l : nat)
    (acc : option value * gmap (list N) value * list object)
    (entry : jsstring * element) : option value * gmap (list N) value * list object :=
  let '(v, os) := flatten entry.2 (S l + length acc.2) in
  (withEntry (default [] (unescaped entry.1)) v acc.1, acc.2 ++ os).

Definition itemStep (l : nat) (acc : list value * list object) (e : element)
  : list value * list object :=
  let '(v, os) := flatten e (S l + length acc.2) in
  (acc.1 ++ [v], acc.2 ++ os).

Lemma flatten_dict entries l :
  flatten (EDict entries) l
  = (VRef l, ODict (foldl (entryStep l) ((None, ∅), []) entries).1.1
                   (foldl (entryStep l) ((None, ∅), []) entries).1.2
               :: (foldl (entryStep l) ((None, ∅), []) entries).2).
Proof.
  change (flatten (EDict entries) l)
    with (let '(d, objs) := foldl (entryStep l) ((None, ∅), []) entries in
          (VRef l, ODict d.1 d.2 :: objs)).
  by destruct (foldl (entryStep l) ((None, ∅), []) entries).
Qed.

Lemma flatten_array items l :
  flatten (EArray items) l
  = (VRef l, OArray (foldl (itemStep l) ([], []) items).1
               :: (foldl (itemStep l) ([], []) items).2).
Proof.
  change (flatten (EArray items) l)
    with (let '(elems, objs) := foldl (itemStep l) ([], []) items in
          (VRef l, OArray elems :: objs)).
  by destruct (foldl (itemStep l) ([], []) items).
Qed.

Lemma handleAll_entries l X entries :
  Forall (λ entry, ∀ rest st, accepted entry.2 → ready st →
            handleAll content (tokens entry.2 ++ rest) st
            = handleAll content rest (built entry.2 st)) entries →
  curKey X = None → length (heap X) = l →
  ∀ acc rest,
    (fix go (es : list (jsstring * element)) : Prop :=
       match es with
       | [] => True
       | entry :: es' => is_Some (unescaped entry.1) ∧ accepted entry.2 ∧ go es'
       end) entries →
    handleAll content
      (flat_map (λ entry, TLeaf KKey entry.1 (str "key") :: tokens entry.2) entries ++ rest)
      (inside DICT_STATE l X (ODict acc.1.1 acc.1.2) acc.2)
    = handleAll content rest
        (inside DICT_STATE l X (ODict (foldl (entryStep l) acc entries).1.1
                                      (foldl (entryStep l) acc entries).1.2)
                (foldl (entryStep l) acc entries).2).
Proof.
  intros HIH Hk Hl. induction HIH as [|[rk e] entries IH _ IHes]; intros acc rest Hacc.
  - done.
  - destruct Hacc as ([key Hkey] & He & Hes). cbn [fst snd] in *.
    unfold unescaped in Hkey. destruct (escapeVal rk) as [key'|] eqn:Hesc; [|done].
    injection Hkey as ->.
    assert (flat_map (λ entry, TLeaf KKey entry.1 (str "key") :: tokens entry.2) ((rk, e) :: entries)
              ++ rest
            = TLeaf KKey rk (str "key")
                :: tokens e
                ++ (flat_map (λ entry, TLeaf KKey entry.1 (str "key") :: tokens entry.2) entries ++ rest))
      as -> by (simpl; by rewrite <- app_assoc).
    erewrite handleAll_cons.
    2:{ simpl. unfold mbind, M_bind, lift. rewrite Hesc.
        rewrite acceptKey_run. simpl. by rewrite Hk. }
    rewrite IH; [|done|].
    2:{ unfold ready. simpl. exists key, l, (acc.1.1), (acc.1.2). split_and!; try done.
        rewrite <- Hl. by apply list_lookup_middle. }
    cbn [foldl]. rewrite <- (IHes (entryStep l acc (rk, e)) rest Hes).
    f_equal. unfold built, entryStep, inside. simpl.
    rewrite length_app. simpl. rewrite Hl.
    replace (l + S (length acc.2)) with (S (l + length acc.2)) by lia.
    destruct (flatten e (S (l + length acc.2))) as [v os]. simpl.
    erewrite stored_dict; [|done|done|done|].
    2:{ simpl. rewrite <- Hl. by apply list_lookup_middle. }
    unfold unescaped. rewrite Hesc. simpl.
    destruct acc as [[proto props] objs]. simpl. rewrite withEntry_assign. simpl.
    unfold pushed, with_curKey, with_heap, with_frame. simpl. rewrite Hk. f_equal.
    rewrite <- Hl, insert_app_r_alt, Nat.sub_diag by done. simpl.
    by rewrite <- app_assoc.
Qed.

Lemma handleAll_items l X items :
  Forall (λ e, ∀ rest st, accepted e → ready st →
            handleAll content (tokens e ++ rest) st
            = handleAll content rest (built e st)) items →
  curKey X = None → length (heap X) = l →
  ∀ acc rest,
    (fix go (es : list element) : Prop :=
       match es with
       | [] => True
       | e' :: es' => accepted e' ∧ go es'
       end) items →
    handleAll content (flat_map tokens items ++ rest)
      (inside ARR_STATE l X (OArray acc.1) acc.2)
    = handleAll content rest
        (inside ARR_STATE l X (OArray (foldl (itemStep l) acc items).1)
                (foldl (itemStep l) acc items).2).
Proof.
  intros HIH Hk Hl. induction HIH as [|e items IH _ IHes]; intros acc rest Hacc.
  - done.
  - destruct Hacc as (He & Hes).
    assert (flat_map tokens (e :: items) ++ rest
            = tokens e ++ (flat_map tokens items ++ rest))
      as -> by (simpl; by rewrite <- app_assoc).
    rewrite IH; [|done|].
    2:{ unfold ready. simpl. split; [done|]. exists l, (acc.1). split; [done|].
        rewrite <- Hl. by apply list_lookup_middle. }
    cbn [foldl]. rewrite <- (IHes (itemStep l acc e) rest Hes).
    f_equal. unfold built, itemStep, inside. simpl.
    rewrite length_app. simpl. rewrite Hl.
    replace (l + S (length acc.2)) with (S (l + length acc.2)) by lia.
    destruct (flatten e (S (l + length acc.2))) as [v os]. simpl.
    erewrite stored_array; [|done|done|].
    2:{ simpl. rewrite <- Hl. by apply list_lookup_middle. }
    unfold pushed, with_curKey, with_heap, with_frame. simpl. f_equal.
    rewrite <- Hl, insert_app_r_alt, Nat.sub_diag by done. simpl.
    by rewrite <- app_assoc.
Qed.

(** The handlers on the tags of an element, in a state that is ready:
    they return, the value of the element is stored and its containers
    are made behind those that were there. *)
Lemma handleAll_element e : ∀ rest st,
  accepted e → ready st →
  handleAll content (tokens e ++ rest) st = handleAll content rest (built e st).
Proof.
  induction e as [kd raw|b|c|entries IH|items IH] using element_induction;
    intros rest st Hacc Hready.
  - (* a leaf *)
    simpl in Hacc. destruct Hacc as [v Hv]. apply handleAll_cons.
    unfold built. simpl. rewrite Hv. simpl. rewrite app_nil_r, with_heap_heap.
    unfold unescaped in Hv. unfold mbind, M_bind, lift.
    destruct (escapeVal raw) as [val|]; [|done]. simpl in Hv.
    rewrite (accept_leafValue _ _ _ _ _ Hv). apply assignValue_stored; [|done].
    by eapply leafValue_leaf.
  - (* true, false *)
    apply handleAll_cons. unfold built. simpl. rewrite app_nil_r, with_heap_heap.
    rewrite acceptBool_shape. by apply assignValue_stored.
  - (* an empty container *)
    apply handleAll_cons. unfold built.
    destruct c; simpl; unfold mbind, M_bind.
    + rewrite enterDict_shape, enterContainer_stored by done.
      rewrite leaveDict_run. simpl. by rewrite popped_pushed.
    + rewrite enterArray_shape, enterContainer_stored by done.
      rewrite leaveArray_run. simpl. by rewrite popped_pushed.
  - (* a dictionary *)
    set (l := length (heap st)). set (X := stored (VRef l) st).
    destruct (stored_shape (VRef l) st Hready) as (Hs & Hss & Hos & Hk & Hlen & _).
    fold X in Hs, Hss, Hos, Hk, Hlen. fold l in Hlen.
    change (tokens (EDict entries) ++ rest)
      with (TOpen KDict
              :: (flat_map (λ entry, TLeaf KKey entry.1 (str "key") :: tokens entry.2) entries
                  ++ [TClose KDict [] []]) ++ rest).
    rewrite <- app_assoc.
    erewrite handleAll_cons.
    2:{ simpl. rewrite enterDict_shape. by apply enterContainer_stored. }
    fold l. fold X.
    change (pushed DICT_STATE (VRef l) (with_heap (heap X ++ [ODict None ∅]) X))
      with (inside DICT_STATE l X
              (ODict ((@None value, (∅ : gmap (list N) value)), @nil object).1.1
                     ((@None value, (∅ : gmap (list N) value)), @nil object).1.2)
              ((@None value, (∅ : gmap (list N) value)), @nil object).2).
    rewrite (handleAll_entries l X entries IH Hk Hlen ((None, ∅), []) _ Hacc).
    apply handleAll_cons. simpl. rewrite leaveDict_run. simpl.
    unfold inside. rewrite popped_pushed. unfold built. fold l.
    by rewrite flatten_dict.
  - (* an array *)
    set (l := length (heap st)). set (X := stored (VRef l) st).
    destruct (stored_shape (VRef l) st Hready) as (Hs & Hss & Hos & Hk & Hlen & _).
    fold X in Hs, Hss, Hos, Hk, Hlen. fold l in Hlen.
    change (tokens (EArray items) ++ rest)
      with (TOpen KArray :: (flat_map tokens items ++ [TClose KArray [] []]) ++ rest).
    rewrite <- app_assoc.
    erewrite handleAll_cons.
    2:{ simpl. rewrite enterArray_shape. by apply enterContainer_stored. }
    fold l. fold X.
    change (pushed ARR_STATE (VRef l) (with_heap (heap X ++ [OArray []]) X))
      with (inside ARR_STATE l X (OArray (@nil value, @nil object).1)
              (@nil value, @nil object).2).
    rewrite (handleAll_items l X items IH Hk Hlen ([], []) _ Hacc).
    apply handleAll_cons. simpl. rewrite leaveArray_run. simpl.
    unfold inside. rewrite popped_pushed. unfold built. fold l.
    by rewrite flatten_array.
Qed.
End Element.

(** ** Well-nested documents *)

(** The usual form of a tag: nothing around the name of a closing tag,
    the name of the leaf in its closing tag, and an empty leaf written
    with both its tags. *)
Definition plain (tok : token) : token :=
  match tok with
  | TClose c _ _ => TClose c [] []
  | TLeaf kd raw _ => TLeaf kd raw (leafName kd)
  | TEmptyLeaf kd => TLeaf kd [] (leafName kd)
  | _ => tok
  end.

Lemma handleAll_plain content toks : ∀ st,
  handleAll content (plain <$> toks) st = handleAll content toks st.
Proof.
  induction toks as [|tok toks IH]; intros st; [done|].
  rewrite fmap_cons. cbn [handleAll].
  assert (action content (plain tok) st = action content tok st) as ->
    by (by destruct tok as [| [] ? ?| | | | | | | | |]).
  destruct (action content tok st) as [[[] st']|]; [apply IH|done].
Qed.

(** The tags of a document that have handlers, in their usual form. *)
Definition tagsOf (items : layout) : list token :=
  plain <$> filter (λ tok, significant tok = true) items.*2.

(** The outcome of [parse] on a document whose tags, leaving out what is
    passed over, are those of an element. *)
Lemma parse_element (bom : jsstring) (items : layout) (trailing : jsstring)
    (e : element) (k : option jsstring) :
  bom = [] ∨ bom = [BOM] → well_formed items → blanks trailing →
  tagsOf items = tokens e → accepted e →
  parse (bom ++ renderAll items ++ trailing) k = Some (Ok (flatten e 0)).
Proof.
  intros Hbom Hwf Htr Htoks Hacc. rewrite parse_layout by done.
  set (content := bom ++ renderAll items ++ trailing).
  assert (ready (initialState content)) as Hready by done.
  pose proof (handleAll_element content e [] (initialState content) Hacc Hready) as Hall.
  rewrite app_nil_r, <- Htoks in Hall. unfold tagsOf in Hall.
  rewrite handleAll_plain in Hall. simpl in Hall.
  destruct (handleTokens_handleAll content items (length bom) _ _ Hall) as [q ->].
  simpl. unfold built. simpl. by destruct (flatten e 0).
Qed.

(** ** Escaping *)

(** The usual escaping of a text: the five characters that have a named
    entity are replaced by it. *)
Definition escapeChar (c : chcode) : jsstring :=
  if (c =? 38)%N then amp_entity
  else if (c =? 60)%N then lt_entity
  else if (c =? 62)%N then gt_entity
  else if (c =? 34)%N then quot_entity
  else if (c =? 39)%N then apos_entity
  else [c].

Definition escape (s : jsstring) : jsstring := flat_map escapeChar s.

Lemma replace_from_skip matcher fn a rest :
  replace_from matcher fn (length a) (a ++ rest) = replace_from matcher fn 0 rest.
Proof.
  induction a as [|c a IH]; simpl; [|done]. by destruct rest.
Qed.

(** A text none of whose suffixes begins with [&#] has no numeric
    reference. *)
Definition no_reference (t : jsstring) : Prop :=
  ∀ i, starts_with [AMPERSAND; HASH] (drop i t) = false.

Lemma starts_with_prefix p q s :
  starts_with (p ++ q) s = true → starts_with p s = true.
Proof.
  revert s. induction p as [|c p IH]; intros [|d s]; simpl; try done.
  intros [Hcd Hs]%andb_true_iff. rewrite Hcd. simpl. by apply IH.
Qed.

Lemma matchReference_no_reference rest cls t :
  starts_with [AMPERSAND; HASH] t = false →
  matchReference ([AMPERSAND; HASH] ++ rest) cls t = None.
Proof.
  intros Hno. unfold matchReference.
  destruct (starts_with ([AMPERSAND; HASH] ++ rest) t) eqn:Hs; [|done].
  apply starts_with_prefix in Hs. congruence.
Qed.

Lemma replace_no_match matcher fn t :
  (∀ i, matcher (drop i t) = None) → replace matcher fn t = Ok t.
Proof.
  unfold replace. induction t as [|c t IH]; intros Hno; simpl; [done|].
  pose proof (Hno 0) as H0. simpl in H0. rewrite H0.
  rewrite IH; [done|]. intros i. apply (Hno (S i)).
Qed.

Lemma no_reference_cons c t :
  c ≠ AMPERSAND → no_reference t → no_reference (c :: t).
Proof.
  intros Hc Ht [|i]; [|apply Ht]. rewrite drop_0.
  change (starts_with [AMPERSAND; HASH] (c :: t))
    with ((AMPERSAND =? c)%N && starts_with [HASH] t).
  apply N.eqb_neq in Hc. rewrite N.eqb_sym in Hc. by rewrite Hc.
Qed.

Lemma no_reference_escape s : no_reference (escape s).
Proof.
  induction s as [|c s IH]; [by intros [|i]|].
  unfold escape. simpl. fold (escape s). unfold escapeChar.
  repeat case_match; simpl;
    repeat (apply no_reference_cons; [done|]); try done.
  - intros [|i]; [done|]. simpl. revert i.
    fold (no_reference (str "amp;" ++ escape s)).
    by repeat (apply no_reference_cons; [done|]).
  - intros [|i]; [done|]. simpl. revert i.
    fold (no_reference (str "lt;" ++ escape s)).
    by repeat (apply no_reference_cons; [done|]).
  - intros [|i]; [done|]. simpl. revert i.
    fold (no_reference (str "gt;" ++ escape s)).
    by repeat (apply no_reference_cons; [done|]).
  - intros [|i]; [done|]. simpl. revert i.
    fold (no_reference (str "quot;" ++ escape s)).
    by repeat (apply no_reference_cons; [done|]).
  - intros [|i]; [done|]. simpl. revert i.
    fold (no_reference (str "apos;" ++ escape s)).
    by repeat (apply no_reference_cons; [done|]).
  - apply no_reference_cons; [|done]. intros ->. done.
Qed.

Lemma replace_named_escape s :
  replace matchNamed (λ m, Ok (namedReplacement m)) (escape s) = Ok s.
Proof.
  unfold replace. induction s as [|c s IH]; [done|].
  unfold escape. simpl flat_map. fold (escape s). unfold escapeChar.
  destruct (c =? 38)%N eqn:H1; [apply N.eqb_eq in H1 as ->; simpl; by rewrite IH|].
  destruct (c =? 60)%N eqn:H2; [apply N.eqb_eq in H2 as ->; simpl; by rewrite IH|].
  destruct (c =? 62)%N eqn:H3; [apply N.eqb_eq in H3 as ->; simpl; by rewrite IH|].
  destruct (c =? 34)%N eqn:H4; [apply N.eqb_eq in H4 as ->; simpl; by rewrite IH|].
  destruct (c =? 39)%N eqn:H5; [apply N.eqb_eq in H5 as ->; simpl; by rewrite IH|].
  change ([c] ++ escape s) with (c :: escape s).
  cbn [replace_from].
  destruct (matchNamed (c :: escape s)) as [m|] eqn:Hm.
  - apply matchNamed_ampersand in Hm as [r [= -> _]]. done.
  - by rewrite IH.
Qed.

Lemma escape_no_less_than s : Forall (λ c, c ≠ LESS_THAN) (escape s).
Proof.
  induction s as [|c s IH]; [constructor|].
  unfold escape. simpl flat_map. fold (escape s). apply Forall_app. split; [|done].
  unfold escapeChar. repeat case_match; repeat constructor; try done.
  intros ->. done.
Qed.

Lemma delimited_nil d : delimited [] d.
Proof.
  unfold delimited, indexOf. simpl. rewrite drop_0, indexOf_aux_unfold.
  pose proof (starts_with_app d []) as Hd. rewrite app_nil_r in Hd. by rewrite Hd.
Qed.

Lemma delimited_without c d body :
  Forall (λ b, b ≠ c) body → delimited body (c :: d).
Proof.
  induction 1 as [|b body Hb _ IH]; [apply delimited_nil|].
  apply delimited_cons; [|done]. simpl.
  apply N.eqb_neq in Hb. rewrite N.eqb_sym in Hb. by rewrite Hb.
Qed.

Lemma escapeVal_of_escape s : escapeVal (escape s) = Ok s.
Proof.
  pose proof (no_reference_escape s) as Hno.
  unfold escapeVal.
  rewrite (replace_no_match matchDecimal)
    by (intros i; apply (matchReference_no_reference []), Hno).
  simpl.
  rewrite (replace_no_match matchHex)
    by (intros i; apply (matchReference_no_reference [LOWER_X]), Hno).
  simpl. apply replace_named_escape.
Qed.

Lemma escapeVal_ampersand_reference s :
  head s ≠ Some HASH → escapeVal (str "&#38;" ++ s) = escapeVal (AMPERSAND :: s).
Proof.
  intros Hs. unfold escapeVal, replace.
  assert (replace_from matchDecimal (λ m0, fromCodePoint (parseInt m0 10)) 0
            (str "&#38;" ++ s)
          = (t ← replace_from matchDecimal (λ m0, fromCodePoint (parseInt m0 10)) 0 s;
             Ok (AMPERSAND :: t))) as ->.
  { reflexivity. }
  assert (replace_from matchDecimal (λ m0, fromCodePoint (parseInt m0 10)) 0
            (AMPERSAND :: s)
          = (t ← replace_from matchDecimal (λ m0, fromCodePoint (parseInt m0 10)) 0 s;
             Ok (AMPERSAND :: t))) as ->; [|done].
  cbn [replace_from].
  assert (matchDecimal (AMPERSAND :: s) = None) as ->; [|done].
  unfold matchDecimal, matchReference.
  destruct s as [|c s]; [done|].
  assert (c ≠ HASH) as Hc by (intros ->; done).
  apply N.eqb_neq in Hc. rewrite N.eqb_sym in Hc.
  change (starts_with [AMPERSAND; HASH] (AMPERSAND :: c :: s))
    with ((AMPERSAND =? AMPERSAND)%N && ((HASH =? c)%N && true)).
  by rewrite Hc.
Qed.

(** ** What is no tag *)

Lemma runs_to_tokens content items : ∀ pre rest st st',
  content = pre ++ renderAll items ++ rest → well_formed items → pos st = length pre →
  handleTokens content (length pre) items st = Ok st' →
  runs_to content None st st' ∧ pos st' = length pre + length (renderAll items).
Proof.
  induction items as [|[ws tok] items IH]; intros pre rest st st' Hc Hwf Hp Hrun.
  - simpl in *. injection Hrun as <-. split; [apply runs_here|lia].
  - apply Forall_cons in Hwf as [[Hws Hv] Hwf]. simpl in Hws, Hv.
    pose proof (render_length tok) as Hlen.
    assert (content = pre ++ ws ++ render tok ++ (renderAll items ++ rest)) as Hc'.
    { rewrite Hc. simpl. by rewrite <- !app_assoc. }
    simpl in Hrun.
    destruct (action content tok _) as [[[] st1]|e] eqn:Hact; [|done].
    pose proof (action_location _ _ _ _ Hact) as Hp1. rewrite pos_with_pos in Hp1.
    destruct (IH (pre ++ ws ++ render tok) rest st1 st') as [Hruns Hp'].
    + rewrite Hc'. by rewrite <- !app_assoc.
    + done.
    + rewrite Hp1, !length_app. lia.
    + by rewrite !length_app, Nat.add_assoc.
    + split.
      * eapply runs_on; [| |exact Hruns].
        -- rewrite Hc', Hp, !length_app. lia.
        -- rewrite (loopBody_token content pre ws tok (renderAll items ++ rest)) by done.
           unfold mbind, M_bind. by rewrite Hact.
      * rewrite Hp'. simpl. rewrite !length_app. lia.
Qed.

Lemma loop_throws content k st st' e : ∀ fuel,
  runs_to content k st st' → pos st ≤ length content → pos st' < length content →
  loopBody content k st' = Throw e → length content - pos st < fuel →
  loop content k fuel st = Some (Throw e).
Proof.
  intros fuel Hruns. revert fuel.
  induction Hruns as [|st c st' st'' Hlt Hbody Hruns IH]; intros fuel Hle Hlt' Hthrow Hfuel.
  - destruct fuel as [|fuel]; [lia|]. simpl.
    rewrite bool_decide_eq_true_2 by done. by rewrite Hthrow.
  - destruct fuel as [|fuel]; [lia|]. simpl. rewrite bool_decide_eq_true_2 by done.
    pose proof (loopBody_unary content k st Hle) as Hit. rewrite Hbody in *.
    destruct Hit as (Hle' & _ & Hc). destruct c.
    + destruct Hc as [Hend _]. inversion Hruns; subst; lia.
    + apply IH; [done..|lia].
Qed.

(** When the handlers of the tags in front have returned, [parse] throws
    what the next iteration throws. *)
Lemma parse_throws_behind items rest e st' k :
  well_formed items →
  pos (initialState (renderAll items ++ rest)) = 0 →
  handleTokens (renderAll items ++ rest) 0 items (initialState (renderAll items ++ rest))
  = Ok st' →
  rest ≠ [] →
  loopBody (renderAll items ++ rest) None st' = Throw e →
  parse (renderAll items ++ rest) k = Some (Throw e).
Proof.
  intros Hwf Hp0 Hrun Hrest Hthrow. set (content := renderAll items ++ rest) in *.
  rewrite (parse_mode_irrelevant content k None). unfold parse.
  destruct (runs_to_tokens content items [] rest (initialState content) st')
    as [Hruns Hp]; try done.
  erewrite loop_throws; [done|exact Hruns| | |exact Hthrow|lia].
  - rewrite Hp0. lia.
  - rewrite Hp. unfold content. rewrite length_app. simpl.
    destruct rest; [done|simpl; lia].
Qed.

Lemma initialState_pos_0 items ws rest :
  well_formed items → blanks ws → head rest ≠ Some BOM →
  pos (initialState (renderAll items ++ ws ++ rest)) = 0.
Proof.
  intros Hwf Hws Hrest. unfold initialState. simpl.
  rewrite bool_decide_eq_false_2; [done|]. intros [_ Hc].
  unfold charCodeAt in Hc. rewrite <- head_lookup in Hc.
  destruct items as [|[ws' tok] items]; simpl in Hc.
  - destruct Hws as [|b ws Hb _]; simpl in Hc; [done|]. by injection Hc as ->.
  - apply Forall_cons in Hwf as [[Hws' _] _]. simpl in Hws'.
    destruct Hws' as [|b ws' Hb _]; simpl in Hc.
    + by destruct tok as [[]|[] ? ?|[]|[] ? ?|[]|[]| | | | |].
    + by injection Hc as ->.
Qed.

(** The names that [parse] knows. *)
Definition tagNames : list jsstring :=
  [str "dict"; str "array"; str "key"; str "string"; str "real"; str "integer";
   str "date"; str "data"; str "true"; str "false"].

Lemma dispatchTag_unknown content k tag :
  name tag ∉ tagNames → starts_with (str "plist") (name tag) = false →
  dispatchTag content k tag = fail content (str "unexpected opened tag " ++ name tag).
Proof.
  intros Hn Hp. unfold dispatchTag.
  repeat (case_decide as Heq;
          [exfalso; apply Hn; rewrite Heq; apply list_elem_of_In; vm_compute; tauto
          |clear Heq]).
  by rewrite Hp.
Qed.

Section Rejected.
Context (content pre ws : jsstring) (st : pstate).
Context (Hws : blanks ws) (Hp : pos st = length pre).
#[local] Set Default Proof Using "Type*".

(** A character that is neither a blank nor [<]. *)
Lemma loopBody_expected c rest :
  content = pre ++ ws ++ c :: rest → isBlank c = false → c ≠ LESS_THAN →
  loopBody content None st
  = Throw (ParseError (length pre + length ws + 1) (str "expected <")
             (substr content (length pre + length ws + 1) 50)).
Proof.
  intros Hc Hnb Hlt.
  assert (length content = length pre + length ws + 1 + length rest) as Hlen.
  { rewrite Hc, !length_app. simpl. lia. }
  assert (content !! (length pre + length ws) = Some c) as Hlook.
  { rewrite Hc, app_assoc, lookup_app_r by (rewrite length_app; lia).
    by rewrite length_app, Nat.sub_diag. }
  unfold loopBody, charCodeAt.
  erewrite bind_run by (rewrite Hc; by apply skipWhitespace_over).
  erewrite bind_run by reflexivity. cbv beta zeta. rewrite !pos_with_pos.
  rewrite bool_decide_eq_false_2 by lia.
  erewrite bind_run by reflexivity. rewrite Hlook.
  rewrite bool_decide_eq_true_2 by congruence.
  reflexivity.
Qed.

(** [<] at the end of the input. *)
Lemma loopBody_end :
  content = pre ++ ws ++ [LESS_THAN] →
  loopBody content None st
  = Throw (ParseError (length content) (str "unexpected end of input") []).
Proof.
  intros Hc.
  assert (length content = length pre + length ws + 1) as Hlen.
  { rewrite Hc, !length_app. simpl. lia. }
  assert (content !! (length pre + length ws) = Some LESS_THAN) as Hlook.
  { rewrite Hc, app_assoc, lookup_app_r by (rewrite length_app; lia).
    by rewrite length_app, Nat.sub_diag. }
  unfold loopBody, charCodeAt.
  erewrite bind_run by (rewrite Hc; by apply skipWhitespace_over).
  erewrite bind_run by reflexivity. cbv beta zeta. rewrite !pos_with_pos.
  rewrite bool_decide_eq_false_2 by lia.
  erewrite bind_run by reflexivity. rewrite Hlook.
  rewrite (bool_decide_eq_false_2 (Some LESS_THAN ≠ Some LESS_THAN)) by (by intros ?).
  erewrite bind_run by reflexivity.
  erewrite bind_run by reflexivity. cbv beta. unfold with_pos at 1. simpl pos.
  rewrite bool_decide_eq_true_2 by lia.
  unfold when, fail, mbind, M_bind. simpl. f_equal. f_equal; [lia|].
  unfold substr. rewrite drop_ge by lia. done.
Qed.

(** An opening tag with a name that [parse] does not know. *)
Lemma loopBody_unknown_open c text rest :
  content = pre ++ ws ++ LESS_THAN :: c :: text ++ GREATER_THAN :: rest →
  c ≠ QUESTION_MARK → c ≠ EXCLAMATION_MARK → c ≠ SLASH →
  delimited (c :: text) [GREATER_THAN] →
  name (tagOf (c :: text)) ∉ tagNames →
  starts_with (str "plist") (name (tagOf (c :: text))) = false →
  loopBody content None st
  = Throw (ParseError (length pre + length ws + length text + 3)
             (str "unexpected opened tag " ++ name (tagOf (c :: text)))
             (substr content (length pre + length ws + length text + 3) 50)).
Proof.
  intros Hc Hq He Hs Hd Hn Hpl.
  rewrite (loopBody_open content pre ws c text rest) by done.
  by rewrite dispatchTag_unknown.
Qed.

(** A closing tag with a name that [parse] does not know. *)
Lemma loopBody_unknown_close ws' d rest :
  content = pre ++ ws ++ str "</" ++ ws' ++ d :: rest →
  blanks ws' → isBlank d = false →
  starts_with (str "plist") (d :: rest) = false →
  starts_with (str "dict") (d :: rest) = false →
  starts_with (str "array") (d :: rest) = false →
  loopBody content None st
  = Throw (ParseError (length pre + length ws + 2 + length ws')
             (str "unexpected closed tag")
             (substr content (length pre + length ws + 2 + length ws') 50)).
Proof.
  intros Hc Hws' Hd Hplist Hdict Harray.
  rewrite (loopBody_tag content pre ws SLASH (ws' ++ d :: rest)) by done.
  change (tagBody content None (Some SLASH)) with (closingTag content None).
  unfold closingTag.
  erewrite bind_run by reflexivity. rewrite pos_with_pos, with_pos_with_pos.
  erewrite bind_run.
  2:{ rewrite Hc.
      replace (pre ++ ws ++ str "</" ++ ws' ++ d :: rest)
        with ((pre ++ ws ++ str "</") ++ ws' ++ d :: rest) by (by rewrite <- !app_assoc).
      apply skipWhitespace_over; [done..|]. at_pos. }
  rewrite with_pos_with_pos.
  erewrite bind_run.
  2:{ rewrite (advanceIfStartsWith_run content (pre ++ ws ++ str "</" ++ ws') (d :: rest)).
      - rewrite Hplist. reflexivity.
      - rewrite Hc. by rewrite <- !app_assoc.
      - repeat first [rewrite pos_with_pos | rewrite length_app | progress simpl]. lia. }
  cbv iota beta.
  erewrite bind_run.
  2:{ rewrite (advanceIfStartsWith_run content (pre ++ ws ++ str "</" ++ ws') (d :: rest)).
      - rewrite Hdict. reflexivity.
      - rewrite Hc. by rewrite <- !app_assoc.
      - repeat first [rewrite pos_with_pos | rewrite length_app | progress simpl]. lia. }
  cbv iota beta.
  erewrite bind_run.
  2:{ rewrite (advanceIfStartsWith_run content (pre ++ ws ++ str "</" ++ ws') (d :: rest)).
      - rewrite Harray. reflexivity.
      - rewrite Hc. by rewrite <- !app_assoc.
      - repeat first [rewrite pos_with_pos | rewrite length_app | progress simpl]. lia. }
  cbv iota beta. unfold fail. rewrite pos_with_pos.
  replace (length (pre ++ ws ++ str "</") + length ws')
    with (length pre + length ws + 2 + length ws')
    by (rewrite !length_app; simpl; lia).
  done.
Qed.
End Rejected.

(** ** Documents *)

(** X11. A document made of tags that [parse] knows and of parts that it
    passes over (processing instructions, comments, declarations, the
    tags of [plist]), with blanks in front of them and behind the last
    one, and possibly behind a byte order mark: [parse] calls the
    handlers of the tags, one tag after the other and each with [pos]
    behind its tag, and returns what they have built or throws what
    they throw. *)
Theorem parse_tag_by_tag (bom : jsstring) (items : layout) (trailing : jsstring)
    (k : option jsstring) :
  bom = [] ∨ bom = [BOM] → well_formed items → blanks trailing →
  let content := bom ++ renderAll items ++ trailing in
  parse content k
  = Some (outcome (handleTokens content (length bom) items (initialState content))).
Proof. intros Hbom Hwf Htr. by apply parse_layout. Qed.

Lemma parse_tag_by_tag_witness :
  let items := [([], TInstruction (str "xml"));
                (str " ", TOpen KArray);
                ([LINE_FEED], TLeaf KString (str "a&amp;b") (str "string"));
                ([], TComment (str " - "));
                ([], TClose KDict [] [])] in
  let content := renderAll items ++ [LINE_FEED] in
  content = str "<?xml?> <array>" ++ [LINE_FEED]
            ++ str "<string>a&amp;b</string><!-- - --></dict>" ++ [LINE_FEED]
  ∧ parse content None
    = Some (Throw (ParseError 57 (str "unexpected </dict>") [LINE_FEED])).
Proof.
  intros items content. split; [reflexivity|].
  assert (well_formed items) as Hwf.
  { repeat constructor; by vm_compute. }
  assert (blanks [LINE_FEED]) as Htr by (by repeat constructor).
  exact (parse_tag_by_tag [] items [LINE_FEED] None (or_introl eq_refl) Hwf Htr).
Defined.

(** X12. A well-nested document: the tags of one element (a leaf, [true]
    or [false], or a dictionary or an array of elements, each entry of
    a dictionary behind its key), the text of a leaf free of the
    closing delimiter, with blanks and parts to pass over anywhere
    between them; the closing tag of a leaf may be any text, that of a
    container may have blanks in front of its name and any text behind
    it, and an empty leaf may be written as one tag.  If every text can
    be unescaped and every number can be read, [parse] returns the
    value of the element: the leaf, or a new container for every
    dictionary and array, made in the order in which they are opened.
    An array holds the values of its elements in their order.  A
    dictionary has, for each key but [__proto__], the value of the last
    entry with that key as a property; an entry with the key
    [__proto__] makes no property: its value becomes the prototype of
    the dictionary when it is a date or a container, and is dropped
    otherwise. *)
Theorem parse_well_nested_document (bom : jsstring) (items : layout)
    (trailing : jsstring) (e : element) (k : option jsstring) :
  bom = [] ∨ bom = [BOM] → well_formed items → blanks trailing →
  tagsOf items = tokens e → accepted e →
  parse (bom ++ renderAll items ++ trailing) k = Some (Ok (flatten e 0)).
Proof. apply parse_element. Qed.

(** A property list as it is usually written, but for its last two
    entries, whose key is [__proto__]. *)
Definition sample_element : element :=
  EDict [(str "name", ELeaf KString (str "a &lt; b"));
         (str "size", EArray [ELeaf KInteger (str "12"); ELeaf KReal (str "1.5");
                              EBool true; EEmpty KDict; ELeaf KString []]);
         (str "name", ELeaf KData (str "AAEC"));
         (str "__proto__", EEmpty KArray);
         (str "__proto__", ELeaf KString (str "x"))].

Definition sample_layout : layout :=
  [([], TInstruction (str "xml version=1.0"));
   ([LINE_FEED], TDeclaration (str "DOCTYPE plist"));
   ([LINE_FEED], TPlistOpen (str " version=1.0"));
   ([LINE_FEED], TOpen KDict);
   ([LINE_FEED; TAB], TLeaf KKey (str "name") (str "key"));
   ([LINE_FEED; TAB], TLeaf KString (str "a &lt; b") (str "string"));
   ([LINE_FEED; TAB], TLeaf KKey (str "size") (str "key"));
   ([LINE_FEED; TAB], TOpen KArray);
   ([LINE_FEED; TAB; TAB], TLeaf KInteger (str "12") (str "integer"));
   ([LINE_FEED; TAB; TAB], TLeaf KReal (str "1.5") (str "number"));
   ([LINE_FEED; TAB; TAB], TComment (str " yes "));
   ([SPACE], TBool true);
   ([LINE_FEED; TAB; TAB], TEmpty KDict);
   ([LINE_FEED; TAB; TAB], TEmptyLeaf KString);
   ([LINE_FEED; TAB], TClose KArray [SPACE] [SPACE]);
   ([LINE_FEED; TAB], TLeaf KKey (str "name") (str "key"));
   ([LINE_FEED; TAB], TLeaf KData (str "AAEC") (str "data"));
   ([LINE_FEED; TAB], TLeaf KKey (str "__proto__") (str "key"));
   ([LINE_FEED; TAB], TEmpty KArray);
   ([LINE_FEED; TAB], TLeaf KKey (str "__proto__") (str "key"));
   ([LINE_FEED; TAB], TLeaf KString (str "x") (str "string"));
   ([LINE_FEED], TClose KDict [] []);
   ([LINE_FEED], TPlistClose [] [])].

Lemma parse_well_nested_document_witness :
  parse ([BOM] ++ renderAll sample_layout ++ [LINE_FEED]) None
  = Some (Ok (VRef 0,
              [ODict (Some (VRef 3))
                     (<[str "name" := VString (str "AAEC")]>
                        (<[str "size" := VRef 1]>
                           (<[str "name" := VString (str "a < b")]> ∅)));
               OArray [VNumber (Num (Finite false 3 2)); VNumber (Num (Finite false 3 (-1)));
                       VBool true; VRef 2; VString []];
               ODict None ∅;
               OArray []])).
Proof.
  assert (well_formed sample_layout) as Hwf by (repeat constructor; by vm_compute).
  assert (blanks [LINE_FEED]) as Htr by (by repeat constructor).
  assert (tagsOf sample_layout = tokens sample_element) as Htoks by reflexivity.
  assert (accepted sample_element) as Hacc
    by (simpl; repeat split; eexists; vm_compute; reflexivity).
  exact (parse_well_nested_document [BOM] sample_layout [LINE_FEED] sample_element None
           (or_intror eq_refl) Hwf Htr Htoks Hacc).
Defined.

(** ** Escaping and unescaping *)

(** X13. [escapeVal] undoes the usual escaping: for every text, replacing
    each of the five characters that have a named entity by that entity
    gives a text that [escapeVal] turns back into the text, without
    throwing; and the escaped text can stand in a leaf, as it does not
    hold the closing delimiter. *)
Theorem escapeVal_inverts_escape (s : jsstring) :
  escapeVal (escape s) = Ok s ∧ delimited (escape s) (str "</").
Proof.
  split; [apply escapeVal_of_escape|].
  apply delimited_without, escape_no_less_than.
Qed.

(** X14. The three replacements of [escapeVal] are made one after the
    other on the whole text, so what the first has produced is
    unescaped again: the reference [&#38;] of the character [&],
    followed by anything but [#], is read like the character itself,
    and joins what follows to make an entity. *)
Theorem escapeVal_unescapes_twice (s : jsstring) :
  head s ≠ Some HASH →
  escapeVal (str "&#38;" ++ s) = escapeVal (AMPERSAND :: s).
Proof. apply escapeVal_ampersand_reference. Qed.

Lemma escapeVal_unescapes_twice_witness :
  head (str "lt;") ≠ Some HASH
  ∧ escapeVal (str "&#38;lt;") = Ok (str "<").
Proof.
  assert (head (str "lt;") ≠ Some HASH) as H by discriminate.
  split; [exact H|]. exact (escapeVal_unescapes_twice (str "lt;") H).
Defined.

(** ** What is rejected between the tags *)

(** X15. Text outside the tags: behind tags whose handlers return, a
    character that is neither a blank nor [<] makes [parse] throw
    "expected <", at the offset behind that character. *)
Theorem text_outside_tags_rejected (items : layout) (ws : jsstring) (c : chcode)
    (rest : jsstring) (st' : pstate) (k : option jsstring) :
  well_formed items → blanks ws → isBlank c = false → c ≠ LESS_THAN → c ≠ BOM →
  let content := renderAll items ++ ws ++ c :: rest in
  let offset := length (renderAll items) + length ws + 1 in
  handleTokens content 0 items (initialState content) = Ok st' →
  parse content k
  = Some (Throw (ParseError offset (str "expected <") (substr content offset 50))).
Proof.
  intros Hwf Hws Hnb Hlt Hbom content offset Hrun.
  assert (pos (initialState content) = 0) as Hp0.
  { apply initialState_pos_0; try done. simpl. congruence. }
  destruct (runs_to_tokens content items (@nil N) (ws ++ c :: rest) _ _ eq_refl Hwf Hp0 Hrun)
    as [_ Hp].
  apply (parse_throws_behind items (ws ++ c :: rest) _ st'); try done.
  - by destruct ws.
  - by apply (loopBody_expected content (renderAll items) ws st' Hws Hp c rest).
Qed.

Lemma text_outside_tags_rejected_witness :
  let items : layout := [([], TOpen KArray)] in
  let content := str "<array> x</array>" in
  parse content None
  = Some (Throw (ParseError 9 (str "expected <") (str "</array>"))).
Proof.
  intros items content.
  assert (well_formed items) as Hwf by (repeat constructor; by vm_compute).
  assert (blanks (str " ")) as Hws by (by repeat constructor).
  exact (text_outside_tags_rejected items (str " ") 120%N (str "</array>")
           (mkState 7 1 0 ARR_STATE (VRef 0) [ROOT_STATE] [VRef 0] None [OArray []]) None
           Hwf Hws eq_refl ltac:(discriminate) ltac:(discriminate) eq_refl).
Defined.

(** X16. An unknown opening tag: behind tags whose handlers return, a tag
    whose name is none of the ten that [parse] knows and does not begin
    with [plist] makes [parse] throw "unexpected opened tag" with the
    name, at the offset behind the tag. *)
Theorem unknown_opening_tag_rejected (items : layout) (ws : jsstring) (c : chcode)
    (text rest : jsstring) (st' : pstate) (k : option jsstring) :
  well_formed items → blanks ws →
  c ≠ QUESTION_MARK → c ≠ EXCLAMATION_MARK → c ≠ SLASH →
  delimited (c :: text) [GREATER_THAN] →
  name (tagOf (c :: text)) ∉ tagNames →
  starts_with (str "plist") (name (tagOf (c :: text))) = false →
  let content := renderAll items ++ ws ++ LESS_THAN :: c :: text ++ GREATER_THAN :: rest in
  let offset := length (renderAll items) + length ws + length text + 3 in
  handleTokens content 0 items (initialState content) = Ok st' →
  parse content k
  = Some (Throw (ParseError offset
                   (str "unexpected opened tag " ++ name (tagOf (c :: text)))
                   (substr content offset 50))).
Proof.
  intros Hwf Hws Hq He Hs Hd Hn Hpl content offset Hrun.
  assert (pos (initialState content) = 0) as Hp0.
  { by apply initialState_pos_0. }
  destruct (runs_to_tokens content items (@nil N)
              (ws ++ LESS_THAN :: c :: text ++ GREATER_THAN :: rest) _ _ eq_refl Hwf Hp0 Hrun)
    as [_ Hp].
  apply (parse_throws_behind items (ws ++ LESS_THAN :: c :: text ++ GREATER_THAN :: rest)
           _ st'); try done.
  - by destruct ws.
  - by apply (loopBody_unknown_open content (renderAll items) ws st' Hws Hp c text rest).
Qed.

Lemma unknown_opening_tag_rejected_witness :
  let content := str "<array><number>1</number></array>" in
  parse content None
  = Some (Throw (ParseError 15 (str "unexpected opened tag number")
                   (str "1</number></array>"))).
Proof.
  intros content.
  assert (well_formed [([], TOpen KArray)]) as Hwf by (repeat constructor; by vm_compute).
  assert (name (tagOf (str "number")) ∉ tagNames) as Hn.
  { intros Hin%list_elem_of_In. vm_compute in Hin. intuition discriminate. }
  exact (unknown_opening_tag_rejected [([], TOpen KArray)] [] 110%N (str "umber")
           (str "1</number></array>")
           (mkState 7 1 0 ARR_STATE (VRef 0) [ROOT_STATE] [VRef 0] None [OArray []]) None
           Hwf (List.Forall_nil _) ltac:(discriminate) ltac:(discriminate) ltac:(discriminate)
           eq_refl Hn eq_refl eq_refl).
Defined.

(** X17. An unknown closing tag: behind tags whose handlers return, [</]
    and blanks followed by anything but [plist], [dict] and [array]
    makes [parse] throw "unexpected closed tag", at the offset behind
    the blanks. *)
Theorem unknown_closing_tag_rejected (items : layout) (ws ws' : jsstring) (d : chcode)
    (rest : jsstring) (st' : pstate) (k : option jsstring) :
  well_formed items → blanks ws → blanks ws' → isBlank d = false →
  starts_with (str "plist") (d :: rest) = false →
  starts_with (str "dict") (d :: rest) = false →
  starts_with (str "array") (d :: rest) = false →
  let content := renderAll items ++ ws ++ str "</" ++ ws' ++ d :: rest in
  let offset := length (renderAll items) + length ws + 2 + length ws' in
  handleTokens content 0 items (initialState content) = Ok st' →
  parse content k
  = Some (Throw (ParseError offset (str "unexpected closed tag")
                   (substr content offset 50))).
Proof.
  intros Hwf Hws Hws' Hd Hplist Hdict Harray content offset Hrun.
  assert (pos (initialState content) = 0) as Hp0.
  { by apply initialState_pos_0. }
  destruct (runs_to_tokens content items (@nil N) (ws ++ str "</" ++ ws' ++ d :: rest)
              _ _ eq_refl Hwf Hp0 Hrun) as [_ Hp].
  apply (parse_throws_behind items (ws ++ str "</" ++ ws' ++ d :: rest) _ st'); try done.
  - by destruct ws.
  - by apply (loopBody_unknown_close content (renderAll items) ws st' Hws Hp ws' d rest).
Qed.

Lemma unknown_closing_tag_rejected_witness :
  let content := str "<array></string>" in
  parse content None
  = Some (Throw (ParseError 9 (str "unexpected closed tag") (str "string>"))).
Proof.
  intros content.
  assert (well_formed [([], TOpen KArray)]) as Hwf by (repeat constructor; by vm_compute).
  exact (unknown_closing_tag_rejected [([], TOpen KArray)] [] [] 115%N (str "tring>")
           (mkState 7 1 0 ARR_STATE (VRef 0) [ROOT_STATE] [VRef 0] None [OArray []]) None
           Hwf (List.Forall_nil _) (List.Forall_nil _) eq_refl eq_refl eq_refl eq_refl eq_refl).
Defined.

(** X18. [<] as the last character of the input: behind tags whose
    handlers return, it makes [parse] throw "unexpected end of input",
    at the end of the input. *)
Theorem lone_less_than_rejected (items : layout) (ws : jsstring) (st' : pstate)
    (k : option jsstring) :
  well_formed items → blanks ws →
  let content := renderAll items ++ ws ++ [LESS_THAN] in
  handleTokens content 0 items (initialState content) = Ok st' →
  parse content k
  = Some (Throw (ParseError (length content) (str "unexpected end of input") [])).
Proof.
  intros Hwf Hws content Hrun.
  assert (pos (initialState content) = 0) as Hp0.
  { by apply initialState_pos_0. }
  destruct (runs_to_tokens content items (@nil N) (ws ++ [LESS_THAN]) _ _ eq_refl Hwf Hp0 Hrun)
    as [_ Hp].
  apply (parse_throws_behind items (ws ++ [LESS_THAN]) _ st'); try done.
  - by destruct ws.
  - by apply (loopBody_end content (renderAll items) ws st' Hws Hp).
Qed.

Lemma lone_less_than_rejected_witness :
  parse (str "<array> <") None
  = Some (Throw (ParseError 9 (str "unexpected end of input") [])).
Proof.
  assert (well_formed [([], TOpen KArray)]) as Hwf by (repeat constructor; by vm_compute).
  assert (blanks (str " ")) as Hws by (by repeat constructor).
  exact (lone_less_than_rejected [([], TOpen KArray)] (str " ")
           (mkState 7 1 0 ARR_STATE (VRef 0) [ROOT_STATE] [VRef 0] None [OArray []]) None
           Hwf Hws eq_refl).
Defined.

(** ** Documents without an element, and with several *)

Lemma filter_insignificant (items : layout) :
  Forall (λ item, significant item.2 = false) items →
  filter (λ tok, significant tok = true) items.*2 = [].
Proof.
  induction 1 as [|[ws tok] items Htok _ IH]; [done|]. simpl in *.
  rewrite filter_cons, decide_False by congruence. done.
Qed.

(** X19. A document without any element (blanks, processing instructions,
    comments, declarations and the tags of [plist] only) is no error:
    [parse] returns [null]. *)
Theorem parse_without_element (bom : jsstring) (items : layout) (trailing : jsstring)
    (k : option jsstring) :
  bom = [] ∨ bom = [BOM] → well_formed items → blanks trailing →
  Forall (λ item, significant item.2 = false) items →
  parse (bom ++ renderAll items ++ trailing) k = Some (Ok (VNull, [])).
Proof.
  intros Hbom Hwf Htr Hins. rewrite parse_layout by done.
  set (content := bom ++ renderAll items ++ trailing).
  destruct (handleTokens_handleAll content items (length bom)
              (initialState content) (initialState content)) as [q ->]; [|done].
  by rewrite filter_insignificant.
Qed.

Lemma parse_without_element_witness :
  parse (str "<?xml version=1.0?> <!DOCTYPE plist><plist version=1.0> <!-- empty --></plist>"
           ++ [LINE_FEED]) None
  = Some (Ok (VNull, [])).
Proof.
  set (items := [([], TInstruction (str "xml version=1.0"));
                 (str " ", TDeclaration (str "DOCTYPE plist"));
                 ([], TPlistOpen (str " version=1.0"));
                 (str " ", TComment (str " empty "));
                 ([], TPlistClose [] [])] : layout).
  assert (well_formed items) as Hwf by (repeat constructor; by vm_compute).
  assert (blanks [LINE_FEED]) as Htr by (by repeat constructor).
  assert (Forall (λ item, significant item.2 = false) items) as Hins
    by (by repeat constructor).
  exact (parse_without_element [] items [LINE_FEED] None (or_introl eq_refl) Hwf Htr Hins).
Defined.

(** The value of the last of the elements [es] and the containers made
    for all of them, behind the containers [acc.2]. *)
Definition flattenAll (acc : value * list object) (es : list element)
  : value * list object :=
  foldl (λ acc e, ((flatten e (length acc.2)).1, acc.2 ++ (flatten e (length acc.2)).2))
        acc es.

Lemma handleAll_elements content es : ∀ rest st,
  state st = ROOT_STATE → curKey st = None → Forall accepted es →
  ∃ st', handleAll content (flat_map tokens es ++ rest) st = handleAll content rest st'
         ∧ (cur st', heap st') = flattenAll (cur st, heap st) es.
Proof.
  induction es as [|e es IH]; intros rest st Hs Hk Hacc.
  - by exists st.
  - apply Forall_cons in Hacc as [He Hes].
    assert (ready st) as Hready by (unfold ready; by rewrite Hs).
    assert (built e st
            = with_heap (heap st ++ (flatten e (length (heap st))).2)
                (with_cur (flatten e (length (heap st))).1 st)) as Hbuilt.
    { unfold built, stored. by rewrite Hs. }
    destruct (IH rest (built e st)) as (st' & Hrun & Hst'); [by rewrite Hbuilt..|done|].
    exists st'. split.
    + simpl. rewrite <- app_assoc. by rewrite handleAll_element.
    + rewrite Hst', Hbuilt. done.
Qed.

(** X20. Several elements one after the other, at the top level: if the
    tags of the document are those of the elements [es], whose texts
    can be unescaped and whose numbers can be read, [parse] returns the
    value of the last one, and the containers of all of them have been
    made; without any element it returns [null]. *)
Theorem parse_top_level_elements (bom : jsstring) (items : layout)
    (trailing : jsstring) (es : list element) (k : option jsstring) :
  bom = [] ∨ bom = [BOM] → well_formed items → blanks trailing →
  tagsOf items = flat_map tokens es →
  Forall accepted es →
  parse (bom ++ renderAll items ++ trailing) k
  = Some (Ok (flattenAll (VNull, []) es)).
Proof.
  intros Hbom Hwf Htr Htoks Hacc. rewrite parse_layout by done.
  set (content := bom ++ renderAll items ++ trailing).
  destruct (handleAll_elements content es [] (initialState content) eq_refl eq_refl Hacc)
    as (st' & Hall & Hst').
  rewrite app_nil_r, <- Htoks in Hall. unfold tagsOf in Hall.
  rewrite handleAll_plain in Hall. simpl in Hall.
  destruct (handleTokens_handleAll content items (length bom) _ _ Hall) as [q ->].
  simpl. by rewrite Hst'.
Qed.

Lemma parse_top_level_elements_witness :
  parse (str "<array><true/></array> <dict/><integer>7</integer>") None
  = Some (Ok (VNumber (Num (Finite false 7 0)), [OArray [VBool true]; ODict None ∅])).
Proof.
  set (items := [([], TOpen KArray); ([], TBool true); ([], TClose KArray [] []);
                 (str " ", TEmpty KDict);
                 ([], TLeaf KInteger (str "7") (str "integer"))] : layout).
  set (es := [EArray [EBool true]; EEmpty KDict; ELeaf KInteger (str "7")]).
  assert (well_formed items) as Hwf by (repeat constructor; by vm_compute).
  assert (Forall accepted es) as Hacc
    by (repeat constructor; simpl; try done; eexists; vm_compute; reflexivity).
  exact (parse_top_level_elements [] items [] es None (or_introl eq_refl) Hwf
           (List.Forall_nil _) eq_refl Hacc).
Defined.

(** ** Containers are not shared *)

(** The container at location [l] is an entry of [o]: a property, an
    element, or the prototype. *)
Definition holds (o : object) (l : nat) : Prop :=
  match o with
  | ODict proto props => proto = Some (VRef l) ∨ ∃ key, props !! key = Some (VRef l)
  | OArray elems => VRef l ∈ elems
  end.

(** No container is an entry of two containers. *)
Definition unshared (h : list object) : Prop :=
  ∀ a b oa ob l,
    h !! a = Some oa → h !! b = Some ob → holds oa l → holds ob l → a = b.

Lemma holds_within lo hi o l : object_within lo hi o → holds o l → lo < l < hi.
Proof.
  destruct o as [proto props|elems]; simpl.
  - intros [Hproto Hall] [->|[key Hkey]]; [done|]. apply (Hall key _ Hkey).
  - intros Hall Hin. by apply (proj1 (Forall_forall _ _) Hall _ Hin).
Qed.

Lemma holds_propAssign key v proto props l :
  holds (ODict (protoAssign key v proto) (propAssign key v props)) l →
  holds (ODict proto props) l ∨ v = VRef l.
Proof.
  unfold propAssign, protoAssign. case_decide; simpl.
  - intros [Hproto|Hprop]; [|left; by right].
    destruct v; try (left; by left). injection Hproto as ->. by right.
  - intros [Hproto|[key' Hkey]]; [left; by left|].
    apply lookup_insert_Some in Hkey as [[_ ->]|[_ Hkey]]; [by right|]. left. right. eauto.
Qed.

Lemma holds_push v elems l :
  holds (OArray (elems ++ [v])) l → holds (OArray elems) l ∨ v = VRef l.
Proof.
  simpl. intros [Hin|Hin%list_elem_of_singleton]%elem_of_app; [by left|by right].
Qed.

Lemma unshared_alloc h o : (∀ l, ¬ holds o l) → unshared h → unshared (h ++ [o]).
Proof.
  intros Ho Hh a b oa ob l Ha Hb Hoa Hob.
  apply lookup_app_Some in Ha as [Ha|[_ Ha]];
    [|apply list_lookup_singleton_Some in Ha as [_ <-]; by destruct (Ho l)].
  apply lookup_app_Some in Hb as [Hb|[_ Hb]];
    [|apply list_lookup_singleton_Some in Hb as [_ <-]; by destruct (Ho l)].
  by eapply Hh.
Qed.

(** Replacing the container at [p] by one that holds what it held and
    containers that nothing held. *)
Lemma unshared_insert h p o o' :
  h !! p = Some o →
  (∀ l, holds o' l → holds o l ∨ ∀ a oa, h !! a = Some oa → ¬ holds oa l) →
  unshared h → unshared (<[p := o']> h).
Proof.
  intros Hp Hnew Hh a b oa ob l Ha Hb Hoa Hob.
  destruct (decide (a = p)) as [->|Hap], (decide (b = p)) as [->|Hbp]; [done| | |].
  - rewrite list_lookup_insert_ne in Hb by done.
    apply list_lookup_insert_Some in Ha as [(_ & <- & _)|[? _]]; [|done].
    destruct (Hnew l Hoa) as [Ho|Hfresh]; [by eapply Hh|by destruct (Hfresh b ob)].
  - rewrite list_lookup_insert_ne in Ha by done.
    apply list_lookup_insert_Some in Hb as [(_ & <- & _)|[? _]]; [|done].
    destruct (Hnew l Hob) as [Ho|Hfresh]; [by eapply Hh|by destruct (Hfresh a oa)].
  - rewrite list_lookup_insert_ne in Ha, Hb by done. by eapply Hh.
Qed.

(** Nothing holds the container that is made next. *)
Lemma heap_ordered_fresh h o a oa :
  heap_ordered h → (∀ l, ¬ holds o l) →
  (h ++ [o]) !! a = Some oa → ¬ holds oa (length h).
Proof.
  intros Hh Ho Ha Hoa.
  apply lookup_app_Some in Ha as [Ha|[_ Ha]].
  - pose proof (holds_within _ _ _ _ (Hh a oa Ha) Hoa). lia.
  - apply list_lookup_singleton_Some in Ha as [_ <-]. by destruct (Ho (length h)).
Qed.

Definition tree_ok (st : pstate) : Prop := heap_ok st ∧ unshared (heap st).

Section Unshared.
Context (content : jsstring).

Lemma assignValue_unshared val st st' :
  (∀ l, val ≠ VRef l) →
  unshared (heap st) → assignValue content val st = Ok (tt, st') → unshared (heap st').
Proof.
  intros Hval Hh. destruct st as [p l c s v ss os ck h]. simpl in *.
  unfold assignValue. run_handler; intros [= <-]; simpl; try done.
  - eapply unshared_insert; [done| |done].
    intros l' [?|?]%holds_propAssign; [by left|by destruct (Hval l')].
  - eapply unshared_insert; [done| |done].
    intros l' [?|?]%holds_push; [by left|by destruct (Hval l')].
Qed.

Lemma enterContainer_unshared s o st st' :
  (∀ l, ¬ holds o l) → heap_ok st →
  unshared (heap st) → enterContainer content s o st = Ok (tt, st') → unshared (heap st').
Proof.
  intros Ho (Hord & Hcur & _) Hh. destruct st as [p l c s0 v ss os ck h]. simpl in *.
  unfold enterContainer. run_handler; intros [= <-]; simpl.
  - by apply unshared_alloc.
  - eapply unshared_insert; [done| |by apply unshared_alloc].
    intros l' [?|[= <-]]%holds_propAssign; [by left|right].
    intros a oa. by apply heap_ordered_fresh.
  - eapply unshared_insert; [done| |by apply unshared_alloc].
    intros l' [?|[= <-]]%holds_push; [by left|right].
    intros a oa. by apply heap_ordered_fresh.
  - by apply unshared_alloc.
Qed.

Lemma handle_tree_ok ev st st' :
  tree_ok st → handle content ev st = Ok (tt, st') → tree_ok st'.
Proof.
  intros [Hok Hh] Hrun. split; [by eapply handle_heap_ok|].
  destruct ev as [a| | |]; simpl in Hrun.
  - rewrite assign_shape in Hrun.
    destruct a;
      first [ eapply enterContainer_unshared; [|exact Hok|exact Hh|exact Hrun]
            | eapply assignValue_unshared; [|exact Hh|exact Hrun] ];
      intros l; simpl;
      first [done | by intros [?|[? ?]] | by intros [? ?] | by intros ?%elem_of_nil].
  - rewrite acceptKey_run in Hrun. case_decide; [|done].
    destruct (curKey st); [done|]. by injection Hrun as <-.
  - rewrite leaveDict_run in Hrun. case_decide; [|done]. by injection Hrun as <-.
  - rewrite leaveArray_run in Hrun. case_decide; [|done]. by injection Hrun as <-.
Qed.
End Unshared.

Definition keeps_tree_ok (st st' : pstate) : Prop := tree_ok st → tree_ok st'.

#[global] Instance keeps_tree_ok_refl : Reflexive keeps_tree_ok.
Proof. intros st. unfold keeps_tree_ok. auto. Qed.

#[global] Instance keeps_tree_ok_trans : Transitive keeps_tree_ok.
Proof. intros st1 st2 st3. unfold keeps_tree_ok. auto. Qed.

Lemma tree_ok_builder st st' : builder st' = builder st → keeps_tree_ok st st'.
Proof.
  destruct st, st'. unfold builder; simpl. intros [= -> -> -> -> -> ->].
  by unfold keeps_tree_ok, tree_ok, heap_ok.
Qed.

Lemma advancePosBy_tree_ok content k n :
  transition keeps_tree_ok (advancePosBy content k n).
Proof.
  intros st [] st' Hrun.
  destruct (advancePosBy_run content k n st) as (st1 & Hrun1 & _ & Hb).
  rewrite Hrun in Hrun1. injection Hrun1 as <-. by apply tree_ok_builder.
Qed.

Lemma advancePosTo_tree_ok content k to :
  transition keeps_tree_ok (advancePosTo content k to).
Proof.
  destruct k as [key|].
  - intros st [] st' Hrun.
    by apply (advancePosBy_tree_ok content (Some key) (to - pos st) st tt).
  - intros st [] st' [= <-]. by apply tree_ok_builder.
Qed.

Lemma handle_keeps_tree_ok content ev : transition keeps_tree_ok (handle content ev).
Proof. intros st [] st' Hrun Hok. by eapply handle_tree_ok. Qed.

(** X21. In what [parse] returns no container is shared: a container is
    an entry (a property, an element or the prototype) of one container
    at most. *)
Theorem parse_result_unshared (content : jsstring) (k : option jsstring)
    (v : value) (h : list object) :
  parse content k = Some (Ok (v, h)) →
  ∀ a b oa ob l,
    h !! a = Some oa → h !! b = Some ob → holds oa l → holds ob l → a = b.
Proof.
  unfold parse. destruct (loop content k _ _) as [[st|e]|] eqn:Hloop; try done.
  intros [= <- <-].
  destruct (loop_transition content k keeps_tree_ok
              (advancePosBy_tree_ok content k) (advancePosTo_tree_ok content k)
              (handle_keeps_tree_ok content) _ _ _ Hloop) as [_ Hh]; [|done].
  split; [|by intros a b oa ob l].
  split_and!; simpl; [|done|done]. by intros l o.
Qed.

Lemma parse_result_unshared_witness :
  let content := str "<array><dict/><array/></array>" in
  let h := [OArray [VRef 1; VRef 2]; ODict None ∅; OArray []] in
  parse content None = Some (Ok (VRef 0, h))
  ∧ ∀ a b oa ob l,
      h !! a = Some oa → h !! b = Some ob → holds oa l → holds ob l → a = b.
Proof.
  intros content h.
  assert (parse content None = Some (Ok (VRef 0, h))) as H by (vm_compute; reflexivity).
  split; [exact H|]. exact (parse_result_unshared content None _ _ H).
Defined.

(** ** What makes no difference *)

(** A handler that returns does not depend on the input. *)
Lemma handle_content content content' ev st st' :
  handle content ev st = Ok (tt, st') → handle content' ev st = Ok (tt, st').
Proof.
  destruct st as [p l c s v ss os ck h]. intros Hrun.
  destruct ev as [a| | |]; simpl in *.
  - rewrite assign_shape in *.
    destruct a; unfold assignValue, enterContainer in *; revert Hrun; run_handler.
  - unfold acceptKey in *. revert Hrun. run_handler.
  - unfold leaveDict in *. revert Hrun. run_handler.
  - unfold leaveArray in *. revert Hrun. run_handler.
Qed.

(** A handler that throws does so wherever [pos] is. *)
Lemma handle_throws_with_pos content ev q st e :
  handle content ev st = Throw e → ∃ e', handle content ev (with_pos q st) = Throw e'.
Proof.
  destruct st as [p l c s v ss os ck h]. intros Hrun.
  destruct ev as [a| | |]; simpl in *.
  - rewrite assign_shape in *.
    destruct a; unfold assignValue, enterContainer in *; revert Hrun; run_handler;
      intros _; by eexists.
  - unfold acceptKey in *. revert Hrun. run_handler; intros _; by eexists.
  - unfold leaveDict in *. revert Hrun. run_handler; intros _; by eexists.
  - unfold leaveArray in *. revert Hrun. run_handler; intros _; by eexists.
Qed.

Lemma accept_content content content' kd val st st' :
  accept content kd val st = Ok (tt, st') → accept content' kd val st = Ok (tt, st').
Proof.
  destruct kd; simpl.
  - apply (handle_content content content' (Key val)).
  - apply (handle_content content content' (Assign (StringLeaf val))).
  - destruct (parseFloat val) as [|d]; [done|].
    apply (handle_content content content' (Assign (RealLeaf d))).
  - destruct (parseInt val 10) as [|d]; [done|].
    apply (handle_content content content' (Assign (IntegerLeaf d))).
  - apply (handle_content content content' (Assign (DateLeaf val))).
  - apply (handle_content content content' (Assign (DataLeaf val))).
Qed.

Lemma accept_throws_with_pos content kd val q st e :
  accept content kd val st = Throw e →
  ∃ e', accept content kd val (with_pos q st) = Throw e'.
Proof.
  destruct kd; simpl.
  - apply (handle_throws_with_pos content (Key val)).
  - apply (handle_throws_with_pos content (Assign (StringLeaf val))).
  - destruct (parseFloat val) as [|d]; [by eexists|].
    apply (handle_throws_with_pos content (Assign (RealLeaf d))).
  - destruct (parseInt val 10) as [|d]; [by eexists|].
    apply (handle_throws_with_pos content (Assign (IntegerLeaf d))).
  - apply (handle_throws_with_pos content (Assign (DateLeaf val))).
  - apply (handle_throws_with_pos content (Assign (DataLeaf val))).
Qed.

Lemma action_content content content' tok st st' :
  action content tok st = Ok (tt, st') → action content' tok st = Ok (tt, st').
Proof.
  destruct tok as [c|c pad junk|c|kd raw junk|kd|b|body|body|body|attrs|pad junk]; simpl;
    try done.
  - destruct c.
    + apply (handle_content content content' (Assign DictOpen)).
    + apply (handle_content content content' (Assign ArrayOpen)).
  - destruct c.
    + apply (handle_content content content' DictClose).
    + apply (handle_content content content' ArrayClose).
  - destruct c; unfold mbind, M_bind.
    + destruct (enterDict content st) as [[[] st1]|] eqn:H1; [|done].
      intros H2. apply (handle_content content content' (Assign DictOpen)) in H1.
      apply (handle_content content content' DictClose) in H2. simpl in H1, H2.
      by rewrite H1.
    + destruct (enterArray content st) as [[[] st1]|] eqn:H1; [|done].
      intros H2. apply (handle_content content content' (Assign ArrayOpen)) in H1.
      apply (handle_content content content' ArrayClose) in H2. simpl in H1, H2.
      by rewrite H1.
  - unfold mbind, M_bind, lift. destruct (escapeVal raw) as [val|]; [|done].
    apply accept_content.
  - apply accept_content.
  - apply (handle_content content content' (Assign (BoolLeaf b))).
Qed.

Lemma action_throws_with_pos content tok q st e :
  action content tok st = Throw e → ∃ e', action content tok (with_pos q st) = Throw e'.
Proof.
  destruct tok as [c|c pad junk|c|kd raw junk|kd|b|body|body|body|attrs|pad junk]; simpl;
    try done.
  - destruct c.
    + apply (handle_throws_with_pos content (Assign DictOpen)).
    + apply (handle_throws_with_pos content (Assign ArrayOpen)).
  - destruct c.
    + apply (handle_throws_with_pos content DictClose).
    + apply (handle_throws_with_pos content ArrayClose).
  - destruct c; unfold mbind, M_bind.
    + destruct (enterDict content st) as [[[] st1]|e1] eqn:H1.
      * apply (handle_with_pos content (Assign DictOpen) q) in H1. simpl in H1.
        rewrite H1. apply (handle_throws_with_pos content DictClose).
      * intros _.
        destruct (handle_throws_with_pos content (Assign DictOpen) q _ _ H1) as [e' He'].
        simpl in He'. rewrite He'. by eexists.
    + destruct (enterArray content st) as [[[] st1]|e1] eqn:H1.
      * apply (handle_with_pos content (Assign ArrayOpen) q) in H1. simpl in H1.
        rewrite H1. apply (handle_throws_with_pos content ArrayClose).
      * intros _.
        destruct (handle_throws_with_pos content (Assign ArrayOpen) q _ _ H1) as [e' He'].
        simpl in He'. rewrite He'. by eexists.
  - unfold mbind, M_bind, lift. destruct (escapeVal raw) as [val|]; [|by eexists].
    apply accept_throws_with_pos.
  - apply accept_throws_with_pos.
  - apply (handle_throws_with_pos content (Assign (BoolLeaf b))).
Qed.

Lemma handleAll_content content content' toks : ∀ st st',
  handleAll content toks st = Ok st' → handleAll content' toks st = Ok st'.
Proof.
  induction toks as [|tok toks IH]; intros st st'; simpl; [done|].
  destruct (action content tok st) as [[[] st1]|] eqn:Hact; [|done].
  rewrite (action_content _ content' _ _ _ Hact). apply IH.
Qed.

Lemma handleAll_throws_with_pos content toks q : ∀ st e,
  handleAll content toks st = Throw e →
  ∃ e', handleAll content toks (with_pos q st) = Throw e'.
Proof.
  induction toks as [|tok toks IH]; intros st e; simpl; [done|].
  destruct (action content tok st) as [[[] st1]|e1] eqn:Hact.
  - rewrite (action_with_pos _ _ q _ _ Hact). apply IH.
  - intros _. destruct (action_throws_with_pos _ _ q _ _ Hact) as [e' ->]. by eexists.
Qed.

Lemma handleTokens_throws content items : ∀ p st e,
  handleAll content (filter (λ tok, significant tok = true) items.*2) st = Throw e →
  ∃ e', handleTokens content p items st = Throw e'.
Proof.
  induction items as [|[ws tok] items IH]; intros p st e; simpl; [done|].
  rewrite filter_cons. destruct (decide (significant tok = true)) as [Hs|Hs].
  - simpl. destruct (action content tok st) as [[[] st1]|e1] eqn:Hact.
    + intros Hall.
      rewrite (action_with_pos _ _ (p + length ws + length (render tok)) _ _ Hact).
      destruct (handleAll_throws_with_pos _ _ (p + length ws + length (render tok)) _ _ Hall)
        as [e' Hall'].
      by apply (IH _ _ e').
    + intros _.
      destruct (action_throws_with_pos _ _ (p + length ws + length (render tok)) _ _ Hact)
        as [e' ->].
      by eexists.
  - intros Hall.
    assert (action content tok = mret tt) as -> by (by destruct tok).
    unfold mret, M_ret.
    destruct (handleAll_throws_with_pos _ _ (p + length ws + length (render tok)) _ _ Hall)
      as [e' Hall'].
    by apply (IH _ _ e').
Qed.

(** The handlers of the tags of a document return exactly when they
    return for the tags that have handlers, wherever the tags are, and
    they build the same. *)
Lemma handleTokens_returns content items p st st' :
  handleTokens content p items st = Ok st' →
  ∃ st'', handleAll content (filter (λ tok, significant tok = true) items.*2) st = Ok st''
          ∧ builder st'' = builder st'.
Proof.
  intros Hrun.
  destruct (handleAll content _ st) as [st''|e] eqn:Hall.
  - exists st''. split; [done|].
    destruct (handleTokens_handleAll _ _ p _ _ Hall) as [q Hq].
    rewrite Hq in Hrun. by injection Hrun as <-.
  - destruct (handleTokens_throws _ _ p _ _ Hall) as [e' He']. congruence.
Qed.

Lemma initialState_with_pos content content' :
  initialState content' = with_pos (pos (initialState content')) (initialState content).
Proof. done. Qed.

(** The value returned does not depend on how the document is laid out. *)
Lemma parse_layouts (bom bom' : jsstring) (items items' : layout)
    (trailing trailing' : jsstring) (k k' : option jsstring) r :
  (bom = [] ∨ bom = [BOM]) → well_formed items → blanks trailing →
  (bom' = [] ∨ bom' = [BOM]) → well_formed items' → blanks trailing' →
  tagsOf items = tagsOf items' →
  parse (bom ++ renderAll items ++ trailing) k = Some (Ok r) →
  parse (bom' ++ renderAll items' ++ trailing') k' = Some (Ok r).
Proof.
  intros Hbom Hwf Htr Hbom' Hwf' Htr' Htags.
  rewrite !parse_layout by done.
  set (content := bom ++ renderAll items ++ trailing).
  set (content' := bom' ++ renderAll items' ++ trailing').
  destruct (handleTokens content _ items _) as [st|] eqn:Hrun; [|done].
  intros [= <-].
  destruct (handleTokens_returns _ _ _ _ _ Hrun) as (st1 & Hall & Hb).
  rewrite <- handleAll_plain in Hall. fold (tagsOf items) in Hall. rewrite Htags in Hall.
  unfold tagsOf in Hall. rewrite handleAll_plain in Hall.
  apply (handleAll_content _ content') in Hall.
  apply (handleAll_with_pos _ _ (pos (initialState content'))) in Hall.
  rewrite <- initialState_with_pos in Hall.
  destruct (handleTokens_handleAll _ _ (length bom') _ _ Hall) as [q ->].
  simpl. unfold builder in Hb. by injection Hb as _ -> _ _ _ ->.
Qed.

(** X22. The value returned does not depend on how a document is laid
    out: two documents with the same tags (the same containers, leaves
    and texts, in the same order) that differ in the blanks between the
    tags, in the parts passed over (processing instructions, comments,
    declarations, the tags of [plist]), in the byte order mark, in what
    the closing tags hold besides the name of a container, or in the
    way an empty leaf is written, give the same value whenever one of
    them gives a value. *)
Theorem layout_makes_no_difference (bom bom' : jsstring) (items items' : layout)
    (trailing trailing' : jsstring) (k k' : option jsstring)
    (r : value * list object) :
  (bom = [] ∨ bom = [BOM]) → well_formed items → blanks trailing →
  (bom' = [] ∨ bom' = [BOM]) → well_formed items' → blanks trailing' →
  tagsOf items = tagsOf items' →
  (parse (bom ++ renderAll items ++ trailing) k = Some (Ok r)
   ↔ parse (bom' ++ renderAll items' ++ trailing') k' = Some (Ok r)).
Proof.
  intros Hbom Hwf Htr Hbom' Hwf' Htr' Htags. split.
  - by apply parse_layouts.
  - by apply parse_layouts.
Qed.

Lemma layout_makes_no_difference_witness :
  parse (str "<array><string>a</string><data/></array>") None
  = Some (Ok (VRef 0, [OArray [VString (str "a"); VString []]]))
  ↔ parse ([BOM] ++ str "<?xml?><plist> <array>" ++ [LINE_FEED; TAB]
             ++ str "<string>a</s><!-- b --> <data></data></ arrays></plist>" ++ [LINE_FEED])
          (Some (str "loc"))
    = Some (Ok (VRef 0, [OArray [VString (str "a"); VString []]])).
Proof.
  set (items := [([], TOpen KArray); ([], TLeaf KString (str "a") (str "string"));
                 ([], TEmptyLeaf KData); ([], TClose KArray [] [])] : layout).
  set (items' := [([], TInstruction (str "xml")); ([], TPlistOpen []);
                  (str " ", TOpen KArray);
                  ([LINE_FEED; TAB], TLeaf KString (str "a") (str "s"));
                  ([], TComment (str " b "));
                  (str " ", TLeaf KData [] (str "data"));
                  ([], TClose KArray (str " ") (str "s"));
                  ([], TPlistClose [] [])] : layout).
  assert (well_formed items) as Hwf by (repeat constructor; by vm_compute).
  assert (well_formed items') as Hwf' by (repeat constructor; by vm_compute).
  assert (blanks [LINE_FEED]) as Htr by (by repeat constructor).
  exact (layout_makes_no_difference [] [BOM] items items' [] [LINE_FEED] None
           (Some (str "loc")) _ (or_introl eq_refl) Hwf (List.Forall_nil _)
           (or_intror eq_refl) Hwf' Htr eq_refl).
Defined.

(** ** A reference that is no character *)

Lemma takeWhile_stop cls ds c rest :
  forallb cls ds = true → cls c = false →
  takeWhile cls (ds ++ c :: rest) = ds ∧ dropWhile cls (ds ++ c :: rest) = c :: rest.
Proof.
  intros Hds Hc. induction ds as [|d ds IH]; simpl in *.
  - by rewrite Hc.
  - apply andb_true_iff in Hds as [Hd Hds]. rewrite Hd.
    destruct (IH Hds) as [-> ->]. done.
Qed.

Lemma matchDecimal_reference ds rest :
  ds ≠ [] → forallb isDigit ds = true →
  matchDecimal (str "&#" ++ ds ++ SEMICOLON :: rest) = Some (ds, length ds + 3).
Proof.
  intros Hne Hds. unfold matchDecimal, matchReference.
  change (starts_with [AMPERSAND; HASH] (str "&#" ++ ds ++ SEMICOLON :: rest)) with true.
  cbv iota.
  change (drop (length [AMPERSAND; HASH]) (str "&#" ++ ds ++ SEMICOLON :: rest))
    with (ds ++ SEMICOLON :: rest).
  destruct (takeWhile_stop isDigit ds SEMICOLON rest Hds eq_refl) as [-> ->].
  destruct ds as [|d ds]; [done|]. cbv iota. rewrite N.eqb_refl.
  simpl. do 2 f_equal. lia.
Qed.

Lemma replace_from_plain_prefix matcher fn pre t :
  (∀ u m, matcher u = Some m → ∃ r, u = AMPERSAND :: r) →
  Forall (λ c, c ≠ AMPERSAND) pre →
  replace_from matcher fn 0 (pre ++ t)
  = (u ← replace_from matcher fn 0 t; Ok (pre ++ u)).
Proof.
  intros Hmatch. induction 1 as [|c pre Hc _ IH]; simpl.
  - by destruct (replace_from matcher fn 0 t).
  - destruct (matcher (c :: pre ++ t)) as [m|] eqn:Hm.
    + destruct (Hmatch _ _ Hm) as [r [= -> _]]. done.
    + rewrite IH. by destruct (replace_from matcher fn 0 t).
Qed.

Lemma integerValue_digits ds :
  ds ≠ [] → forallb isDigit ds = true →
  isIntegerLiteral ds = true ∧ integerValue ds = Z.of_N (decimalValue ds)
  ∧ literalNegative ds = false.
Proof.
  intros Hne Hds. destruct ds as [|d ds]; [done|].
  pose proof Hds as Hd. simpl in Hd. apply andb_true_iff in Hd as [Hd _].
  destruct (isDigit_not_sign _ Hd) as [H45 H43].
  unfold isIntegerLiteral, integerValue, literalNegative, isSign. by rewrite H43, H45.
Qed.

Lemma escapeVal_out_of_range pre ds rest :
  Forall (λ c, c ≠ AMPERSAND) pre → ds ≠ [] → forallb isDigit ds = true →
  (1114111 < integerValue ds)%Z →
  escapeVal (pre ++ str "&#" ++ ds ++ str ";" ++ rest) = Throw RangeError.
Proof.
  intros Hpre Hne Hds Hbig. unfold escapeVal, replace.
  rewrite replace_from_plain_prefix by (done || apply matchReference_ampersand).
  assert (replace_from matchDecimal (λ m0, fromCodePoint (parseInt m0 10)) 0
            (str "&#" ++ ds ++ str ";" ++ rest) = Throw RangeError) as ->; [|done].
  change (str "&#" ++ ds ++ str ";" ++ rest)
    with (AMPERSAND :: (HASH :: ds ++ SEMICOLON :: rest)).
  cbn [replace_from].
  change (AMPERSAND :: HASH :: ds ++ SEMICOLON :: rest)
    with (str "&#" ++ ds ++ SEMICOLON :: rest).
  rewrite matchDecimal_reference by done.
  destruct (integerValue_digits ds Hne Hds) as (Hlit & Hval & Hpos).
  rewrite (parseInt_literal ds Hlit). unfold integerNumber.
  rewrite Hpos, Z.abs_eq by lia. by rewrite fromCodePoint_large.
Qed.

(** X23. A decimal reference beyond the last code point, 0x10FFFF, in a
    text whose part in front of it holds no [&]: [escapeVal] throws the
    [RangeError] of [String.fromCodePoint]; and [parse] throws it, not
    an error of its own, for a leaf with such a text, whatever the kind
    of the leaf and the mode. *)
Theorem reference_out_of_range (pre ds rest : jsstring) :
  Forall (λ c, c ≠ AMPERSAND) pre → ds ≠ [] → forallb isDigit ds = true →
  (1114111 < integerValue ds)%Z →
  let raw := pre ++ str "&#" ++ ds ++ str ";" ++ rest in
  escapeVal raw = Throw RangeError
  ∧ ∀ kd junk k,
      delimited raw (str "</") → delimited junk (str ">") →
      parse (render (TLeaf kd raw junk)) k = Some (Throw RangeError).
Proof.
  intros Hpre Hne Hds Hbig raw.
  assert (escapeVal raw = Throw RangeError) as Hesc by (by apply escapeVal_out_of_range).
  split; [done|]. intros kd junk k Hraw Hjunk.
  replace (render (TLeaf kd raw junk))
    with ([] ++ renderAll [([], TLeaf kd raw junk)] ++ [])
    by (unfold renderAll; simpl flat_map; cbn [fst snd]; by rewrite !app_nil_r).
  rewrite parse_layout; [|by left|by repeat constructor|constructor].
  cbn [handleTokens action snd]. unfold mbind, M_bind, lift. by rewrite Hesc.
Qed.

Lemma reference_out_of_range_witness :
  escapeVal (str "a&#1114112;") = Throw RangeError
  ∧ parse (str "<string>a&#1114112;</string>") None = Some (Throw RangeError).
Proof.
  assert (Forall (λ c, c ≠ AMPERSAND) (str "a")) as Hpre by (by repeat constructor).
  assert (str "1114112" ≠ []) as Hne by discriminate.
  assert (1114111 < integerValue (str "1114112"))%Z as Hbig by (vm_compute; reflexivity).
  destruct (reference_out_of_range (str "a") (str "1114112") [] Hpre Hne eq_refl Hbig)
    as [Hesc Hparse].
  split; [exact Hesc|].
  exact (Hparse KString (str "string") None eq_refl eq_refl).
Defined.

(** ** The end of the input inside a part that is passed over *)

Lemma advanceUntil_not_found content d st :
  pos st ≤ length content → indexOf (drop (pos st) content) d 0 = None →
  advanceUntil content None d st = Ok (tt, with_pos (length content) st).
Proof.
  intros Hle Hnone. unfold advanceUntil, mbind, M_bind, gets.
  by rewrite (indexOf_drop_None _ _ _ Hle Hnone).
Qed.

(** What begins and what ends a part that is passed over. *)
Definition passedOver : list (jsstring * jsstring) :=
  [(str "<?", str "?>"); (str "<!--", str "-->"); (str "<!", str ">")].

Lemma loopBody_unterminated content pre ws opener closer body st :
  (opener, closer) ∈ passedOver →
  content = pre ++ ws ++ opener ++ body →
  Forall (λ b, isBlank b = true) ws → pos st = length pre →
  indexOf body closer 0 = None →
  (opener = str "<!" → starts_with (str "--") body = false) →
  loopBody content None st = Ok (Continue, with_pos (length content) st).
Proof.
  intros Hin Hc Hws Hp Hnone Hdecl.
  assert (length content = length pre + length ws + length opener + length body) as Hlen.
  { rewrite Hc, !length_app. lia. }
  apply list_elem_of_In in Hin. simpl in Hin.
  destruct Hin as [[= <- <-]|[[= <- <-]|[[= <- <-]|[]]]].
  - (* a processing instruction *)
    rewrite (loopBody_tag content pre ws QUESTION_MARK body) by done.
    unfold tagBody. rewrite decide_True by done.
    erewrite bind_run by reflexivity. rewrite pos_with_pos, with_pos_with_pos.
    erewrite bind_run; [reflexivity|].
    rewrite advanceUntil_not_found; [done|simpl in *; lia|].
    rewrite pos_with_pos, Hc.
    replace (pre ++ ws ++ str "<?" ++ body) with ((pre ++ ws ++ str "<?") ++ body)
      by (by rewrite <- !app_assoc).
    replace (length pre + length ws + 1 + 1) with (length (pre ++ ws ++ str "<?"))
      by (rewrite !length_app; simpl; lia).
    by rewrite drop_app_length.
  - (* a comment *)
    rewrite (loopBody_tag content pre ws EXCLAMATION_MARK (str "--" ++ body)) by done.
    unfold tagBody. rewrite decide_False by done. rewrite decide_True by done.
    erewrite bind_run by reflexivity. rewrite pos_with_pos, with_pos_with_pos.
    erewrite bind_run.
    2:{ rewrite (advanceIfStartsWith_run content (pre ++ ws ++ str "<!") (str "--" ++ body)).
        - reflexivity.
        - rewrite Hc. by rewrite <- !app_assoc.
        - rewrite pos_with_pos, !length_app. simpl. lia. }
    cbv iota beta. rewrite with_pos_with_pos.
    erewrite bind_run; [reflexivity|].
    rewrite advanceUntil_not_found; [done|rewrite pos_with_pos, !length_app; simpl in *; lia|].
    rewrite pos_with_pos, Hc.
    replace (pre ++ ws ++ str "<!--" ++ body) with ((pre ++ ws ++ str "<!--") ++ body)
      by (by rewrite <- !app_assoc).
    replace (length (pre ++ ws ++ str "<!") + length (str "--"))
      with (length (pre ++ ws ++ str "<!--"))
      by (rewrite !length_app; simpl; lia).
    by rewrite drop_app_length.
  - (* a declaration *)
    rewrite (loopBody_tag content pre ws EXCLAMATION_MARK body) by done.
    unfold tagBody. rewrite decide_False by done. rewrite decide_True by done.
    erewrite bind_run by reflexivity. rewrite pos_with_pos, with_pos_with_pos.
    erewrite bind_run.
    2:{ rewrite (advanceIfStartsWith_run content (pre ++ ws ++ str "<!") body).
        - rewrite Hdecl by done. reflexivity.
        - rewrite Hc. by rewrite <- !app_assoc.
        - rewrite pos_with_pos, !length_app. simpl. lia. }
    cbv iota beta.
    erewrite bind_run; [reflexivity|].
    rewrite advanceUntil_not_found; [done|rewrite pos_with_pos; simpl in *; lia|].
    rewrite pos_with_pos, Hc.
    replace (pre ++ ws ++ str "<!" ++ body) with ((pre ++ ws ++ str "<!") ++ body)
      by (by rewrite <- !app_assoc).
    replace (length pre + length ws + 1 + 1) with (length (pre ++ ws ++ str "<!"))
      by (rewrite !length_app; simpl; lia).
    by rewrite drop_app_length.
Qed.

(** X24. A processing instruction, a comment or a declaration that is not
    ended is no error: behind tags whose handlers return, the rest of
    the input is passed over, and [parse] returns what the tags in
    front have built. *)
Theorem unterminated_markup_absorbed (items : layout) (ws opener closer body : jsstring)
    (st' : pstate) (k : option jsstring) :
  well_formed items → blanks ws →
  (opener, closer) ∈ passedOver →
  indexOf body closer 0 = None →
  (opener = str "<!" → starts_with (str "--") body = false) →
  let content := renderAll items ++ ws ++ opener ++ body in
  handleTokens content 0 items (initialState content) = Ok st' →
  parse content k = Some (Ok (cur st', heap st')).
Proof.
  intros Hwf Hws Hin Hnone Hdecl content Hrun.
  assert (∃ c rest, opener = LESS_THAN :: c :: rest) as (c & rest & Hopener).
  { apply list_elem_of_In in Hin. simpl in Hin.
    destruct Hin as [[= <- <-]|[[= <- <-]|[[= <- <-]|[]]]]; by eexists _, _. }
  assert (pos (initialState content) = 0) as Hp0.
  { apply initialState_pos_0; try done. by rewrite Hopener. }
  destruct (runs_to_tokens content items (@nil N) (ws ++ opener ++ body) _ _ eq_refl
              Hwf Hp0 Hrun) as [Hruns Hp].
  rewrite (parse_mode_irrelevant content k None).
  rewrite (parse_runs_to content None (with_pos (length content) st')); [done| |simpl; lia].
  assert (runs_to content None st' (with_pos (length content) st')) as Hlast.
  { eapply runs_on; [| |apply runs_here].
    - rewrite Hp. unfold content. rewrite Hopener, !length_app. simpl. lia.
    - by apply (loopBody_unterminated content (renderAll items) ws opener closer body). }
  clear -Hruns Hlast. induction Hruns; [done|]. eapply runs_on; eauto.
Qed.

Lemma unterminated_markup_absorbed_witness :
  parse (str "<array><true/> <!-- </array> and so on") None
  = Some (Ok (VRef 0, [OArray [VBool true]])).
Proof.
  set (items := [([], TOpen KArray); ([], TBool true)] : layout).
  assert (well_formed items) as Hwf by (repeat constructor; by vm_compute).
  assert (blanks (str " ")) as Hws by (by repeat constructor).
  assert ((str "<!--", str "-->") ∈ passedOver) as Hin
    by (apply list_elem_of_In; simpl; tauto).
  exact (unterminated_markup_absorbed items (str " ") (str "<!--") (str "-->")
           (str " </array> and so on")
           (mkState 14 1 0 ARR_STATE (VRef 0) [ROOT_STATE] [VRef 0] None
              [OArray [VBool true]]) None
           Hwf Hws Hin eq_refl ltac:(discriminate) eq_refl).
Defined.
